(** * swgp-go server relay core: a shallow embedding of service/server.go

    The development follows the source file top to bottom:
    - [GoInt]: Go's 64-bit [int] with its wrap-around;
    - [Netip]: the part of net/netip the server relies on;
    - [Consts]: constants of the packages the file imports;
    - [Config]: [ServerConfig.Server];
    - [Chan]: a bounded Go channel;
    - [Relay]: the ingress loop, the two per-session workers and [Stop],
      as transitions over an explicit server state. *)

From Stdlib Require Import ZArith Lia.
From stdpp Require Import base decidable countable gmap list strings.

Local Open Scope Z_scope.

(** ** Go's [int] on a 64-bit platform *)
Module GoInt.

Definition minInt : Z := - 2 ^ 63.
Definition maxInt : Z := 2 ^ 63 - 1.

(** Two's complement wrap-around of an arithmetic result. *)
Definition wrap (x : Z) : Z := (x + 2 ^ 63) mod 2 ^ 64 - 2 ^ 63.

Definition add (x y : Z) : Z := wrap (x + y).
Definition sub (x y : Z) : Z := wrap (x - y).
(** [x & y]: bitwise on the two's complement representation. *)
Definition and (x y : Z) : Z := Z.land x y.

Definition in_range (x : Z) : Prop := minInt <= x <= maxInt.

End GoInt.

(** ** net/netip addresses

    [Addr] is Go's representation: a 128-bit value [hi:lo] and a zone
    handle.  IPv4 addresses are stored IPv4-mapped with the handle [z4]. *)
Module Netip.

Inductive zone : Type :=
| z0                      (* the zero Addr *)
| z4                      (* an IPv4 address *)
| z6noz                   (* an IPv6 address without zone *)
| z6zone (name : string). (* an IPv6 address with a zone *)

Record Addr : Type := mkAddr { hi : Z; lo : Z; z : zone }.
Record AddrPort : Type := mkAddrPort { ip : Addr; port : Z }.

#[global] Instance zone_eq_dec : EqDecision zone.
Proof. solve_decision. Defined.
#[global] Instance Addr_eq_dec : EqDecision Addr.
Proof. solve_decision. Defined.
#[global] Instance AddrPort_eq_dec : EqDecision AddrPort.
Proof. solve_decision. Defined.

Definition zone_enc (x : zone) : nat + string :=
  match x with
  | z0 => inl 0%nat | z4 => inl 1%nat | z6noz => inl 2%nat
  | z6zone n => inr n
  end.
Definition zone_dec (x : nat + string) : zone :=
  match x with
  | inl 0%nat => z0 | inl 1%nat => z4 | inl _ => z6noz
  | inr n => z6zone n
  end.

#[global] Instance zone_countable : Countable zone.
Proof. apply (inj_countable' zone_enc zone_dec). by intros []. Defined.
#[global] Instance Addr_countable : Countable Addr.
Proof.
  apply (inj_countable' (fun a => (hi a, lo a, z a))
                        (fun t => mkAddr t.1.1 t.1.2 t.2)).
  by intros [].
Defined.
#[global] Instance AddrPort_countable : Countable AddrPort.
Proof.
  apply (inj_countable' (fun a => (ip a, port a))
                        (fun t => mkAddrPort t.1 t.2)).
  by intros [].
Defined.

(** [Addr.Is4]: [ip.z == z4]. *)
Definition Is4 (a : Addr) : bool := bool_decide (z a = z4).
(** [Addr.Is6]: [ip.z != z0 && ip.z != z4]. *)
Definition Is6 (a : Addr) : bool :=
  negb (bool_decide (z a = z0)) && negb (bool_decide (z a = z4)).
(** [Addr.Is4In6]: [ip.Is6() && ip.addr.hi == 0 && ip.addr.lo>>32 == 0xffff]. *)
Definition Is4In6 (a : Addr) : bool :=
  Is6 a && (hi a =? 0) && (Z.shiftr (lo a) 32 =? 65535).
(** [Addr.Unmap]: an IPv4-mapped IPv6 address becomes the IPv4 address. *)
Definition Unmap (a : Addr) : Addr :=
  if Is4In6 a then mkAddr (hi a) (lo a) z4 else a.

(** [AddrFrom4] on the four bytes, most significant first. *)
Definition AddrFrom4 (a b c d : Z) : Addr :=
  mkAddr 0 (Z.lor 0xffff00000000
             (Z.lor (Z.shiftl a 24) (Z.lor (Z.shiftl b 16) (Z.lor (Z.shiftl c 8) d)))) z4.

End Netip.
Export Netip.

(** ** Constants of the service and packet packages *)
Module Consts.

(** Modelled from the spec: the declaration of [minimumMTU] is not part of
    server.go; the specification gives the minimum MTU as 1280. *)
Definition minimumMTU : Z := 1280.
(** Modelled from the spec: [IPv4HeaderLength], declared outside server.go;
    the IP header is 20 bytes for IPv4. *)
Definition IPv4HeaderLength : Z := 20.
(** Modelled from the spec: [IPv6HeaderLength], declared outside server.go;
    the IP header is 40 bytes for IPv6. *)
Definition IPv6HeaderLength : Z := 40.
(** Modelled from the spec: [UDPHeaderLength], declared outside server.go;
    the UDP header is 8 bytes. *)
Definition UDPHeaderLength : Z := 8.
(** Modelled from the spec: [WireGuardDataPacketOverhead], declared outside
    server.go; data packets carry 32 bytes of header and tag. *)
Definition WireGuardDataPacketOverhead : Z := 32.
(** Modelled from the spec: [WireGuardDataPacketLengthMask], declared
    outside server.go; the specification writes the mask as [~0xF]. *)
Definition WireGuardDataPacketLengthMask : Z := Z.lnot 15.
(** Modelled from the spec: [packet.WireGuardMessageTypeHandshakeInitiation],
    declared outside server.go; message type 1. *)
Definition WireGuardMessageTypeHandshakeInitiation : Z := 1.
(** Modelled from the spec: [packet.WireGuardMessageTypeHandshakeResponse],
    declared outside server.go; message type 2. *)
Definition WireGuardMessageTypeHandshakeResponse : Z := 2.
(** Modelled from the spec: [RejectAfterTime], declared outside server.go;
    180 seconds, here in nanoseconds as a [time.Duration]. *)
Definition RejectAfterTime : Z := 180 * 1000000000.

End Consts.
Export Consts.

(** ** Errors and the packet handler interface *)

(** Go's [error] values that the server distinguishes, and the rest. *)
Inductive error : Type :=
| ErrMTUTooSmall
| ErrDeadlineExceeded         (* matches os.ErrDeadlineExceeded *)
| ErrClosed                   (* use of closed network connection *)
| ErrOther (msg : string).

#[global] Instance error_eq_dec : EqDecision error.
Proof. solve_decision. Defined.

(** A byte slice; bytes are kept as integers in [0, 256). *)
Abbreviation bytes := (list Z).

(** [packet.Handler]: the codec works in place, so both operations return
    the buffer they leave behind together with the bounds of the result. *)
Record Handler : Type := mkHandler {
  FrontOverhead : Z;
  RearOverhead : Z;
  EncryptZeroCopy : bytes -> Z -> Z -> error + (bytes * Z * Z);
  DecryptZeroCopy : bytes -> Z -> Z -> error + (bytes * Z * Z);
}.

(** ** [ServerConfig.Server] *)
Module Config.

(** The fields of the embedded [PerfConfig] that the server copies. *)
Record PerfConfig : Type := mkPerfConfig {
  BatchMode : string;
  RelayBatchSize : Z;
  MainRecvBatchSize : Z;
  SendChannelCapacity : Z;
}.

Record ServerConfig : Type := mkServerConfig {
  Name : string;
  ProxyListen : string;
  ProxyMode : string;
  ProxyPSK : bytes;
  ProxyFwmark : Z;
  WgEndpoint : string;
  WgFwmark : Z;
  MTU : Z;
  Perf : PerfConfig;
}.

(** The functions [Server] calls that live in other files.  They are
    passed in; [CheckAndApplyDefaults] returns the updated PerfConfig. *)
Record Collaborators : Type := mkCollaborators {
  CheckAndApplyDefaults : PerfConfig -> error + PerfConfig;
  getPacketHandlerForProxyMode : string -> bytes -> error + Handler;
  ResolveAddrPort : string -> error + AddrPort;
}.

(** The calls [Server] makes, in order. *)
Inductive call : Type :=
| CallCheckAndApplyDefaults
| CallGetPacketHandler
| CallResolveAddrPort
| CallSetRelayFunc.

(** The immutable part of the [server] struct. *)
Record server : Type := mkServer {
  name : string;
  proxyListen : string;
  proxyFwmark : Z;
  wgFwmark : Z;
  relayBatchSize : Z;
  mainRecvBatchSize : Z;
  sendChannelCapacity : Z;
  maxProxyPacketSizev4 : Z;
  maxProxyPacketSizev6 : Z;
  wgTunnelMTUv4 : Z;
  wgTunnelMTUv6 : Z;
  wgAddrPort : AddrPort;
  handler : Handler;
}.

Definition Server (env : Collaborators) (sc : ServerConfig)
  : list call * (error + server) :=
  (* Require MTU to be at least 1280. *)
  if MTU sc <? minimumMTU then ([], inl ErrMTUTooSmall) else
  match CheckAndApplyDefaults env (Perf sc) with
  | inl err => ([CallCheckAndApplyDefaults], inl err)
  | inr perf =>
  match getPacketHandlerForProxyMode env (ProxyMode sc) (ProxyPSK sc) with
  | inl err => ([CallCheckAndApplyDefaults; CallGetPacketHandler], inl err)
  | inr h =>
  match ResolveAddrPort env (WgEndpoint sc) with
  | inl err =>
      ([CallCheckAndApplyDefaults; CallGetPacketHandler; CallResolveAddrPort],
       inl err)
  | inr wgAddr =>
      let v4 := GoInt.sub (GoInt.sub (MTU sc) IPv4HeaderLength) UDPHeaderLength in
      let v6 := GoInt.sub (GoInt.sub (MTU sc) IPv6HeaderLength) UDPHeaderLength in
      let frontOverhead := FrontOverhead h in
      let rearOverhead := RearOverhead h in
      let overhead := GoInt.add frontOverhead rearOverhead in
      let mtu4 :=
        GoInt.and (GoInt.sub (GoInt.sub v4 overhead) WireGuardDataPacketOverhead)
                  WireGuardDataPacketLengthMask in
      let mtu6 :=
        GoInt.and (GoInt.sub (GoInt.sub v6 overhead) WireGuardDataPacketOverhead)
                  WireGuardDataPacketLengthMask in
      ([CallCheckAndApplyDefaults; CallGetPacketHandler; CallResolveAddrPort;
        CallSetRelayFunc],
       inr {| name := Name sc;
              proxyListen := ProxyListen sc;
              proxyFwmark := ProxyFwmark sc;
              wgFwmark := WgFwmark sc;
              relayBatchSize := RelayBatchSize perf;
              mainRecvBatchSize := MainRecvBatchSize perf;
              sendChannelCapacity := SendChannelCapacity perf;
              maxProxyPacketSizev4 := v4;
              maxProxyPacketSizev6 := v6;
              wgTunnelMTUv4 := mtu4;
              wgTunnelMTUv6 := mtu6;
              wgAddrPort := wgAddr;
              handler := h |})
  end end end.

End Config.
Export Config.

(** ** Go channels

    A channel with a buffer of [cap] slots and a single receiver, which is
    what [wgConnSendCh] is.  Whether that receiver is parked in a receive on
    the empty channel is part of the receiving goroutine's state and is
    passed to the send. *)
Module Chan.

Record chan (A : Type) : Type := mk {
  buf : list A;
  cap : Z;
  closed : bool;
}.
Arguments mk {A} _ _ _.
Arguments buf {A} _.
Arguments cap {A} _.
Arguments closed {A} _.

(** [make(chan A, n)] for [0 <= n]; a negative size panics. *)
Definition make {A} (n : Z) : option (chan A) :=
  if n <? 0 then None else Some (mk [] n false).

Inductive send_result (A : Type) : Type :=
| Handoff                        (* given straight to the parked receiver *)
| Buffered (c : chan A)          (* stored in a free slot *)
| WouldBlock                     (* no receiver, no slot: the default case runs *)
| SendOnClosed.                  (* send on a closed channel panics *)
Arguments Handoff {A}.
Arguments Buffered {A} _.
Arguments WouldBlock {A}.
Arguments SendOnClosed {A}.

(** [select { case c <- x: default: }]. *)
Definition try_send {A} (parked : bool) (c : chan A) (x : A) : send_result A :=
  if closed c then SendOnClosed
  else if parked then Handoff
  else if Z.of_nat (length (buf c)) <? cap c
       then Buffered (mk (buf c ++ [x]) (cap c) (closed c))
       else WouldBlock.

(** The send case of the select is not ready. *)
Definition full {A} (parked : bool) (c : chan A) : bool :=
  negb (closed c) && negb parked && negb (Z.of_nat (length (buf c)) <? cap c).

Inductive recv_result (A : Type) : Type :=
| Received (c : chan A) (x : A)
| Drained                        (* closed and empty: [range] ends *)
| Park.                          (* open and empty: the receiver blocks *)
Arguments Received {A} _ _.
Arguments Drained {A}.
Arguments Park {A}.

(** One receive of [for x := range c]. *)
Definition recv {A} (c : chan A) : recv_result A :=
  match buf c with
  | x :: rest => Received (mk rest (cap c) (closed c)) x
  | [] => if closed c then Drained else Park
  end.

(** [close(c)]; closing a closed channel panics. *)
Definition close {A} (c : chan A) : option (chan A) :=
  if closed c then None else Some (mk (buf c) (cap c) true).

End Chan.

(** ** The relay: state, ingress loop, workers, Stop *)
Module Relay.

(** A UDP socket as the server sees it: whether it is closed and the read
    deadline last set.  As in Go's net package, an operation on a closed
    socket fails with [ErrClosed]. *)
Record udpConn : Type := mkConn {
  connClosed : bool;
  readDeadline : option Z;
}.

Definition openConn : udpConn := mkConn false None.

Definition SetReadDeadline (t : Z) (c : udpConn) : udpConn * option error :=
  if connClosed c then (c, Some ErrClosed)
  else (mkConn false (Some t), None).

Definition Close (c : udpConn) : udpConn * option error :=
  if connClosed c then (c, Some ErrClosed)
  else (mkConn true (readDeadline c), None).

(** [queuedPacket{buf, start, length}]. *)
Record queuedPacket : Type := mkQueued {
  qbuf : bytes;
  qstart : Z;
  qlength : Z;
}.

(** A [*[]byte]: the allocation it points to and the bytes stored there.
    Two pointers are equal when they are the same allocation. *)
Record ptr : Type := mkPtr { paddr : nat; pbytes : bytes }.

Definition ptr_eqb (p q : option ptr) : bool :=
  match p, q with
  | None, None => true
  | Some a, Some b => Nat.eqb (paddr a) (paddr b)
  | _, _ => false
  end.

Record serverNatEntry : Type := mkEntry {
  clientPktinfo : option ptr;         (* atomic.Pointer[[]byte] *)
  clientPktinfoCache : bytes;
  wgConn : udpConn;
  wgConnSendCh : Chan.chan queuedPacket;
  maxProxyPacketSize : Z;
}.

(** The locals of [relayWgToProxyGeneric]. *)
Record w2pLocal : Type := mkW2P {
  lClientPktinfo : bytes;
  lClientPktinfop : option ptr;
  lPacketBuf : bytes;
  lPacketsSent : Z;
  lWgBytesSent : Z;
}.

(** The goroutine running [relayWgToProxyGeneric] and the teardown that
    follows it. *)
Inductive w2pState : Type :=
| W2PStarting (clientPktinfop : option ptr)
| W2PLoop (l : w2pLocal)
| W2PLoopDone                 (* loop left; about to take the mutex *)
| W2PExited
| W2PPanicked.

(** The goroutine running [relayProxyToWgGeneric]; the two counters are
    [packetsSent] and [wgBytesSent]. *)
Inductive p2wState : Type :=
| P2WAtRecv (sent : Z) (nbytes : Z)
| P2WParked (sent : Z) (nbytes : Z)     (* blocked in the receive *)
| P2WHolding (sent : Z) (nbytes : Z) (p : queuedPacket)
| P2WLoopDone
| P2WExited
| P2WPanicked.

(** An allocated [serverNatEntry] with the client it was created for and
    its two goroutines ([None]: not started). *)
Record session : Type := mkSession {
  key : AddrPort;
  entry : serverNatEntry;
  w2p : option w2pState;
  p2w : option p2wState;
}.

Inductive level : Type := Debug | Info | Warn.

(** What the server does to the outside, in order. *)
Inductive event : Type :=
| EvGetBuf
| EvPutBuf (b : bytes)
| EvLog (l : level) (msg : string)
| EvNewSession (client : AddrPort) (wgTunnelMTU : Z)
| EvSend (id : nat) (p : queuedPacket)
| EvWgListen (id : nat)
| EvWgWrite (id : nat) (pkt : bytes) (dst : AddrPort)
| EvWgSetReadDeadline (id : nat) (t : Z)
| EvWgClose (id : nat)
| EvEncrypt (id : nat) (start len : Z)
| EvProxyWrite (pkt : bytes) (pktinfo : bytes) (dst : AddrPort)
| EvProxySetReadDeadline (t : Z)
| EvProxyClose.

Inductive ingressState : Type :=
| IngressNotStarted
| IngressRunning (packetsReceived wgBytesReceived : Z)
| IngressExited
| IngressPanicked.

(** Where a caller of [Stop] is. *)
Inductive stopPc : Type :=
| StopIdle
| StopWaitIngress (now : Z)     (* in [s.mwg.Wait()] *)
| StopWaitWorkers.              (* in [s.wg.Wait()] *)

(** The mutable part of the [server] struct, the heap of entries the
    table points into, the goroutines, and the trace of events. *)
Record state : Type := mkState {
  table : gmap AddrPort nat;
  heap : gmap nat session;
  nextPtr : nat;
  proxyConn : option udpConn;
  ingress : ingressState;
  mwg : Z;
  wg : Z;
  stopping : stopPc;
  trace : list event;
}.

Definition init : state :=
  mkState ∅ ∅ 0%nat None IngressNotStarted 0 0 StopIdle [].

Definition emit (es : list event) (st : state) : state :=
  mkState (table st) (heap st) (nextPtr st) (proxyConn st) (ingress st)
          (mwg st) (wg st) (stopping st) (trace st ++ es).
Definition set_table (t : gmap AddrPort nat) (st : state) : state :=
  mkState t (heap st) (nextPtr st) (proxyConn st) (ingress st)
          (mwg st) (wg st) (stopping st) (trace st).
Definition set_heap (h : gmap nat session) (st : state) : state :=
  mkState (table st) h (nextPtr st) (proxyConn st) (ingress st)
          (mwg st) (wg st) (stopping st) (trace st).
Definition set_nextPtr (n : nat) (st : state) : state :=
  mkState (table st) (heap st) n (proxyConn st) (ingress st)
          (mwg st) (wg st) (stopping st) (trace st).
Definition set_proxyConn (c : option udpConn) (st : state) : state :=
  mkState (table st) (heap st) (nextPtr st) c (ingress st)
          (mwg st) (wg st) (stopping st) (trace st).
Definition set_ingress (i : ingressState) (st : state) : state :=
  mkState (table st) (heap st) (nextPtr st) (proxyConn st) i
          (mwg st) (wg st) (stopping st) (trace st).
Definition set_mwg (n : Z) (st : state) : state :=
  mkState (table st) (heap st) (nextPtr st) (proxyConn st) (ingress st)
          n (wg st) (stopping st) (trace st).
Definition set_wg (n : Z) (st : state) : state :=
  mkState (table st) (heap st) (nextPtr st) (proxyConn st) (ingress st)
          (mwg st) n (stopping st) (trace st).
Definition set_stopping (p : stopPc) (st : state) : state :=
  mkState (table st) (heap st) (nextPtr st) (proxyConn st) (ingress st)
          (mwg st) (wg st) p (trace st).

(** Field updates of an entry and of a session. *)
Definition set_clientPktinfo (p : option ptr) (c : bytes) (e : serverNatEntry)
  : serverNatEntry :=
  mkEntry p c (wgConn e) (wgConnSendCh e) (maxProxyPacketSize e).
Definition set_wgConn (c : udpConn) (e : serverNatEntry) : serverNatEntry :=
  mkEntry (clientPktinfo e) (clientPktinfoCache e) c (wgConnSendCh e)
          (maxProxyPacketSize e).
Definition set_sendCh (c : Chan.chan queuedPacket) (e : serverNatEntry)
  : serverNatEntry :=
  mkEntry (clientPktinfo e) (clientPktinfoCache e) (wgConn e) c
          (maxProxyPacketSize e).

Definition with_entry (f : serverNatEntry -> serverNatEntry) (s : session)
  : session := mkSession (key s) (f (entry s)) (w2p s) (p2w s).
Definition set_w2p (w : option w2pState) (s : session) : session :=
  mkSession (key s) (entry s) w (p2w s).
Definition set_p2w (w : option p2wState) (s : session) : session :=
  mkSession (key s) (entry s) (w2p s) w.

(** Replace the session stored at [id]. *)
Definition put_session (id : nat) (s : session) (st : state) : state :=
  set_heap (<[id := s]> (heap st)) st.

(** What the conn package and the logger contribute. *)
Record Env : Type := mkEnv {
  ParseFlagsForError : Z -> option error;
  ParsePktinfoCmsg : bytes -> error + (Addr * Z);
  debugEnabled : bool;          (* [logger.Check(zap.DebugLevel, _) != nil] *)
}.

(** Modelled from the spec: [conn.AddrPortMappedEqual] is not part of
    server.go; the specification compares the two endpoints with
    IPv4-mapped IPv6 addresses normalised to IPv4. *)
Definition AddrPortMappedEqual (l r : AddrPort) : bool :=
  bool_decide (port l = port r) && bool_decide (Unmap (ip l) = Unmap (ip r)).

Definition is_deadline (e : error) : bool := bool_decide (e = ErrDeadlineExceeded).

Definition debug (env : Env) (msg : string) : list event :=
  if debugEnabled env then [EvLog Debug msg] else [].

Definition u64 (x : Z) : Z := x mod 2 ^ 64.

(** [b[lo:hi]] on a slice whose capacity is its length. *)
Definition slice (b : bytes) (lo hi : Z) : option bytes :=
  if (0 <=? lo) && (lo <=? hi) && (hi <=? Z.of_nat (length b))
  then Some (take (Z.to_nat (hi - lo)) (drop (Z.to_nat lo) b))
  else None.

(** [b[i]]. *)
Definition index (b : bytes) (i : Z) : option Z :=
  if 0 <=? i then b !! Z.to_nat i else None.

(** [getPacketBuf] and [putPacketBuf].  Pool buffers have
    [maxProxyPacketSizev4] bytes, at least 1252 for an accepted MTU, so the
    [&packetBuf[0]] of [putPacketBuf] is in range. *)
Definition getPacketBuf (st : state) : state := emit [EvGetBuf] st.
Definition putPacketBuf (b : bytes) (st : state) : state := emit [EvPutBuf b] st.

(** Buffers taken from the pool and not yet put back. *)
Fixpoint outstanding (tr : list event) : Z :=
  match tr with
  | [] => 0
  | EvGetBuf :: r => outstanding r + 1
  | EvPutBuf _ :: r => outstanding r - 1
  | _ :: r => outstanding r
  end.

(** *** The ingress loop, [recvFromProxyConnGeneric] *)

(** What [ReadMsgUDPAddrPort] on the proxy socket returned: the packet
    buffer after the read, n, [cmsgBuf[:cmsgn]], flags, the client, err. *)
Record proxyRead : Type := mkProxyRead {
  rBuf : bytes;
  rN : Z;
  rCmsg : bytes;
  rFlags : Z;
  rAddr : AddrPort;
  rErr : option error;
  rListenErr : option error;   (* [conn.ListenUDP] for a new session *)
  rNow : Z;                    (* [time.Now()] *)
}.

Inductive iterOutcome : Type :=
| ItBreak | ItReadErr | ItFlagsErr | ItDecryptErr | ItListenErr
| ItDeadlineErr | ItPktinfoErr | ItEnqueued | ItDropped | ItPanic.

Definition panic_ingress (st : state) : state * iterOutcome :=
  (set_ingress IngressPanicked st, ItPanic).

Inductive lookup : Type :=
| Found (id : nat)
| Created (id : nat) (wgTunnelMTU : Z)
| NoEntry (o : iterOutcome).

(** Lines 217-261: look the client up; create and insert the entry of a
    client not seen before. *)
Definition lookup_or_create (srv : server) (rd : proxyRead) (packetBuf : bytes)
    (st : state) : state * lookup :=
  match table st !! rAddr rd with
  | Some id => (st, Found id)
  | None =>
    match rListenErr rd with
    | Some _ =>
        (putPacketBuf packetBuf
           (emit [EvLog Warn "Failed to create UDP socket for new session"] st),
         NoEntry ItListenErr)
    | None =>
      let id := fresh (dom (heap st)) in
      let st := emit [EvWgListen id] st in
      let t := rNow rd + RejectAfterTime in
      match SetReadDeadline t openConn with
      | (_, Some _) =>
          (putPacketBuf packetBuf
             (emit [EvLog Warn "Failed to SetReadDeadline on wgConn"] st),
           NoEntry ItDeadlineErr)
      | (c, None) =>
        let st := emit [EvWgSetReadDeadline id t] st in
        match Chan.make (sendChannelCapacity srv) with
        | None => (set_ingress IngressPanicked st, NoEntry ItPanic)
        | Some ch =>
          let addr := ip (rAddr rd) in
          let '(size, mtu) :=
            if Is4 addr || Is4In6 addr
            then (maxProxyPacketSizev4 srv, wgTunnelMTUv4 srv)
            else (maxProxyPacketSizev6 srv, wgTunnelMTUv6 srv) in
          let natEntry := mkEntry None [] c ch size in
          (set_table (<[rAddr rd := id]> (table st))
             (put_session id (mkSession (rAddr rd) natEntry None None) st),
           Created id mtu)
        end
      end
    end
  end.

(** Lines 263-295: refresh the cached pktinfo when the control message
    changed.  [None]: the parse failed and the iteration ends. *)
Definition update_pktinfo (env : Env) (rd : proxyRead) (packetBuf : bytes)
    (id : nat) (s : session) (st : state) : state * option (option ptr) :=
  let cmsg := rCmsg rd in
  if bool_decide (clientPktinfoCache (entry s) = cmsg) then (st, Some None)
  else
    match ParsePktinfoCmsg env cmsg with
    | inl _ =>
        (putPacketBuf packetBuf
           (emit [EvLog Warn "Failed to parse pktinfo control message from proxyConn"] st),
         None)
    | inr _ =>
        let p := mkPtr (nextPtr st) cmsg in
        let s' := with_entry (set_clientPktinfo (Some p) cmsg) s in
        (emit (debug env "Updated client pktinfo")
           (set_nextPtr (S (nextPtr st)) (put_session id s' st)),
         Some (Some p))
    end.

(** Lines 297-324: start the two workers of a new session. *)
Definition start_workers (id : nat) (wgTunnelMTU : Z) (clientPktinfop : option ptr)
    (st : state) : state :=
  match heap st !! id with
  | None => st
  | Some s =>
      let s' := set_p2w (Some (P2WAtRecv 0 0))
                  (set_w2p (Some (W2PStarting clientPktinfop)) s) in
      emit [EvNewSession (key s) wgTunnelMTU]
        (put_session id s' (set_wg (wg st + 2) st))
  end.

Definition parked (s : session) : bool :=
  match p2w s with Some (P2WParked _ _) => true | _ => false end.

(** Lines 326-338: the non-blocking send. *)
Definition enqueue (env : Env) (id : nat) (pkt : queuedPacket) (st : state)
  : state * iterOutcome :=
  match heap st !! id with
  | None => panic_ingress st
  | Some s =>
    match Chan.try_send (parked s) (wgConnSendCh (entry s)) pkt with
    | Chan.Buffered c =>
        (emit [EvSend id pkt] (put_session id (with_entry (set_sendCh c) s) st),
         ItEnqueued)
    | Chan.Handoff =>
        match p2w s with
        | Some (P2WParked a b) =>
            (emit [EvSend id pkt]
               (put_session id (set_p2w (Some (P2WHolding a b pkt)) s) st),
             ItEnqueued)
        | _ => panic_ingress st
        end
    | Chan.WouldBlock =>
        (putPacketBuf (qbuf pkt)
           (emit (debug env "wgPacket dropped due to full send channel") st),
         ItDropped)
    | Chan.SendOnClosed => panic_ingress st
    end
  end.

(** Lines 343-349 and the [s.mwg.Done()] of [Start]'s goroutine. *)
Definition finish_ingress (st : state) : state :=
  set_mwg (mwg st - 1)
    (set_ingress IngressExited
       (emit [EvLog Info "Finished receiving from proxyConn"] st)).

Definition count_received (wgPacketLength : Z) (st : state) : state :=
  match ingress st with
  | IngressRunning n b =>
      set_ingress (IngressRunning (u64 (n + 1)) (u64 (b + u64 wgPacketLength))) st
  | _ => st
  end.

(** Lines 215-340: the critical section of one iteration. *)
Definition critical_section (env : Env) (srv : server) (rd : proxyRead)
    (pkt : queuedPacket) (st : state) : state * iterOutcome :=
  match lookup_or_create srv rd (qbuf pkt) st with
  | (st, NoEntry o) => (st, o)
  | (st, found) =>
    let id := match found with Found i | Created i _ => i | NoEntry _ => 0%nat end in
    match heap st !! id with
    | None => panic_ingress st
    | Some s =>
      match update_pktinfo env rd (qbuf pkt) id s st with
      | (st, None) => (st, ItPktinfoErr)
      | (st, Some clientPktinfop) =>
        let st := match found with
                  | Created _ mtu => start_workers id mtu clientPktinfop st
                  | _ => st
                  end in
        enqueue env id pkt st
      end
    end
  end.

(** One iteration of the [for] loop, lines 166-340.  The part before the
    mutex is taken touches only the pool, the proxy socket and the loop's
    own counters, so the iteration is taken as one step. *)
Definition ingress_iter (env : Env) (srv : server) (rd : proxyRead) (st : state)
  : state * iterOutcome :=
  let st := getPacketBuf st in
  let packetBuf := rBuf rd in
  match rErr rd with
  | Some err =>
      if is_deadline err
      then (finish_ingress (putPacketBuf packetBuf st), ItBreak)
      else (putPacketBuf packetBuf
              (emit [EvLog Warn "Failed to read from proxyConn"] st), ItReadErr)
  | None =>
    match ParseFlagsForError env (rFlags rd) with
    | Some _ =>
        (putPacketBuf packetBuf
           (emit [EvLog Warn "Failed to read from proxyConn"] st), ItFlagsErr)
    | None =>
      match DecryptZeroCopy (handler srv) packetBuf 0 (rN rd) with
      | inl _ =>
          (putPacketBuf packetBuf
             (emit [EvLog Warn "Failed to decrypt swgpPacket"] st), ItDecryptErr)
      | inr (packetBuf, wgPacketStart, wgPacketLength) =>
          critical_section env srv rd
            (mkQueued packetBuf wgPacketStart wgPacketLength)
            (count_received wgPacketLength st)
      end
    end
  end.

(** *** The Proxy→Wg worker, [relayProxyToWgGeneric] *)

(** Lines 359-385 for one dequeued packet on socket [c]: the events, the
    socket afterwards, and [false] when the body panicked. *)
Definition relay_packet (srv : server) (id : nat) (writeErr : option error)
    (now : Z) (p : queuedPacket) (c : udpConn) : list event * udpConn * bool :=
  match slice (qbuf p) (qstart p) (GoInt.add (qstart p) (qlength p)) with
  | None => ([], c, false)
  | Some wgPacket =>
    let written :=
      EvWgWrite id wgPacket (wgAddrPort srv) ::
      match writeErr with
      | Some _ => [EvLog Warn "Failed to write wgPacket to wgConn"]
      | None => []
      end in
    match index wgPacket 0 with
    | None => (written, c, false)
    | Some b =>
      let '(c', refreshed) :=
        if (b =? WireGuardMessageTypeHandshakeInitiation)
           || (b =? WireGuardMessageTypeHandshakeResponse)
        then
          let t := now + RejectAfterTime in
          let '(c', err) := SetReadDeadline t c in
          (c', match err with
               | Some _ => [EvLog Warn "Failed to SetReadDeadline on wgConn"]
               | None => [EvWgSetReadDeadline id t]
               end)
        else (c, []) in
      (written ++ refreshed ++ [EvPutBuf (qbuf p)], c', true)
    end
  end.

(** The receive at the head of [for queuedPacket := range wgConnSendCh]. *)
Definition p2w_recv (id : nat) (st : state) : option state :=
  match heap st !! id with
  | Some s =>
    match p2w s with
    | Some (P2WAtRecv a b) =>
      match Chan.recv (wgConnSendCh (entry s)) with
      | Chan.Received c p =>
          Some (put_session id
                  (set_p2w (Some (P2WHolding a b p)) (with_entry (set_sendCh c) s)) st)
      | Chan.Drained => Some (put_session id (set_p2w (Some P2WLoopDone) s) st)
      | Chan.Park => Some (put_session id (set_p2w (Some (P2WParked a b)) s) st)
      end
    | _ => None
    end
  | None => None
  end.

(** The loop body on the packet received. *)
Definition p2w_process (srv : server) (id : nat) (writeErr : option error)
    (now : Z) (st : state) : option state :=
  match heap st !! id with
  | Some s =>
    match p2w s with
    | Some (P2WHolding a b p) =>
      let '(evs, c, ok) := relay_packet srv id writeErr now p (wgConn (entry s)) in
      let next := if ok then P2WAtRecv (u64 (a + 1)) (u64 (b + u64 (qlength p)))
                  else P2WPanicked in
      Some (emit evs
              (put_session id (set_p2w (Some next) (with_entry (set_wgConn c) s)) st))
    | _ => None
    end
  | None => None
  end.

(** Lines 390-397, then [natEntry.wgConn.Close()] and [s.wg.Done()]. *)
Definition p2w_finish (id : nat) (st : state) : option state :=
  match heap st !! id with
  | Some s =>
    match p2w s with
    | Some P2WLoopDone =>
      let '(c, _) := Close (wgConn (entry s)) in
      Some (set_wg (wg st - 1)
              (emit [EvLog Info "Finished relay proxyConn -> wgConn"; EvWgClose id]
                 (put_session id
                    (set_p2w (Some P2WExited) (with_entry (set_wgConn c) s)) st)))
    | _ => None
    end
  | None => None
  end.

(** *** The Wg→Proxy worker, [relayWgToProxyGeneric] *)

(** What [ReadMsgUDPAddrPort] on the session's socket returned, and the
    result of the write to the proxy socket that may follow. *)
Record wgRead : Type := mkWgRead {
  wData : bytes;               (* the datagram received *)
  wN : Z;
  wFlags : Z;
  wSrc : AddrPort;
  wErr : option error;
  wWriteErr : option error;
}.

(** The read stores the datagram in [b[lo:hi]]. *)
Definition read_into (b : bytes) (lo hi : Z) (data : bytes) : bytes :=
  let d := take (Z.to_nat (hi - lo)) data in
  take (Z.to_nat lo) b ++ d ++ drop (Z.to_nat lo + length d) b.

(** Lines 401-415: the locals and the scratch buffer. *)
Definition w2p_start (srv : server) (id : nat) (st : state) : option state :=
  match heap st !! id with
  | Some s =>
    match w2p s with
    | Some (W2PStarting clientPktinfop) =>
      let clientPktinfo :=
        match clientPktinfop with Some p => pbytes p | None => [] end in
      let size := maxProxyPacketSize (entry s) in
      let frontOverhead := FrontOverhead (handler srv) in
      let rearOverhead := RearOverhead (handler srv) in
      let next :=
        if size <? 0 then W2PPanicked       (* make([]byte, size) *)
        else
          let packetBuf := replicate (Z.to_nat size) 0 in
          match slice packetBuf frontOverhead (GoInt.sub size rearOverhead) with
          | None => W2PPanicked
          | Some _ => W2PLoop (mkW2P clientPktinfo clientPktinfop packetBuf 0 0)
          end in
      Some (put_session id (set_w2p (Some next) s) st)
    | _ => None
    end
  | None => None
  end.

(** Lines 473-476: follow the pointer the ingress loop published. *)
Definition load_pktinfo (e : serverNatEntry) (l : w2pLocal)
  : option (bytes * option ptr) :=
  let cpp := clientPktinfo e in
  if ptr_eqb cpp (lClientPktinfop l) then Some (lClientPktinfo l, lClientPktinfop l)
  else match cpp with
       | Some p => Some (pbytes p, cpp)
       | None => None                       (* [*cpp] on a nil pointer *)
       end.

(** One iteration of the loop at lines 417-491. *)
Definition w2p_iter (env : Env) (srv : server) (id : nat) (rd : wgRead)
    (st : state) : option state :=
  match heap st !! id with
  | Some s =>
    match w2p s with
    | Some (W2PLoop l) =>
      let frontOverhead := FrontOverhead (handler srv) in
      let rearOverhead := RearOverhead (handler srv) in
      let size := maxProxyPacketSize (entry s) in
      let packetBuf :=
        read_into (lPacketBuf l) frontOverhead (GoInt.sub size rearOverhead) (wData rd) in
      let l1 := mkW2P (lClientPktinfo l) (lClientPktinfop l) packetBuf
                      (lPacketsSent l) (lWgBytesSent l) in
      let continue evs l' :=
        Some (emit evs (put_session id (set_w2p (Some (W2PLoop l')) s) st)) in
      let crash evs :=
        Some (emit evs (put_session id (set_w2p (Some W2PPanicked) s) st)) in
      match wErr rd with
      | Some err =>
          if is_deadline err
          then Some (emit [EvLog Info "Finished relay wgConn -> proxyConn"]
                       (put_session id (set_w2p (Some W2PLoopDone) s) st))
          else continue [EvLog Warn "Failed to read from wgConn"] l1
      | None =>
        match ParseFlagsForError env (wFlags rd) with
        | Some _ => continue [EvLog Warn "Failed to read from wgConn"] l1
        | None =>
          if negb (AddrPortMappedEqual (wSrc rd) (wgAddrPort srv))
          then continue [EvLog Warn "Ignoring packet from non-wg address"] l1
          else
            let n := wN rd in
            match EncryptZeroCopy (handler srv) packetBuf frontOverhead n with
            | inl _ =>
                continue [EvEncrypt id frontOverhead n;
                          EvLog Warn "Failed to encrypt WireGuard packet"] l1
            | inr (packetBuf, swgpPacketStart, swgpPacketLength) =>
              match slice packetBuf swgpPacketStart
                          (GoInt.add swgpPacketStart swgpPacketLength) with
              | None => crash [EvEncrypt id frontOverhead n]
              | Some swgpPacket =>
                match load_pktinfo (entry s) l with
                | None => crash [EvEncrypt id frontOverhead n]
                | Some (clientPktinfo, clientPktinfop) =>
                    continue
                      ([EvEncrypt id frontOverhead n;
                        EvProxyWrite swgpPacket clientPktinfo (key s)] ++
                       match wWriteErr rd with
                       | Some _ => [EvLog Warn "Failed to write swgpPacket to proxyConn"]
                       | None => []
                       end)
                      (mkW2P clientPktinfo clientPktinfop packetBuf
                             (u64 (lPacketsSent l + 1))
                             (u64 (lWgBytesSent l + u64 n)))
                end
              end
            end
        end
      end
    | _ => None
    end
  | None => None
  end.

(** Lines 303-308: under the mutex close the send channel and delete the
    client from the table; then [s.wg.Done()].  A receiver parked on the
    channel sees it closed and leaves its loop. *)
Definition w2p_teardown (id : nat) (st : state) : option state :=
  match heap st !! id with
  | Some s =>
    match w2p s with
    | Some W2PLoopDone =>
      match Chan.close (wgConnSendCh (entry s)) with
      | None => Some (put_session id (set_w2p (Some W2PPanicked) s) st)
      | Some c =>
        let woken := if parked s then Some P2WLoopDone else p2w s in
        let s' := set_p2w woken
                    (set_w2p (Some W2PExited) (with_entry (set_sendCh c) s)) in
        Some (set_wg (wg st - 1)
                (set_table (delete (key s) (table st)) (put_session id s' st)))
      end
    | _ => None
    end
  | None => None
  end.

(** *** Start and Stop *)

(** Lines 134-155; the argument is the error of [conn.ListenUDP], which
    leaves [s.proxyConn] nil when it fails. *)
Definition Start (listenErr : option error) (st : state) : state * option error :=
  match listenErr with
  | Some err => (set_proxyConn None st, Some err)
  | None =>
      (emit [EvLog Info "Started service"]
         (set_ingress (IngressRunning 0 0)
            (set_mwg (mwg st + 1) (set_proxyConn (Some openConn) st))),
       None)
  end.

Inductive stopNext : Type :=
| StopReturn (err : option error)   (* Stop returned *)
| StopContinue.                     (* Stop goes on to [s.mwg.Wait()] *)

(** Lines 515-523. *)
Definition Stop_begin (now : Z) (st : state) : state * stopNext :=
  match proxyConn st with
  | None => (st, StopReturn None)
  | Some c =>
    match SetReadDeadline now c with
    | (c', Some err) => (set_proxyConn (Some c') st, StopReturn (Some err))
    | (c', None) =>
        (emit [EvProxySetReadDeadline now] (set_proxyConn (Some c') st), StopContinue)
    end
  end.

(** The body of the loop at lines 530-540 for one table entry. *)
Definition stop_entry (now : Z) (st : state) (kv : AddrPort * nat) : state :=
  match heap st !! kv.2 with
  | None => st
  | Some s =>
    match SetReadDeadline now (wgConn (entry s)) with
    | (c, Some _) =>
        emit [EvLog Warn "Failed to SetReadDeadline on wgConn"]
          (put_session kv.2 (with_entry (set_wgConn c) s) st)
    | (c, None) =>
        emit [EvWgSetReadDeadline kv.2 now]
          (put_session kv.2 (with_entry (set_wgConn c) s) st)
    end
  end.

(** Lines 529-541, run once [s.mwg.Wait()] has returned. *)
Definition Stop_deadlines (now : Z) (st : state) : state :=
  foldl (stop_entry now) st (map_to_list (table st)).

(** Line 547, run once [s.wg.Wait()] has returned.  [Close] on a nil
    [*net.UDPConn] returns an error. *)
Definition Stop_close (st : state) : state * option error :=
  match proxyConn st with
  | None => (st, Some (ErrOther "invalid argument"))
  | Some c =>
    match Close c with
    | (c', Some err) => (set_proxyConn (Some c') st, Some err)
    | (c', None) => (emit [EvProxyClose] (set_proxyConn (Some c') st), None)
    end
  end.

(** *** The server as a transition system

    Each action is one step of one goroutine, with what the outside
    answered.  An action that its goroutine cannot take (it is not there,
    or it is blocked) yields [None]. *)
Inductive action : Type :=
| AStart (listenErr : option error)
| AIngress (rd : proxyRead)
| AP2WRecv (id : nat)
| AP2WProcess (id : nat) (writeErr : option error) (now : Z)
| AP2WFinish (id : nat)
| AW2PStart (id : nat)
| AW2PIter (id : nat) (rd : wgRead)
| AW2PTeardown (id : nat)
| AStopBegin (now : Z)
| AStopDeadlines
| AStopClose.

Definition exec (env : Env) (srv : server) (a : action) (st : state)
  : option state :=
  match a with
  | AStart e =>
      match ingress st with
      | IngressNotStarted => Some (Start e st).1
      | _ => None
      end
  | AIngress rd =>
      match ingress st with
      | IngressRunning _ _ => Some (ingress_iter env srv rd st).1
      | _ => None
      end
  | AP2WRecv id => p2w_recv id st
  | AP2WProcess id e now => p2w_process srv id e now st
  | AP2WFinish id => p2w_finish id st
  | AW2PStart id => w2p_start srv id st
  | AW2PIter id rd => w2p_iter env srv id rd st
  | AW2PTeardown id => w2p_teardown id st
  | AStopBegin now =>
      match stopping st with
      | StopIdle =>
          match Stop_begin now st with
          | (st', StopReturn _) => Some st'
          | (st', StopContinue) => Some (set_stopping (StopWaitIngress now) st')
          end
      | _ => None
      end
  | AStopDeadlines =>
      match stopping st with
      | StopWaitIngress now =>
          if mwg st =? 0
          then Some (set_stopping StopWaitWorkers (Stop_deadlines now st))
          else None
      | _ => None
      end
  | AStopClose =>
      match stopping st with
      | StopWaitWorkers =>
          if wg st =? 0 then Some (set_stopping StopIdle (Stop_close st).1) else None
      | _ => None
      end
  end.

Fixpoint run (env : Env) (srv : server) (acts : list action) (st : state)
  : option state :=
  match acts with
  | [] => Some st
  | a :: rest =>
      match exec env srv a st with
      | Some st' => run env srv rest st'
      | None => None
      end
  end.

Definition reachable (env : Env) (srv : server) (st : state) : Prop :=
  exists acts, run env srv acts init = Some st.

End Relay.

Export Relay.

(** * Vocabulary of the statements *)

(** The functions [Server] calls do not report [ErrMTUTooSmall] themselves. *)
Definition mtu_error_is_local (env : Collaborators) : Prop :=
  (forall p, CheckAndApplyDefaults env p <> inl ErrMTUTooSmall)
  /\ (forall m k, getPacketHandlerForProxyMode env m k <> inl ErrMTUTooSmall)
  /\ (forall e, ResolveAddrPort env e <> inl ErrMTUTooSmall).

(** A handler whose overheads are byte counts. *)
Definition overheads_ok (h : Handler) : Prop :=
  0 <= FrontOverhead h /\ 0 <= RearOverhead h
  /\ FrontOverhead h + RearOverhead h <= GoInt.maxInt.

(** A queued packet whose plaintext lies inside its buffer; a Go slice is
    never longer than [maxInt]. *)
Definition in_bounds (p : queuedPacket) : Prop :=
  0 <= qstart p /\ 0 <= qlength p
  /\ qstart p + qlength p <= Z.of_nat (length (qbuf p))
  /\ Z.of_nat (length (qbuf p)) <= GoInt.maxInt.

(** The bytes the worker writes for a packet. *)
Definition plaintext (p : queuedPacket) : bytes :=
  take (Z.to_nat (qlength p)) (drop (Z.to_nat (qstart p)) (qbuf p)).

(** First byte 1 or 2: handshake initiation or response. *)
Definition is_handshake (b : Z) : bool :=
  (b =? WireGuardMessageTypeHandshakeInitiation)
  || (b =? WireGuardMessageTypeHandshakeResponse).

(** The warning logged when a write to the upstream socket fails. *)
Definition write_warning (writeErr : option error) : list event :=
  match writeErr with
  | Some _ => [EvLog Warn "Failed to write wgPacket to wgConn"]
  | None => []
  end.

(** The scratch buffer of the Wg→Proxy worker after a read of [rd]. *)
Definition after_read (srv : server) (s : session) (rd : wgRead) (l : w2pLocal)
  : w2pLocal :=
  mkW2P (lClientPktinfo l) (lClientPktinfop l)
        (read_into (lPacketBuf l) (FrontOverhead (handler srv))
           (GoInt.sub (maxProxyPacketSize (entry s)) (RearOverhead (handler srv)))
           (wData rd))
        (lPacketsSent l) (lWgBytesSent l).

Definition is_proxy_output (e : event) : bool :=
  match e with
  | EvProxyWrite _ _ _ | EvEncrypt _ _ _ => true
  | _ => false
  end.

(** A call of [Stop] returns in the step [a] from [st] to [st1]: either
    from its first lines, or after the final [Close]. *)
Definition stop_returns (env : Env) (srv : server) (a : action) (st st1 : state)
  : Prop :=
  exec env srv a st = Some st1
  /\ match a with
     | AStopBegin now => exists r, (Stop_begin now st).2 = StopReturn r
     | AStopClose => True
     | _ => False
     end.

(** Stop as a no-op the second time: once a call has returned, another call
    returns no error and changes nothing. *)
Definition Stop_idempotent (env : Env) (srv : server) : Prop :=
  forall a st st1, stop_returns env srv a st st1 ->
  forall now, Stop_begin now st1 = (st1, StopReturn None).

(** A started server stopped once: Start, Stop sets the deadline, the
    ingress loop sees it and exits, Stop runs to its end. *)
Definition exStopRun : list action :=
  [AStart None; AStopBegin 5; AIngress
     (mkProxyRead (replicate 1472 0) 0 [] 0 (mkAddrPort (mkAddr 0 0 z0) 0)
        (Some ErrDeadlineExceeded) None 6);
   AStopDeadlines].

(** ** Concrete values used in examples *)

(** Modelled from the spec: the passthrough handler is not part of
    server.go; the specification gives it no overhead and makes encrypt and
    decrypt accept the packet as it is. *)
Definition passthrough : Handler :=
  mkHandler 0 0 (fun b s l => inr (b, s, l)) (fun b s l => inr (b, s, l)).

Definition exWgAddr : AddrPort := mkAddrPort (AddrFrom4 127 0 0 1) 51820.
Definition exClient : AddrPort := mkAddrPort (AddrFrom4 192 0 2 1) 51820.

Definition exCollaborators : Collaborators :=
  mkCollaborators (fun p => inr p) (fun _ _ => inr passthrough)
                  (fun _ => inr exWgAddr).

Definition exConfig (mtu : Z) : ServerConfig :=
  mkServerConfig "ex" "[::]:20220" "zero-overhead" [] 0 "127.0.0.1:51820" 0 mtu
                 (mkPerfConfig "" 0 0 2).

Definition exServer : server :=
  mkServer "ex" "[::]:20220" 0 0 0 0 2 1472 1452 1440 1408 exWgAddr passthrough.

(** A conn package whose pktinfo parser rejects control messages shorter
    than a header, and whose flags never signal an error. *)
Definition exEnv : Env :=
  mkEnv (fun _ => None)
        (fun c => if (length c <? 16)%nat
                  then inl (ErrOther "control message too short")
                  else inr (AddrFrom4 192 0 2 254, 1))
        true.

(** A buffer of the pool holding the four-byte packet [p0 p1 p2 p3]. *)
Definition exBuf (p0 : Z) : bytes := [p0; 0; 0; 0] ++ replicate 1468 0.

Definition exRead (cmsg : bytes) : proxyRead :=
  mkProxyRead (exBuf 1) 4 cmsg 0 exClient None None 1000.

Definition exDeadlineRead : proxyRead :=
  mkProxyRead (exBuf 0) 0 [] 0 exClient (Some ErrDeadlineExceeded) None 2000.

(** A session in steady state: both workers in their loops, the Proxy→Wg
    worker parked on the empty queue. *)
Definition exLocals : w2pLocal := mkW2P [] None (replicate 1472 0) 0 0.

Definition exSession : session :=
  mkSession exClient (mkEntry None [] openConn (Chan.mk [] 2 false) 1472)
            (Some (W2PLoop exLocals)) (Some (P2WParked 0 0)).

Definition exLive : state :=
  mkState {[exClient := 0%nat]} {[0%nat := exSession]} 0%nat (Some openConn)
          (IngressRunning 1 4) 1 2 StopIdle [].

(** A datagram that reaches the session's socket from another port. *)
Definition exForeignRead : wgRead :=
  mkWgRead [4; 0; 0; 0] 4 0 (mkAddrPort (AddrFrom4 127 0 0 1) 9) None None.

(** Both workers of a session have been started and they have not both
    exited. *)
Definition workers_live (s : session) : Prop :=
  (exists w, w2p s = Some w) /\ (exists w, p2w s = Some w)
  /\ ~ (w2p s = Some W2PExited /\ p2w s = Some P2WExited).

(** Every entry of the table has its workers. *)
Definition table_workers_live (st : state) : Prop :=
  forall k id, table st !! k = Some id ->
  exists s, heap st !! id = Some s /\ workers_live s.

(** A table entry without workers. *)
Definition orphan (k : AddrPort) (st : state) : Prop :=
  exists id s, table st !! k = Some id /\ heap st !! id = Some s
               /\ w2p s = None /\ p2w s = None.

(** The first datagram of a new client, decryptable, whose control message
    is the single byte 1. *)
Definition exBadCmsgRun : list action := [AStart None; AIngress (exRead [1])].

(** The packet size the client address selects: the v4 size for an IPv4 or
    IPv4-mapped IPv6 address, the v6 size otherwise. *)
Definition size_for (srv : server) (k : AddrPort) : Z :=
  if Is4 (ip k) || Is4In6 (ip k)
  then maxProxyPacketSizev4 srv else maxProxyPacketSizev6 srv.

(** What a step from [st] to [st'] may do to entries: an entry that exists
    stays, with its client and its packet size; an entry that appears has
    the size its client selects; a table slot either was there or points
    to an entry that appeared, created for that client. *)
Definition entries_kept (st st' : state) : Prop :=
  forall id s, heap st !! id = Some s ->
  exists s', heap st' !! id = Some s' /\ key s' = key s
             /\ maxProxyPacketSize (entry s') = maxProxyPacketSize (entry s).

Definition entries_sized (srv : server) (st st' : state) : Prop :=
  forall id s', heap st' !! id = Some s' -> heap st !! id = None ->
  maxProxyPacketSize (entry s') = size_for srv (key s').

Definition table_grows (st st' : state) : Prop :=
  forall k id, table st' !! k = Some id ->
  table st !! k = Some id
  \/ (heap st !! id = None /\ exists s', heap st' !! id = Some s' /\ key s' = k).

Definition step_ok (srv : server) (st st' : state) : Prop :=
  entries_kept st st' /\ entries_sized srv st st' /\ table_grows st st'.

(** Every entry has the size its client selects, and a table slot points to
    an entry created for that client. *)
Definition sizes_by_family (srv : server) (st : state) : Prop :=
  (forall id s, heap st !! id = Some s ->
     maxProxyPacketSize (entry s) = size_for srv (key s))
  /\ (forall k id, table st !! k = Some id ->
        exists s, heap st !! id = Some s /\ key s = k).

(** The packets sent on the queue of entry [id], and the plaintexts written
    to its upstream socket, in the order of the trace. *)
Definition send_of (id : nat) (e : event) : list queuedPacket :=
  match e with
  | EvSend i p => if Nat.eqb i id then [p] else []
  | _ => []
  end.
Definition write_of (id : nat) (e : event) : list bytes :=
  match e with
  | EvWgWrite i pkt _ => if Nat.eqb i id then [pkt] else []
  | _ => []
  end.
Definition sends (id : nat) (tr : list event) : list queuedPacket :=
  flat_map (send_of id) tr.
Definition written (id : nat) (tr : list event) : list bytes :=
  flat_map (write_of id) tr.

(** The buffers given back to the pool. *)
Definition released (tr : list event) : list bytes :=
  flat_map (fun e => match e with EvPutBuf b => [b] | _ => [] end) tr.

(** The bytes [buf[start : start+length]] denotes when it is in range. *)
Definition wire (p : queuedPacket) : bytes :=
  take (Z.to_nat (GoInt.add (qstart p) (qlength p) - qstart p))
       (drop (Z.to_nat (qstart p)) (qbuf p)).

(** The queue of a session against its history: what was sent is what was
    written followed by what the worker holds and what is buffered; a worker
    that left its loop leaves a closed, empty queue behind. *)
Definition queue_inv (w : option p2wState) (ch : Chan.chan queuedPacket)
    (snt : list queuedPacket) (wr : list bytes) : Prop :=
  match w with
  | Some P2WPanicked => True
  | Some P2WLoopDone | Some P2WExited =>
      map wire snt = wr /\ Chan.buf ch = [] /\ Chan.closed ch = true
  | Some (P2WParked _ _) => map wire snt = wr /\ Chan.buf ch = []
  | Some (P2WHolding _ _ p) => map wire snt = wr ++ map wire (p :: Chan.buf ch)
  | Some (P2WAtRecv _ _) | None => map wire snt = wr ++ map wire (Chan.buf ch)
  end.

Definition queues_ok (st : state) : Prop :=
  forall id,
    match heap st !! id with
    | Some s => queue_inv (p2w s) (wgConnSendCh (entry s))
                          (sends id (trace st)) (written id (trace st))
    | None => sends id (trace st) = [] /\ written id (trace st) = []
    end.

(** Events that are neither a send nor an upstream write of entry [id]. *)
Definition quiet_for (id : nat) (evs : list event) : Prop :=
  sends id evs = [] /\ written id evs = [].

(** What the worker does for one packet of the queue. *)
Definition packet_events (srv : server) (id : nat) (p : queuedPacket)
    (o : option error * Z) : list event :=
  (relay_packet srv id o.1 o.2 p openConn).1.1.



(** ** Vocabulary of the system invariants *)

(** A goroutine that was started and has not returned counts once in the
    wait group. *)
Definition w2p_live (w : option w2pState) : Z :=
  match w with None | Some W2PExited => 0 | Some _ => 1 end.
Definition p2w_live (w : option p2wState) : Z :=
  match w with None | Some P2WExited => 0 | Some _ => 1 end.
Definition live (s : session) : Z := w2p_live (w2p s) + p2w_live (p2w s).

Definition running_workers (h : gmap nat session) : Z :=
  map_fold (fun _ s acc => live s + acc) 0 h.

(** Both workers were started, or neither. *)
Definition paired (s : session) : Prop :=
  (w2p s = None /\ p2w s = None) \/ (is_Some (w2p s) /\ is_Some (p2w s)).

(** The bytes behind a [*[]byte], nil giving the nil slice. *)
Definition deref (p : option ptr) : bytes :=
  match p with Some q => pbytes q | None => [] end.

(** The pointer [lp] a worker holds was published for the entry no later
    than the pointer [cpp] the entry holds now. *)
Definition published_before (cpp lp : option ptr) : Prop :=
  match lp with
  | None => True
  | Some q => exists p, cpp = Some p /\ (paddr q <= paddr p)%nat
                        /\ (paddr q = paddr p -> q = p)
  end.

Definition locals_ok (cpp : option ptr) (w : option w2pState) : Prop :=
  match w with
  | Some (W2PStarting lp) => published_before cpp lp
  | Some (W2PLoop l) =>
      published_before cpp (lClientPktinfop l)
      /\ lClientPktinfo l = deref (lClientPktinfop l)
  | _ => True
  end.

(** What holds of every allocated session, [n] being the next pointer to
    allocate: the upstream socket is closed only once the Proxy→Wg worker
    has exited; the published pktinfo pointer is an allocated one; the
    Wg→Proxy worker's pointer is one published earlier, and its bytes are
    the bytes behind its pointer; the send queue holds no more packets
    than its capacity. *)
Definition queue_bounded (s : session) : Prop :=
  Z.of_nat (length (Chan.buf (wgConnSendCh (entry s))))
  <= Z.max 0 (Chan.cap (wgConnSendCh (entry s))).

Definition sess_ok (n : nat) (s : session) : Prop :=
  (connClosed (wgConn (entry s)) = true -> p2w s = Some P2WExited)
  /\ (forall p, clientPktinfo (entry s) = Some p -> (paddr p < n)%nat)
  /\ locals_ok (clientPktinfo (entry s)) (w2p s)
  /\ paired s
  /\ queue_bounded s.

Definition heap_ok (st : state) : Prop :=
  forall id s, heap st !! id = Some s -> sess_ok (nextPtr st) s.

(** A table slot points to a session created for that client, whose send
    channel is open and whose Wg→Proxy worker has not finished. *)
Definition table_ok (st : state) : Prop :=
  forall k id, table st !! k = Some id ->
  exists s, heap st !! id = Some s /\ key s = k
            /\ Chan.closed (wgConnSendCh (entry s)) = false
            /\ w2p s <> Some W2PExited.

Definition wg_ok (st : state) : Prop := wg st = running_workers (heap st).

(** A session whose Wg→Proxy goroutine is running is in the table, under
    the address of its client. *)
Definition slots_ok (st : state) : Prop :=
  forall id s, heap st !! id = Some s -> w2p_live (w2p s) = 1 ->
  table st !! key s = Some id.

Definition system_ok (st : state) : Prop :=
  table_ok st /\ wg_ok st /\ heap_ok st /\ slots_ok st.

(** How a step may rewrite one session; [T] says that the session is in
    the table. *)
Definition sess_step (n n' : nat) (T : Prop) (s s' : session) (dwg : Z) : Prop :=
  key s' = key s
  /\ Chan.closed (wgConnSendCh (entry s')) = Chan.closed (wgConnSendCh (entry s))
  /\ (w2p s' = Some W2PExited -> w2p s = Some W2PExited)
  /\ live s' = live s + dwg
  /\ (sess_ok n s -> sess_ok n' s')
  /\ (w2p_live (w2p s') = 1 -> w2p_live (w2p s) = 1 \/ T).

(** The packets of a session that were sent and not yet written: the one
    the worker holds, then the buffered ones. *)
Definition pending (s : session) : list queuedPacket :=
  match p2w s with
  | Some (P2WHolding _ _ p) => p :: Chan.buf (wgConnSendCh (entry s))
  | _ => Chan.buf (wgConnSendCh (entry s))
  end.

(** A worker that was never started or has returned. *)
Definition w2p_gone (w : option w2pState) : Prop := w = None \/ w = Some W2PExited.
Definition p2w_gone (w : option p2wState) : Prop := w = None \/ w = Some P2WExited.

(** The server after Start and one datagram of [exClient] with control
    message [cmsg]. *)
Definition exAfterFirst (cmsg : bytes) : state :=
  (ingress_iter exEnv exServer (exRead cmsg) (Start None init).1).1.

(** Start, the first datagram of [exClient], and the worker's first receive. *)
Definition exHoldingRun : list action :=
  [AStart None; AIngress (exRead []); AP2WRecv 0%nat].

(** Start, a first datagram with a parsable control message, the start of
    the Wg→Proxy worker, and a second datagram with another control message. *)
Definition exCmsgA : bytes := replicate 16 1.
Definition exCmsgB : bytes := replicate 16 2.
Definition exPktinfoRun : list action :=
  [AStart None; AIngress (exRead exCmsgA); AW2PStart 0%nat; AIngress (exRead exCmsgB)].

(** A datagram from the WireGuard endpoint. *)
Definition exWgRead : wgRead := mkWgRead [2; 0; 0; 0] 4 0 exWgAddr None None.

(** A session after [SetReadDeadline(now)] on its upstream socket. *)
Definition stopped (now : Z) (s : session) : session :=
  with_entry (set_wgConn (SetReadDeadline now (wgConn (entry s))).1) s.

(** The fields of the state other than the heap and the trace. *)
Definition same_control (st st' : state) : Prop :=
  table st' = table st /\ nextPtr st' = nextPtr st /\ proxyConn st' = proxyConn st
  /\ ingress st' = ingress st /\ mwg st' = mwg st /\ wg st' = wg st
  /\ stopping st' = stopping st.

(** A step that concerns the client [k] only: the other table slots are as
    before, a slot of [k] that was filled stays as it is, and a session
    changes only if it is the one the table gives for [k] afterwards.  Of
    the control state only the ingress loop's panic flag may change. *)
Definition touches (k : AddrPort) (st st' : state) : Prop :=
  (forall k', k' <> k -> table st' !! k' = table st !! k')
  /\ (forall j, table st !! k = Some j -> table st' !! k = Some j)
  /\ (forall i, table st' !! k <> Some i -> heap st' !! i = heap st !! i)
  /\ proxyConn st' = proxyConn st /\ stopping st' = stopping st
  /\ mwg st' = mwg st
  /\ (ingress st' = ingress st \/ ingress st' = IngressPanicked).

(** The ingress goroutine counts in [mwg] from Start until it returns; the
    proxy socket exists once Start has succeeded; Stop is past its first
    lines only on a server with a proxy socket. *)
Definition control_ok (st : state) : Prop :=
  mwg st = match ingress st with
           | IngressRunning _ _ | IngressPanicked => 1
           | _ => 0
           end
  /\ (proxyConn st <> None -> ingress st <> IngressNotStarted)
  /\ (stopping st <> StopIdle -> proxyConn st <> None).

(** The session a worker's step belongs to. *)
Definition worker_of (a : action) : option nat :=
  match a with
  | AP2WRecv id | AP2WProcess id _ _ | AP2WFinish id
  | AW2PStart id | AW2PIter id _ | AW2PTeardown id => Some id
  | _ => None
  end.

(** The session's socket reports its read deadline. *)
Definition exWgDeadline : wgRead :=
  mkWgRead [] 0 0 (mkAddrPort (mkAddr 0 0 z0) 0) (Some ErrDeadlineExceeded) None.

(** Start, a first datagram, the Wg→Proxy worker starts and then sees the
    read deadline. *)
Definition exTeardownRun : list action :=
  [AStart None; AIngress (exRead []); AW2PStart 0%nat; AW2PIter 0%nat exWgDeadline].

(** A second client. *)
Definition exClient2 : AddrPort := mkAddrPort (AddrFrom4 192 0 2 2) 40000.
Definition exRead2 : proxyRead :=
  mkProxyRead (exBuf 4) 4 [] 0 exClient2 None None 1500.

(** Start, Stop sets the proxy deadline, the ingress loop sees it. *)
Definition exIngressGoneRun : list action :=
  [AStart None; AIngress (exRead []); AStopBegin 5; AIngress exDeadlineRead].

(** What the ingress loop keeps of a session it finds in the table: the
    client, the socket and its deadline, the packet size, the channel's
    capacity and openness, and the workers, except that a parked Proxy→Wg
    worker may be handed the packet. *)
Definition kept (s s' : session) : Prop :=
  key s' = key s
  /\ wgConn (entry s') = wgConn (entry s)
  /\ maxProxyPacketSize (entry s') = maxProxyPacketSize (entry s)
  /\ Chan.closed (wgConnSendCh (entry s')) = Chan.closed (wgConnSendCh (entry s))
  /\ Chan.cap (wgConnSendCh (entry s')) = Chan.cap (wgConnSendCh (entry s))
  /\ w2p s' = w2p s
  /\ (p2w s' = p2w s
      \/ exists a b p, p2w s = Some (P2WParked a b)
                       /\ p2w s' = Some (P2WHolding a b p)).

(** A step that rewrites at most the session [id], keeping it in the sense
    above, and leaves the table and the wait group alone. *)
Definition keeps (id : nat) (st st' : state) : Prop :=
  table st' = table st /\ wg st' = wg st
  /\ (forall i, i <> id -> heap st' !! i = heap st !! i)
  /\ (forall s, heap st !! id = Some s ->
      exists s', heap st' !! id = Some s' /\ kept s s').

(** The writes to the proxy socket among some events. *)
Definition proxy_writes (evs : list event) : list (bytes * bytes * AddrPort) :=
  flat_map (fun e => match e with
                     | EvProxyWrite pkt info dst => [(pkt, info, dst)]
                     | _ => []
                     end) evs.

(** The second datagram of [exClient], after the first one left an orphan. *)
Definition exOrphaned : state := exAfterFirst [1].

(** While a call of [Stop] is past its first lines, the proxy socket is
    there and open. *)
Definition stop_conn_ok (st : state) : Prop :=
  stopping st <> StopIdle ->
  exists c, proxyConn st = Some c /\ connClosed c = false.

(** Start, a first datagram, Stop sets the proxy deadline, the ingress loop
    sees it, Stop sets the sessions' deadlines; both workers run to their
    end. *)
Definition exFullStopRun : list action :=
  [AStart None; AIngress (exRead []); AStopBegin 2000; AIngress exDeadlineRead;
   AStopDeadlines; AW2PStart 0%nat; AW2PIter 0%nat exWgDeadline;
   AW2PTeardown 0%nat; AP2WRecv 0%nat; AP2WProcess 0%nat None 2000;
   AP2WRecv 0%nat; AP2WFinish 0%nat].

(** * Properties *)

(** ** Arithmetic on Go integers *)

Lemma wrap_id x : GoInt.in_range x -> GoInt.wrap x = x.
Proof.
  unfold GoInt.in_range, GoInt.minInt, GoInt.maxInt, GoInt.wrap. intros H.
  rewrite Z.mod_small; lia.
Qed.

Lemma add_exact x y : GoInt.in_range (x + y) -> GoInt.add x y = x + y.
Proof. apply wrap_id. Qed.

Lemma sub_exact x y : GoInt.in_range (x - y) -> GoInt.sub x y = x - y.
Proof. apply wrap_id. Qed.

(** ** Server construction *)

Lemma Server_accepted env sc tr s :
  Server env sc = (tr, inr s) ->
  minimumMTU <= MTU sc
  /\ exists perf wgAddr,
       getPacketHandlerForProxyMode env (ProxyMode sc) (ProxyPSK sc) = inr (handler s)
       /\ CheckAndApplyDefaults env (Perf sc) = inr perf
       /\ ResolveAddrPort env (WgEndpoint sc) = inr wgAddr
       /\ maxProxyPacketSizev4 s =
            GoInt.sub (GoInt.sub (MTU sc) IPv4HeaderLength) UDPHeaderLength
       /\ maxProxyPacketSizev6 s =
            GoInt.sub (GoInt.sub (MTU sc) IPv6HeaderLength) UDPHeaderLength
       /\ wgTunnelMTUv4 s =
            GoInt.and
              (GoInt.sub (GoInt.sub (maxProxyPacketSizev4 s)
                            (GoInt.add (FrontOverhead (handler s)) (RearOverhead (handler s))))
                         WireGuardDataPacketOverhead)
              WireGuardDataPacketLengthMask
       /\ wgTunnelMTUv6 s =
            GoInt.and
              (GoInt.sub (GoInt.sub (maxProxyPacketSizev6 s)
                            (GoInt.add (FrontOverhead (handler s)) (RearOverhead (handler s))))
                         WireGuardDataPacketOverhead)
              WireGuardDataPacketLengthMask.
Proof.
  unfold Server. intros H.
  destruct (MTU sc <? minimumMTU) eqn:Hm; [discriminate|].
  apply Z.ltb_ge in Hm. split; [exact Hm|].
  destruct (CheckAndApplyDefaults env (Perf sc)) as [?|perf]; [discriminate|].
  destruct (getPacketHandlerForProxyMode env (ProxyMode sc) (ProxyPSK sc)) as [?|h];
    [discriminate|].
  destruct (ResolveAddrPort env (WgEndpoint sc)) as [?|a]; [discriminate|].
  injection H as _ <-. exists perf, a. simpl. repeat split; reflexivity.
Qed.

(** C5. For every accepted configuration the packet sizes are
    MTU − 20 − 8 (IPv4) and MTU − 40 − 8 (IPv6), and each advertised tunnel
    MTU is (max_proxy_packet_size − (front_overhead + rear_overhead) − 32)
    with its low four bits cleared, computed separately for v4 and v6. *)
Theorem Server_derived_sizes env sc tr s :
  GoInt.in_range (MTU sc) ->
  Server env sc = (tr, inr s) ->
  overheads_ok (handler s) ->
  maxProxyPacketSizev4 s = MTU sc - 20 - 8
  /\ maxProxyPacketSizev6 s = MTU sc - 40 - 8
  /\ wgTunnelMTUv4 s =
       Z.land (maxProxyPacketSizev4 s
               - (FrontOverhead (handler s) + RearOverhead (handler s)) - 32)
              (Z.lnot 15)
  /\ wgTunnelMTUv6 s =
       Z.land (maxProxyPacketSizev6 s
               - (FrontOverhead (handler s) + RearOverhead (handler s)) - 32)
              (Z.lnot 15).
Proof.
  intros Hr Hs (Hf & Hb & Hsum).
  apply Server_accepted in Hs as (Hm & perf & a & _ & _ & _ & H4 & H6 & M4 & M6).
  unfold GoInt.in_range, GoInt.minInt, GoInt.maxInt, minimumMTU in *.
  assert (E4 : maxProxyPacketSizev4 s = MTU sc - 20 - 8).
  { rewrite H4. unfold IPv4HeaderLength, UDPHeaderLength.
    rewrite (sub_exact (MTU sc)), sub_exact;
      unfold GoInt.in_range, GoInt.minInt, GoInt.maxInt; lia. }
  assert (E6 : maxProxyPacketSizev6 s = MTU sc - 40 - 8).
  { rewrite H6. unfold IPv6HeaderLength, UDPHeaderLength.
    rewrite (sub_exact (MTU sc)), sub_exact;
      unfold GoInt.in_range, GoInt.minInt, GoInt.maxInt; lia. }
  split; [exact E4|]. split; [exact E6|].
  rewrite M4 at 1. rewrite M6 at 1.
  unfold GoInt.and, WireGuardDataPacketOverhead, WireGuardDataPacketLengthMask.
  rewrite add_exact by (unfold GoInt.in_range, GoInt.minInt, GoInt.maxInt; lia).
  rewrite !sub_exact
    by (rewrite ?sub_exact;
        unfold GoInt.in_range, GoInt.minInt, GoInt.maxInt; lia).
  split; reflexivity.
Qed.

(** C6. Construction fails with [ErrMTUTooSmall] exactly when the MTU is
    below 1280, and then before any other validation has run; 1280 passes
    the check and 1279 is rejected. *)
Theorem Server_mtu_too_small env sc :
  mtu_error_is_local env ->
  ((Server env sc).2 = inl ErrMTUTooSmall <-> MTU sc < 1280)
  /\ (MTU sc < 1280 -> (Server env sc).1 = [])
  /\ (MTU sc = 1279 -> Server env sc = ([], inl ErrMTUTooSmall))
  /\ (MTU sc = 1280 ->
      (Server env sc).2 <> inl ErrMTUTooSmall
      /\ exists rest, (Server env sc).1 = CallCheckAndApplyDefaults :: rest).
Proof.
  intros (Hc & Hh & Hr).
  assert (Hlow : MTU sc < 1280 -> Server env sc = ([], inl ErrMTUTooSmall)).
  { intros H. unfold Server, minimumMTU.
    destruct (MTU sc <? 1280) eqn:E; [reflexivity|]. apply Z.ltb_ge in E. lia. }
  assert (Hhigh : 1280 <= MTU sc ->
                  (Server env sc).2 <> inl ErrMTUTooSmall
                  /\ exists rest, (Server env sc).1 = CallCheckAndApplyDefaults :: rest).
  { intros H. unfold Server, minimumMTU.
    destruct (MTU sc <? 1280) eqn:E; [apply Z.ltb_lt in E; lia|].
    specialize (Hc (Perf sc)).
    specialize (Hh (ProxyMode sc) (ProxyPSK sc)).
    specialize (Hr (WgEndpoint sc)).
    destruct (CheckAndApplyDefaults env (Perf sc)) as [e1|perf]; simpl.
    { split; [congruence | eauto]. }
    destruct (getPacketHandlerForProxyMode env (ProxyMode sc) (ProxyPSK sc)) as [e2|h];
      simpl.
    { split; [congruence | eauto]. }
    destruct (ResolveAddrPort env (WgEndpoint sc)) as [e3|a]; simpl.
    { split; [congruence | eauto]. }
    split; [discriminate | eauto]. }
  repeat split.
  - intros H. destruct (Z.lt_ge_cases (MTU sc) 1280) as [|Hge]; [assumption|].
    destruct (Hhigh Hge) as [Hne _]. contradiction.
  - intros H. rewrite (Hlow H). reflexivity.
  - intros H. rewrite (Hlow H). reflexivity.
  - intros H. apply Hlow. lia.
  - apply Hhigh. lia.
  - apply Hhigh. lia.
Qed.

(** ** The Proxy→Wg worker on one packet *)

Lemma slice_in_bounds p :
  in_bounds p ->
  slice (qbuf p) (qstart p) (GoInt.add (qstart p) (qlength p)) = Some (plaintext p).
Proof.
  intros (Hs & Hl & Hle & Hmax).
  rewrite add_exact
    by (unfold GoInt.in_range, GoInt.minInt, GoInt.maxInt in *; lia).
  unfold slice, plaintext.
  replace (qstart p + qlength p - qstart p) with (qlength p) by lia.
  destruct (0 <=? qstart p) eqn:E1; [|apply Z.leb_gt in E1; lia].
  destruct (qstart p <=? qstart p + qlength p) eqn:E2; [|apply Z.leb_gt in E2; lia].
  destruct (qstart p + qlength p <=? Z.of_nat (length (qbuf p))) eqn:E3;
    [|apply Z.leb_gt in E3; lia].
  reflexivity.
Qed.

Lemma plaintext_length p :
  in_bounds p -> Z.of_nat (length (plaintext p)) = qlength p.
Proof.
  intros (Hs & Hl & Hle & _). unfold plaintext.
  rewrite length_take, length_drop. lia.
Qed.

Lemma plaintext_first p :
  in_bounds p -> 1 <= qlength p ->
  exists b, index (plaintext p) 0 = Some b
            /\ qbuf p !! Z.to_nat (qstart p) = Some b.
Proof.
  intros Hb Hlen. pose proof (plaintext_length p Hb) as Hpl.
  destruct Hb as (Hs & Hl & Hle & _).
  unfold index. simpl. change (Z.to_nat 0) with 0%nat.
  destruct (plaintext p !! 0%nat) as [b|] eqn:E.
  - exists b. split; [reflexivity|].
    unfold plaintext in E. rewrite lookup_take_lt in E by lia.
    rewrite lookup_drop in E. rewrite Nat.add_0_r in E. exact E.
  - apply lookup_ge_None in E. lia.
Qed.

Lemma is_handshake_spec b : is_handshake b = true <-> b = 1 \/ b = 2.
Proof.
  unfold is_handshake, WireGuardMessageTypeHandshakeInitiation,
    WireGuardMessageTypeHandshakeResponse.
  rewrite orb_true_iff, !Z.eqb_eq. reflexivity.
Qed.

(** The loop body on a packet of at least one byte, socket open. *)
Lemma relay_packet_eq srv id writeErr now p c b :
  in_bounds p -> 1 <= qlength p -> connClosed c = false ->
  qbuf p !! Z.to_nat (qstart p) = Some b ->
  relay_packet srv id writeErr now p c =
    ((EvWgWrite id (plaintext p) (wgAddrPort srv) :: write_warning writeErr)
       ++ (if is_handshake b
           then [EvWgSetReadDeadline id (now + RejectAfterTime)] else [])
       ++ [EvPutBuf (qbuf p)],
     if is_handshake b then mkConn false (Some (now + RejectAfterTime)) else c,
     true).
Proof.
  intros Hb Hlen Hopen Hfirst.
  unfold relay_packet. rewrite (slice_in_bounds p Hb).
  destruct (plaintext_first p Hb Hlen) as (b' & Hidx & Hb').
  rewrite Hidx. assert (b' = b) as -> by congruence.
  fold (is_handshake b). fold (write_warning writeErr).
  destruct (is_handshake b); [|reflexivity].
  unfold SetReadDeadline. rewrite Hopen. reflexivity.
Qed.

(** The loop body on an empty plaintext: the write is made, then the read
    of the first byte is out of range. *)
Lemma relay_packet_empty srv id writeErr now p c :
  in_bounds p -> qlength p = 0 ->
  relay_packet srv id writeErr now p c =
    (EvWgWrite id [] (wgAddrPort srv) :: write_warning writeErr, c, false).
Proof.
  intros Hb Hlen. unfold relay_packet. rewrite (slice_in_bounds p Hb).
  unfold plaintext. rewrite Hlen. simpl. reflexivity.
Qed.

(** C4. For a dequeued packet of at least one byte, the worker writes it to
    the upstream socket, then sets the read deadline to now + RejectAfterTime
    if and only if the first byte is 1 or 2 (first byte 3 or 4 leaves the
    deadline as it was), and in every case releases the buffer. *)
Theorem relay_packet_deadline srv id writeErr now p c b :
  in_bounds p -> 1 <= qlength p -> connClosed c = false ->
  qbuf p !! Z.to_nat (qstart p) = Some b ->
  exists refresh : bool,
    (refresh = true <-> b = 1 \/ b = 2)
    /\ (b = 3 \/ b = 4 -> refresh = false)
    /\ relay_packet srv id writeErr now p c =
         ((EvWgWrite id (plaintext p) (wgAddrPort srv) :: write_warning writeErr)
            ++ (if refresh
                then [EvWgSetReadDeadline id (now + RejectAfterTime)] else [])
            ++ [EvPutBuf (qbuf p)],
          if refresh then mkConn false (Some (now + RejectAfterTime)) else c,
          true).
Proof.
  intros Hb Hlen Hopen Hfirst. exists (is_handshake b).
  split; [apply is_handshake_spec|]. split.
  - intros [-> | ->]; reflexivity.
  - apply relay_packet_eq; assumption.
Qed.

(** C10. The worker reads [wgPacket[0]] without a length check.  When every
    queued packet has 0 ≤ start, start + length ≤ len(buf) and length ≥ 1,
    the slice expression and the first-byte read are in bounds and the body
    does not panic; for a plaintext of length 0 the slice is in bounds but
    the first-byte read is out of range, and the body panics after the
    write attempt. *)
Theorem relay_packet_bounds srv id writeErr now c :
  (forall p, in_bounds p -> 1 <= qlength p ->
     slice (qbuf p) (qstart p) (GoInt.add (qstart p) (qlength p)) = Some (plaintext p)
     /\ (exists b, index (plaintext p) 0 = Some b)
     /\ (relay_packet srv id writeErr now p c).2 = true)
  /\ (forall p, in_bounds p -> qlength p = 0 ->
     slice (qbuf p) (qstart p) (GoInt.add (qstart p) (qlength p)) = Some []
     /\ index (plaintext p) 0 = None
     /\ relay_packet srv id writeErr now p c =
          (EvWgWrite id [] (wgAddrPort srv) :: write_warning writeErr, c, false)).
Proof.
  split.
  - intros p Hb Hlen. split; [apply slice_in_bounds; assumption|].
    destruct (plaintext_first p Hb Hlen) as (b & Hidx & _).
    split; [eauto|].
    unfold relay_packet. rewrite (slice_in_bounds p Hb), Hidx.
    destruct (_ || _); [destruct (SetReadDeadline _ _)|]; reflexivity.
  - intros p Hb Hlen.
    assert (Hp : plaintext p = []) by (unfold plaintext; rewrite Hlen; reflexivity).
    split; [rewrite slice_in_bounds, Hp by assumption; reflexivity|].
    split; [rewrite Hp; reflexivity|].
    apply relay_packet_empty; assumption.
Qed.

(** ** Pool accounting along the ingress loop *)

Lemma outstanding_app l1 l2 :
  outstanding (l1 ++ l2) = outstanding l1 + outstanding l2.
Proof.
  induction l1 as [|e l1 IH]; simpl; [lia|].
  destruct e; rewrite ?IH; lia.
Qed.

Lemma outstanding_debug env msg : outstanding (debug env msg) = 0.
Proof. unfold debug. destruct (debugEnabled env); reflexivity. Qed.

Ltac pool_crush :=
  repeat (case_match; simplify_eq/=);
  rewrite ?outstanding_app, ?outstanding_debug; simpl; try lia.

Lemma lookup_or_create_pool srv rd b st st' r :
  lookup_or_create srv rd b st = (st', r) ->
  outstanding (trace st') =
    outstanding (trace st)
    + match r with NoEntry (ItPanic | ItEnqueued) => 0 | NoEntry _ => -1 | _ => 0 end.
Proof.
  unfold lookup_or_create, putPacketBuf, SetReadDeadline, openConn. intros H.
  pool_crush.
Qed.

Lemma update_pktinfo_pool env rd b id s st st' r :
  update_pktinfo env rd b id s st = (st', r) ->
  outstanding (trace st') =
    outstanding (trace st) + match r with None => -1 | Some _ => 0 end.
Proof.
  unfold update_pktinfo, putPacketBuf. intros H. pool_crush.
Qed.

Lemma start_workers_trace id mtu p st :
  outstanding (trace (start_workers id mtu p st)) = outstanding (trace st).
Proof. unfold start_workers. pool_crush. Qed.

Lemma enqueue_pool env id pkt st st' o :
  enqueue env id pkt st = (st', o) ->
  outstanding (trace st') =
    outstanding (trace st) + match o with ItEnqueued | ItPanic => 0 | _ => -1 end.
Proof.
  unfold enqueue, panic_ingress, putPacketBuf. intros H. pool_crush.
Qed.

Lemma critical_section_pool env srv rd pkt st st' o :
  critical_section env srv rd pkt st = (st', o) ->
  outstanding (trace st') =
    outstanding (trace st)
    + match o with ItEnqueued | ItPanic => 0 | _ => -1 end.
Proof.
  unfold critical_section. intros H.
  destruct (lookup_or_create srv rd (qbuf pkt) st) as [st1 r] eqn:E1.
  apply lookup_or_create_pool in E1.
  destruct r as [i|i mtu|o1]; [| |simplify_eq; destruct o; lia].
  - destruct (heap st1 !! i) as [s|]; [|unfold panic_ingress in H; simplify_eq/=; lia].
    destruct (update_pktinfo env rd (qbuf pkt) i s st1) as [st2 [q|]] eqn:E2;
      apply update_pktinfo_pool in E2; [|simplify_eq; lia].
    apply enqueue_pool in H. destruct o; lia.
  - destruct (heap st1 !! i) as [s|]; [|unfold panic_ingress in H; simplify_eq/=; lia].
    destruct (update_pktinfo env rd (qbuf pkt) i s st1) as [st2 [q|]] eqn:E2;
      apply update_pktinfo_pool in E2; [|simplify_eq; lia].
    apply enqueue_pool in H. rewrite start_workers_trace in H. destruct o; lia.
Qed.

(** Every iteration takes one buffer; it has given it back when it ends,
    unless the buffer went into a send queue (or the loop panicked). *)
Lemma ingress_iter_pool env srv rd st st' o :
  ingress_iter env srv rd st = (st', o) ->
  outstanding (trace st') =
    outstanding (trace st)
    + match o with ItEnqueued | ItPanic => 1 | _ => 0 end.
Proof.
  unfold ingress_iter, finish_ingress, putPacketBuf, getPacketBuf. intros H.
  destruct (rErr rd) as [e|].
  { destruct (is_deadline e); simplify_eq/=; rewrite !outstanding_app; simpl; lia. }
  destruct (ParseFlagsForError env (rFlags rd)).
  { simplify_eq/=; rewrite !outstanding_app; simpl; lia. }
  destruct (DecryptZeroCopy (handler srv) (rBuf rd) 0 (rN rd)) as [?|[[b s0] l0]].
  { simplify_eq/=; rewrite !outstanding_app; simpl; lia. }
  apply critical_section_pool in H.
  assert (E : outstanding (trace (count_received l0 (emit [EvGetBuf] st)))
              = outstanding (trace st) + 1).
  { unfold count_received. simpl.
    destruct (ingress st); simpl; rewrite outstanding_app; simpl; lia. }
  rewrite E in H. destruct o; lia.
Qed.

Lemma exServer_built :
  Server exCollaborators (exConfig 1500) =
    ([CallCheckAndApplyDefaults; CallGetPacketHandler; CallResolveAddrPort;
      CallSetRelayFunc], inr exServer).
Proof. reflexivity. Qed.

Lemma Server_derived_sizes_witness :
  maxProxyPacketSizev4 exServer = 1500 - 20 - 8
  /\ maxProxyPacketSizev6 exServer = 1500 - 40 - 8
  /\ wgTunnelMTUv4 exServer = Z.land (1472 - (0 + 0) - 32) (Z.lnot 15)
  /\ wgTunnelMTUv6 exServer = Z.land (1452 - (0 + 0) - 32) (Z.lnot 15).
Proof.
  apply (Server_derived_sizes exCollaborators (exConfig 1500)
           [CallCheckAndApplyDefaults; CallGetPacketHandler; CallResolveAddrPort;
            CallSetRelayFunc] exServer).
  - unfold GoInt.in_range, GoInt.minInt, GoInt.maxInt. simpl. lia.
  - reflexivity.
  - unfold overheads_ok, GoInt.maxInt. simpl. lia.
Defined.

Lemma exCollaborators_local : mtu_error_is_local exCollaborators.
Proof. repeat split; intros; discriminate. Qed.

Lemma Server_mtu_too_small_witness :
  Server exCollaborators (exConfig 1279) = ([], inl ErrMTUTooSmall).
Proof.
  apply (Server_mtu_too_small exCollaborators (exConfig 1279)).
  - repeat split; intros; discriminate.
  - reflexivity.
Defined.

(** ** The send queue when it is full *)

(** C3. When the send queue of the packet's session is full at the
    non-blocking send, the send returns at once with the packet dropped: the
    queue keeps the packets it had, the table and every session are as
    before, the only effects are the drop log and the return of the buffer
    to the pool; an iteration that ends this way leaves the pool balanced. *)
Theorem enqueue_full_drops env id pkt st s :
  heap st !! id = Some s ->
  Chan.full (parked s) (wgConnSendCh (entry s)) = true ->
  exists st',
    enqueue env id pkt st = (st', ItDropped)
    /\ table st' = table st /\ heap st' = heap st
    /\ nextPtr st' = nextPtr st /\ proxyConn st' = proxyConn st
    /\ ingress st' = ingress st /\ mwg st' = mwg st /\ wg st' = wg st
    /\ stopping st' = stopping st
    /\ trace st' =
         trace st ++ debug env "wgPacket dropped due to full send channel"
                  ++ [EvPutBuf (qbuf pkt)]
    /\ outstanding (trace st') = outstanding (trace st) - 1
    /\ (forall srv rd st0 st1,
          ingress_iter env srv rd st0 = (st1, ItDropped) ->
          outstanding (trace st1) = outstanding (trace st0)).
Proof.
  intros Hs Hfull. unfold Chan.full in Hfull.
  apply andb_true_iff in Hfull as [Hfull Hcap].
  apply andb_true_iff in Hfull as [Hopen Hpark].
  apply negb_true_iff in Hopen, Hpark, Hcap.
  eexists. split.
  { unfold enqueue, Chan.try_send. rewrite Hs, Hopen, Hpark, Hcap. reflexivity. }
  simpl. repeat split.
  - rewrite <- app_assoc. reflexivity.
  - rewrite !outstanding_app, outstanding_debug. simpl. lia.
  - intros srv rd st0 st1 H. apply ingress_iter_pool in H. lia.
Qed.

Lemma enqueue_full_drops_witness :
  exists st',
    enqueue exEnv 0%nat (mkQueued (exBuf 4) 0 4)
      (put_session 0%nat
         (mkSession exClient
            (mkEntry None [] openConn (Chan.mk [mkQueued (exBuf 1) 0 4] 1 false) 1472)
            (Some (W2PStarting None)) (Some (P2WHolding 0 0 (mkQueued (exBuf 2) 0 4))))
         init) = (st', ItDropped)
    /\ heap st' !! 0%nat =
         Some (mkSession exClient
            (mkEntry None [] openConn (Chan.mk [mkQueued (exBuf 1) 0 4] 1 false) 1472)
            (Some (W2PStarting None)) (Some (P2WHolding 0 0 (mkQueued (exBuf 2) 0 4))))
    /\ outstanding (trace st') = -1.
Proof.
  destruct (enqueue_full_drops exEnv 0%nat (mkQueued (exBuf 4) 0 4)
              (put_session 0%nat
                 (mkSession exClient
                    (mkEntry None [] openConn
                       (Chan.mk [mkQueued (exBuf 1) 0 4] 1 false) 1472)
                    (Some (W2PStarting None))
                    (Some (P2WHolding 0 0 (mkQueued (exBuf 2) 0 4))))
                 init)
              (mkSession exClient
                 (mkEntry None [] openConn
                    (Chan.mk [mkQueued (exBuf 1) 0 4] 1 false) 1472)
                 (Some (W2PStarting None))
                 (Some (P2WHolding 0 0 (mkQueued (exBuf 2) 0 4)))))
    as (st' & He & _ & Hh & _ & _ & _ & _ & _ & _ & _ & Ho & _).
  - apply lookup_insert_eq.
  - reflexivity.
  - exists st'. split; [exact He|]. split; [|exact Ho].
    rewrite Hh. apply lookup_insert_eq.
Defined.

Lemma exPacket_in_bounds b len :
  0 <= len <= 4 -> in_bounds (mkQueued (exBuf b) 0 len).
Proof.
  intros H. unfold in_bounds, GoInt.maxInt, exBuf, qbuf, qstart, qlength.
  rewrite length_app, length_replicate. simpl length. lia.
Qed.

Lemma relay_packet_deadline_witness :
  exists refresh : bool,
    (refresh = true <-> 2 = 1 \/ 2 = 2)
    /\ (2 = 3 \/ 2 = 4 -> refresh = false)
    /\ relay_packet exServer 0%nat None 7 (mkQueued (exBuf 2) 0 4) openConn =
         ((EvWgWrite 0%nat (plaintext (mkQueued (exBuf 2) 0 4)) exWgAddr
             :: write_warning None)
            ++ (if refresh
                then [EvWgSetReadDeadline 0%nat (7 + RejectAfterTime)] else [])
            ++ [EvPutBuf (exBuf 2)],
          if refresh then mkConn false (Some (7 + RejectAfterTime)) else openConn,
          true).
Proof.
  apply (relay_packet_deadline exServer 0%nat None 7 (mkQueued (exBuf 2) 0 4)
           openConn 2).
  - apply exPacket_in_bounds. lia.
  - simpl. lia.
  - reflexivity.
  - reflexivity.
Defined.

Lemma relay_packet_bounds_witness :
  (relay_packet exServer 0%nat None 7 (mkQueued (exBuf 4) 0 4) openConn).2 = true
  /\ relay_packet exServer 0%nat None 7 (mkQueued (exBuf 4) 0 0) openConn =
       ([EvWgWrite 0%nat [] exWgAddr], openConn, false).
Proof.
  destruct (relay_packet_bounds exServer 0%nat None 7 openConn) as [Hok Hbad].
  split.
  - apply (Hok (mkQueued (exBuf 4) 0 4)); [apply exPacket_in_bounds|simpl]; lia.
  - apply (Hbad (mkQueued (exBuf 4) 0 0)); [apply exPacket_in_bounds; lia|reflexivity].
Defined.

(** ** The Wg→Proxy worker on a datagram from elsewhere *)

(** C8. A datagram read without error whose source is not the configured
    WireGuard endpoint (IPv4-mapped addresses normalised) is logged and
    discarded: nothing is encrypted, nothing is written to the proxy socket,
    the table and every session entry are unchanged, the worker's locals
    other than the scratch buffer the read filled are unchanged, and the
    worker stays in its loop. *)
Theorem w2p_iter_foreign_source env srv id rd st s l :
  heap st !! id = Some s ->
  w2p s = Some (W2PLoop l) ->
  wErr rd = None ->
  ParseFlagsForError env (wFlags rd) = None ->
  AddrPortMappedEqual (wSrc rd) (wgAddrPort srv) = false ->
  exists st',
    w2p_iter env srv id rd st = Some st'
    /\ trace st' = trace st ++ [EvLog Warn "Ignoring packet from non-wg address"]
    /\ (forall e, e ∈ drop (length (trace st)) (trace st') -> is_proxy_output e = false)
    /\ table st' = table st
    /\ (forall i, i <> id -> heap st' !! i = heap st !! i)
    /\ heap st' !! id =
         Some (mkSession (key s) (entry s) (Some (W2PLoop (after_read srv s rd l))) (p2w s))
    /\ lClientPktinfo (after_read srv s rd l) = lClientPktinfo l
    /\ lClientPktinfop (after_read srv s rd l) = lClientPktinfop l
    /\ lPacketsSent (after_read srv s rd l) = lPacketsSent l
    /\ lWgBytesSent (after_read srv s rd l) = lWgBytesSent l
    /\ proxyConn st' = proxyConn st /\ wg st' = wg st /\ mwg st' = mwg st
    /\ ingress st' = ingress st /\ nextPtr st' = nextPtr st
    /\ stopping st' = stopping st.
Proof.
  intros Hs Hw He Hf Hsrc.
  eexists. split.
  { unfold w2p_iter. rewrite Hs, Hw, He, Hf, Hsrc. simpl. reflexivity. }
  simpl. repeat split; try reflexivity.
  - intros e. rewrite drop_app_length. intros Hin.
    apply list_elem_of_singleton in Hin. subst e. reflexivity.
  - intros i Hi. apply lookup_insert_ne. congruence.
  - rewrite lookup_insert_eq. reflexivity.
Qed.

Lemma w2p_iter_foreign_source_witness :
  exists st',
    w2p_iter exEnv exServer 0%nat exForeignRead exLive = Some st'
    /\ trace st' = [EvLog Warn "Ignoring packet from non-wg address"]
    /\ table st' = table exLive
    /\ heap st' !! 0%nat =
         Some (mkSession exClient (entry exSession)
                 (Some (W2PLoop (after_read exServer exSession exForeignRead exLocals)))
                 (Some (P2WParked 0 0))).
Proof.
  destruct (w2p_iter_foreign_source exEnv exServer 0%nat exForeignRead exLive
              exSession exLocals)
    as (st' & Hrun & Htr & _ & Htab & _ & Hheap & _).
  - reflexivity.
  - reflexivity.
  - reflexivity.
  - reflexivity.
  - reflexivity.
  - exists st'. repeat split; assumption.
Defined.

(** ** Stop *)

Lemma set_proxyConn_same st c : proxyConn st = c -> set_proxyConn c st = st.
Proof. destruct st. simpl. intros ->. reflexivity. Qed.

Lemma Stop_begin_closed now st c :
  proxyConn st = Some c -> connClosed c = true ->
  Stop_begin now st = (st, StopReturn (Some ErrClosed)).
Proof.
  intros Hc Hcl. unfold Stop_begin, SetReadDeadline. rewrite Hc, Hcl.
  rewrite set_proxyConn_same by assumption. reflexivity.
Qed.

Lemma Stop_begin_nil now st :
  proxyConn st = None -> Stop_begin now st = (st, StopReturn None).
Proof. intros Hc. unfold Stop_begin. rewrite Hc. reflexivity. Qed.

(** When a call of [Stop] returns, the proxy socket is nil or closed. *)
Lemma stop_returns_conn env srv a st st1 :
  stop_returns env srv a st st1 ->
  match proxyConn st1 with
  | None => True
  | Some c => connClosed c = true
  end.
Proof.
  intros [Hex Ha]. destruct a; try contradiction; simpl in Hex.
  - destruct Ha as [r Hr]. destruct (stopping st); try discriminate.
    unfold Stop_begin, SetReadDeadline in *.
    destruct (proxyConn st) as [c|] eqn:Hc.
    + destruct (connClosed c) eqn:Hcl; simpl in *; [|discriminate].
      simplify_eq/=. exact Hcl.
    + simplify_eq/=. rewrite Hc. exact I.
  - destruct (stopping st); try discriminate.
    destruct (wg st =? 0); [|discriminate]. simplify_eq/=.
    unfold Stop_close, Close.
    destruct (proxyConn st) as [c|] eqn:Hc; simpl; [|rewrite Hc; exact I].
    destruct (connClosed c) eqn:Hcl; simpl; [exact Hcl | reflexivity].
Qed.

Lemma stop_returns_idle env srv a st st1 :
  stop_returns env srv a st st1 -> stopping st1 = StopIdle.
Proof.
  intros [Hex Ha]. destruct a; try contradiction; simpl in Hex.
  - destruct Ha as [r Hr]. destruct (stopping st) eqn:Hi; try discriminate.
    unfold Stop_begin in *.
    destruct (proxyConn st) as [c|]; [|simplify_eq; exact Hi].
    destruct (SetReadDeadline now c) as [c' [e|]]; simpl in *;
      [|discriminate]. simplify_eq. exact Hi.
  - destruct (stopping st); try discriminate.
    destruct (wg st =? 0); [|discriminate]. simplify_eq. reflexivity.
Qed.

(** C2, as the code has it. Once a call of [Stop] has returned, another call
    returns at once and changes nothing; it returns no error when the proxy
    socket was never opened, and the closed-socket error of
    [SetReadDeadline] when the server had been started. *)
Theorem Stop_again env srv a st st1 now :
  stop_returns env srv a st st1 ->
  Stop_begin now st1 =
    (st1, StopReturn (match proxyConn st1 with
                      | None => None
                      | Some _ => Some ErrClosed
                      end))
  /\ exec env srv (AStopBegin now) st1 = Some st1.
Proof.
  intros H. pose proof (stop_returns_idle _ _ _ _ _ H) as Hidle.
  apply stop_returns_conn in H.
  assert (E : Stop_begin now st1 =
              (st1, StopReturn (match proxyConn st1 with
                                | None => None
                                | Some _ => Some ErrClosed
                                end))).
  { destruct (proxyConn st1) as [c|] eqn:Hc.
    - apply (Stop_begin_closed now st1 c); assumption.
    - apply Stop_begin_nil; assumption. }
  split; [exact E|].
  simpl. rewrite Hidle, E. reflexivity.
Qed.

Lemma exStopRun_state :
  exists stc st1,
    run exEnv exServer exStopRun init = Some stc
    /\ exec exEnv exServer AStopClose stc = Some st1
    /\ proxyConn st1 = Some (mkConn true (Some 5))
    /\ stopping st1 = StopIdle.
Proof.
  do 2 eexists. split; [|split; [|split]]; vm_compute; reflexivity.
Qed.

Lemma Stop_again_witness :
  exists stc st1,
    run exEnv exServer exStopRun init = Some stc
    /\ stop_returns exEnv exServer AStopClose stc st1
    /\ Stop_begin 9 st1 = (st1, StopReturn (Some ErrClosed))
    /\ exec exEnv exServer (AStopBegin 9) st1 = Some st1.
Proof.
  destruct exStopRun_state as (stc & st1 & Hrun & Hex & Hconn & Hidle).
  exists stc, st1.
  destruct (Stop_again exEnv exServer AStopClose stc st1 9) as [Hb He].
  - split; [exact Hex | exact I].
  - rewrite Hconn in Hb.
    split; [exact Hrun|]. split; [split; [exact Hex | exact I]|].
    split; [exact Hb | exact He].
Defined.

(** C2, as stated, fails: on a server that was started and then stopped, the
    second call of [Stop] returns an error. *)
Lemma Stop_twice_not_noop : ~ Stop_idempotent exEnv exServer.
Proof.
  intros Hclaim.
  destruct exStopRun_state as (stc & st1 & Hrun & Hex & Hconn & Hidle).
  assert (Hret : stop_returns exEnv exServer AStopClose stc st1)
    by (split; [exact Hex | exact I]).
  specialize (Hclaim _ _ _ Hret 9).
  rewrite (Stop_begin_closed 9 st1 _ Hconn eq_refl) in Hclaim.
  discriminate.
Qed.

(** ** Table entries and their workers *)

Lemma orphan_not_live k st : orphan k st -> ~ table_workers_live st.
Proof.
  intros (id & s & Ht & Hh & Hw & _) Hlive.
  destruct (Hlive k id Ht) as (s' & Hh' & (w & Hw') & _).
  congruence.
Qed.

(** C1 at the failing input. A new client's first datagram decrypts, the
    entry is inserted, and then the control message fails to parse: the
    iteration ends with the entry in the table, no worker started and the
    wait group untouched, so the table holds an entry without live workers
    after the mutex is released. *)
Theorem pktinfo_failure_leaves_orphan env srv rd st b s0 l0 e :
  rErr rd = None ->
  ParseFlagsForError env (rFlags rd) = None ->
  DecryptZeroCopy (handler srv) (rBuf rd) 0 (rN rd) = inr (b, s0, l0) ->
  table st !! rAddr rd = None ->
  rListenErr rd = None ->
  0 <= sendChannelCapacity srv ->
  rCmsg rd <> [] ->
  ParsePktinfoCmsg env (rCmsg rd) = inl e ->
  (ingress_iter env srv rd st).2 = ItPktinfoErr
  /\ orphan (rAddr rd) (ingress_iter env srv rd st).1
  /\ wg (ingress_iter env srv rd st).1 = wg st
  /\ ~ table_workers_live (ingress_iter env srv rd st).1.
Proof.
  intros Herr Hflags Hdec Hnew Hlisten Hcap Hcmsg Hparse.
  assert (Hc : Chan.make (A := queuedPacket) (sendChannelCapacity srv)
               = Some (Chan.mk [] (sendChannelCapacity srv) false)).
  { unfold Chan.make. destruct (sendChannelCapacity srv <? 0) eqn:E;
      [apply Z.ltb_lt in E; lia | reflexivity]. }
  assert (Hst : exists st',
            ingress_iter env srv rd st = (st', ItPktinfoErr)
            /\ orphan (rAddr rd) st' /\ wg st' = wg st).
  { unfold ingress_iter. rewrite Herr, Hflags, Hdec.
    unfold critical_section, lookup_or_create.
    assert (Ht : table (count_received l0 (getPacketBuf st)) !! rAddr rd = None).
    { unfold count_received, getPacketBuf. simpl. destruct (ingress st); exact Hnew. }
    rewrite Ht, Hlisten. simpl. rewrite Hc.
    destruct (Is4 (ip (rAddr rd)) || Is4In6 (ip (rAddr rd))); simpl;
      rewrite lookup_insert_eq; unfold update_pktinfo; simpl;
      rewrite bool_decide_eq_false_2 by congruence; rewrite Hparse;
      (eexists; split; [reflexivity|]; split;
       [do 2 eexists; simpl; split; [apply lookup_insert_eq|];
        split; [apply lookup_insert_eq|]; split; reflexivity
       |unfold count_received; simpl; destruct (ingress st); reflexivity]). }
  destruct Hst as (st' & Hit & Ho & Hwg). rewrite Hit. simpl.
  split; [reflexivity|]. split; [exact Ho|]. split; [exact Hwg|].
  exact (orphan_not_live _ _ Ho).
Qed.

Lemma pktinfo_failure_leaves_orphan_witness :
  reachable exEnv exServer (Start None init).1
  /\ reachable exEnv exServer
       (ingress_iter exEnv exServer (exRead [1]) (Start None init).1).1
  /\ (ingress_iter exEnv exServer (exRead [1]) (Start None init).1).2 = ItPktinfoErr
  /\ orphan exClient (ingress_iter exEnv exServer (exRead [1]) (Start None init).1).1
  /\ ~ table_workers_live
        (ingress_iter exEnv exServer (exRead [1]) (Start None init).1).1.
Proof.
  split; [exists [AStart None]; reflexivity|].
  split; [exists exBadCmsgRun; reflexivity|].
  destruct (pktinfo_failure_leaves_orphan exEnv exServer (exRead [1])
              (Start None init).1 (exBuf 1) 0 4
              (ErrOther "control message too short"))
    as (Hout & Ho & _ & Hlive).
  - reflexivity.
  - reflexivity.
  - reflexivity.
  - reflexivity.
  - reflexivity.
  - simpl. lia.
  - discriminate.
  - reflexivity.
  - split; [exact Hout|]. split; [exact Ho | exact Hlive].
Defined.

(** ** Entries are created once and keep their packet size *)

Lemma step_ok_refl srv st : step_ok srv st st.
Proof.
  split; [|split].
  - intros id s H. eauto.
  - intros id s H1 H2. congruence.
  - intros k id H. auto.
Qed.

Lemma step_ok_trans srv st1 st2 st3 :
  step_ok srv st1 st2 -> step_ok srv st2 st3 -> step_ok srv st1 st3.
Proof.
  intros (K1 & S1 & T1) (K2 & S2 & T2). split; [|split].
  - intros id s H. destruct (K1 id s H) as (s2 & H2 & Hk & Hm).
    destruct (K2 id s2 H2) as (s3 & H3 & Hk' & Hm').
    exists s3. split; [exact H3|]. split; congruence.
  - intros id s3 H3 Hnone.
    destruct (heap st2 !! id) as [s2|] eqn:E2.
    + destruct (K2 id s2 E2) as (s3' & H3' & Hk & Hm).
      assert (s3' = s3) as -> by congruence.
      rewrite Hm, Hk. apply (S1 id s2 E2 Hnone).
    + apply (S2 id s3 H3 E2).
  - intros k id H3. destruct (T2 k id H3) as [H2 | (Hn & s3 & Hs3 & Hk)].
    + destruct (T1 k id H2) as [H1 | (Hn & s2 & Hs2 & Hk)]; [left; exact H1|].
      right. split; [exact Hn|].
      destruct (K2 id s2 Hs2) as (s3 & Hs3 & Hk3 & _).
      exists s3. split; [exact Hs3 | congruence].
    + right. split; [|eauto].
      destruct (heap st1 !! id) as [s1|] eqn:E1; [|reflexivity].
      destruct (K1 id s1 E1) as (s2 & Hs2 & _). congruence.
Qed.

(** A step that leaves the heap and the table alone. *)
Lemma step_ok_same srv st st' :
  heap st' = heap st -> table st' = table st -> step_ok srv st st'.
Proof.
  intros Hh Ht. split; [|split].
  - intros id s H. rewrite Hh. eauto.
  - intros id s H1 H2. rewrite Hh in H1. congruence.
  - intros k id H. rewrite Ht in H. auto.
Qed.

(** A step that rewrites one existing entry in place, and may delete table
    slots. *)
Lemma step_ok_update srv st st' id s s' :
  heap st !! id = Some s ->
  key s' = key s ->
  maxProxyPacketSize (entry s') = maxProxyPacketSize (entry s) ->
  heap st' = <[id := s']> (heap st) ->
  (forall k i, table st' !! k = Some i -> table st !! k = Some i) ->
  step_ok srv st st'.
Proof.
  intros Hs Hk Hm Hh Ht. split; [|split].
  - intros i si Hi. rewrite Hh. destruct (decide (id = i)) as [->|Hne].
    + rewrite lookup_insert_eq. exists s'. split; [reflexivity|].
      split; congruence.
    + rewrite lookup_insert_ne by exact Hne. eauto.
  - intros i si Hi Hnone. rewrite Hh in Hi.
    destruct (decide (id = i)) as [->|Hne]; [congruence|].
    rewrite lookup_insert_ne in Hi by exact Hne. congruence.
  - intros k i H. left. apply Ht. exact H.
Qed.

Ltac ok_same := apply step_ok_same; reflexivity.
Ltac ok_update s :=
  eapply (step_ok_update _ _ _ _ s);
  [eassumption | | | reflexivity | simpl; auto]; reflexivity.

(** A step that allocates one entry and enters it in the table. *)
Lemma step_ok_create srv st st' id k s :
  heap st !! id = None ->
  key s = k ->
  maxProxyPacketSize (entry s) = size_for srv k ->
  heap st' = <[id := s]> (heap st) ->
  table st' = <[k := id]> (table st) ->
  step_ok srv st st'.
Proof.
  intros Hfresh Hk Hm Hh Ht. split; [|split].
  - intros i si Hi. exists si. split; [|auto].
    rewrite Hh, lookup_insert_ne; [exact Hi | congruence].
  - intros i si Hi Hn. rewrite Hh in Hi.
    destruct (decide (id = i)) as [<-|Hne].
    + rewrite lookup_insert_eq in Hi. simplify_eq. rewrite Hm. reflexivity.
    + rewrite lookup_insert_ne in Hi by exact Hne. congruence.
  - intros k' i Hk'. rewrite Ht in Hk'.
    destruct (decide (k = k')) as [<-|Hne].
    + rewrite lookup_insert_eq in Hk'. simplify_eq. right.
      split; [exact Hfresh|]. exists s. split; [|reflexivity].
      rewrite Hh. apply lookup_insert_eq.
    + rewrite lookup_insert_ne in Hk' by exact Hne. left. exact Hk'.
Qed.

Lemma fresh_id_unused (st : state) : heap st !! fresh (dom (heap st)) = None.
Proof. apply not_elem_of_dom, is_fresh. Qed.

Lemma lookup_or_create_ok srv rd b st st' r :
  lookup_or_create srv rd b st = (st', r) -> step_ok srv st st'.
Proof.
  unfold lookup_or_create, SetReadDeadline, openConn. intros H.
  destruct (table st !! rAddr rd) eqn:Ht; [simplify_eq; apply step_ok_refl|].
  destruct (rListenErr rd); [simplify_eq; ok_same|]. simpl in H.
  destruct (Chan.make (sendChannelCapacity srv)) as [ch|]; [|simplify_eq; ok_same].
  destruct (Is4 (ip (rAddr rd)) || Is4In6 (ip (rAddr rd))) eqn:Hfam;
    simplify_eq/=;
    (eapply step_ok_create;
     [apply fresh_id_unused | | | reflexivity | reflexivity];
     [reflexivity | unfold size_for; simpl; rewrite Hfam; reflexivity]).
Qed.

Lemma update_pktinfo_ok srv env rd b id s st st' r :
  heap st !! id = Some s ->
  update_pktinfo env rd b id s st = (st', r) -> step_ok srv st st'.
Proof.
  unfold update_pktinfo. intros Hs H.
  destruct (bool_decide _); [simplify_eq; apply step_ok_refl|].
  destruct (ParsePktinfoCmsg env (rCmsg rd)); simplify_eq; [ok_same|].
  ok_update s.
Qed.

Lemma start_workers_ok srv id mtu p st : step_ok srv st (start_workers id mtu p st).
Proof.
  unfold start_workers.
  destruct (heap st !! id) as [s|] eqn:Hs; [|apply step_ok_refl].
  ok_update s.
Qed.

Lemma enqueue_ok srv env id pkt st st' o :
  enqueue env id pkt st = (st', o) -> step_ok srv st st'.
Proof.
  unfold enqueue, panic_ingress. intros H.
  destruct (heap st !! id) as [s|] eqn:Hs; [|simplify_eq; ok_same].
  destruct (Chan.try_send _ _ _); simplify_eq; try ok_same; [|ok_update s].
  destruct (p2w s) as [[]|]; simplify_eq; try ok_same. ok_update s.
Qed.

Lemma critical_section_ok env srv rd pkt st st' o :
  critical_section env srv rd pkt st = (st', o) -> step_ok srv st st'.
Proof.
  unfold critical_section. intros H.
  destruct (lookup_or_create srv rd (qbuf pkt) st) as [st1 r] eqn:E1.
  apply lookup_or_create_ok in E1.
  assert (Hrest : forall i f,
            match heap st1 !! i with
            | Some s =>
                match update_pktinfo env rd (qbuf pkt) i s st1 with
                | (st2, Some p) => enqueue env i pkt (f p st2)
                | (st2, None) => (st2, ItPktinfoErr)
                end
            | None => panic_ingress st1
            end = (st', o) ->
            (forall p st2, step_ok srv st2 (f p st2)) ->
            step_ok srv st st').
  { intros i f Hm Hf.
    destruct (heap st1 !! i) as [s|] eqn:Hs;
      [|unfold panic_ingress in Hm; simplify_eq;
        eapply step_ok_trans; [exact E1 | ok_same]].
    destruct (update_pktinfo env rd (qbuf pkt) i s st1) as [st2 [p|]] eqn:E2;
      apply (update_pktinfo_ok srv) in E2; try exact Hs.
    - apply (enqueue_ok srv) in Hm.
      eapply step_ok_trans; [exact E1|].
      eapply step_ok_trans; [exact E2|].
      eapply step_ok_trans; [apply Hf | exact Hm].
    - simplify_eq. eapply step_ok_trans; [exact E1 | exact E2]. }
  destruct r as [i|i mtu|o1]; [| |simplify_eq; exact E1].
  - apply (Hrest i (fun _ st2 => st2)); [exact H|]. intros. apply step_ok_refl.
  - apply (Hrest i (fun p st2 => start_workers i mtu p st2)); [exact H|].
    intros. apply start_workers_ok.
Qed.

Lemma ingress_iter_ok env srv rd st st' o :
  ingress_iter env srv rd st = (st', o) -> step_ok srv st st'.
Proof.
  unfold ingress_iter, finish_ingress, putPacketBuf, getPacketBuf. intros H.
  destruct (rErr rd) as [e|].
  { destruct (is_deadline e); simplify_eq; ok_same. }
  destruct (ParseFlagsForError env (rFlags rd)); [simplify_eq; ok_same|].
  destruct (DecryptZeroCopy (handler srv) (rBuf rd) 0 (rN rd)) as [?|[[b s0] l0]];
    [simplify_eq; ok_same|].
  apply critical_section_ok in H.
  eapply step_ok_trans; [|exact H].
  unfold count_received. destruct (ingress _); ok_same.
Qed.

Lemma p2w_recv_ok srv id st st' : p2w_recv id st = Some st' -> step_ok srv st st'.
Proof.
  unfold p2w_recv. intros H.
  destruct (heap st !! id) as [s|] eqn:Hs; [|discriminate].
  destruct (p2w s) as [[]|]; try discriminate.
  destruct (Chan.recv _); simplify_eq; ok_update s.
Qed.

Lemma p2w_process_ok srv id e now st st' :
  p2w_process srv id e now st = Some st' -> step_ok srv st st'.
Proof.
  unfold p2w_process. intros H.
  destruct (heap st !! id) as [s|] eqn:Hs; [|discriminate].
  destruct (p2w s) as [[]|]; try discriminate.
  destruct (relay_packet _ _ _ _ _ _) as [[evs c] ok]. simplify_eq. ok_update s.
Qed.

Lemma p2w_finish_ok srv id st st' : p2w_finish id st = Some st' -> step_ok srv st st'.
Proof.
  unfold p2w_finish. intros H.
  destruct (heap st !! id) as [s|] eqn:Hs; [|discriminate].
  destruct (p2w s) as [[]|]; try discriminate.
  destruct (Close _) as [c e]. simplify_eq. ok_update s.
Qed.

Lemma w2p_start_ok srv id st st' : w2p_start srv id st = Some st' -> step_ok srv st st'.
Proof.
  unfold w2p_start. intros H.
  destruct (heap st !! id) as [s|] eqn:Hs; [|discriminate].
  destruct (w2p s) as [[]|]; try discriminate.
  simplify_eq. ok_update s.
Qed.

Lemma w2p_iter_ok env srv id rd st st' :
  w2p_iter env srv id rd st = Some st' -> step_ok srv st st'.
Proof.
  unfold w2p_iter. intros H.
  destruct (heap st !! id) as [s|] eqn:Hs; [|discriminate].
  destruct (w2p s) as [[]|]; try discriminate.
  repeat case_match; simplify_eq; ok_update s.
Qed.

Lemma w2p_teardown_ok srv id st st' :
  w2p_teardown id st = Some st' -> step_ok srv st st'.
Proof.
  unfold w2p_teardown. intros H.
  destruct (heap st !! id) as [s|] eqn:Hs; [|discriminate].
  destruct (w2p s) as [[]|]; try discriminate.
  destruct (Chan.close _); simplify_eq; [|ok_update s].
  eapply (step_ok_update _ _ _ _ s); [eassumption | | | reflexivity |];
    [reflexivity..|].
  simpl. intros k i Hk. apply lookup_delete_Some in Hk. tauto.
Qed.

Lemma stop_entry_ok srv now st kv : step_ok srv st (stop_entry now st kv).
Proof.
  unfold stop_entry.
  destruct (heap st !! kv.2) as [s|] eqn:Hs; [|apply step_ok_refl].
  destruct (SetReadDeadline now (wgConn (entry s))) as [c [e|]]; ok_update s.
Qed.

Lemma Stop_deadlines_ok srv now st : step_ok srv st (Stop_deadlines now st).
Proof.
  unfold Stop_deadlines. generalize (map_to_list (table st)). intros l.
  revert st. induction l as [|kv l IH]; intros st; simpl.
  - apply step_ok_refl.
  - eapply step_ok_trans; [apply stop_entry_ok | apply IH].
Qed.

Lemma exec_ok env srv a st st' : exec env srv a st = Some st' -> step_ok srv st st'.
Proof.
  destruct a; simpl; intros H.
  - destruct (ingress st); try discriminate. simplify_eq.
    unfold Start. destruct listenErr; ok_same.
  - destruct (ingress st); try discriminate. simplify_eq.
    destruct (ingress_iter env srv rd st) as [st1 o] eqn:E.
    apply ingress_iter_ok in E. exact E.
  - eapply p2w_recv_ok; eassumption.
  - eapply p2w_process_ok; eassumption.
  - eapply p2w_finish_ok; eassumption.
  - eapply w2p_start_ok; eassumption.
  - eapply w2p_iter_ok; eassumption.
  - eapply w2p_teardown_ok; eassumption.
  - destruct (stopping st); try discriminate.
    unfold Stop_begin in H.
    destruct (proxyConn st) as [c|]; [|simplify_eq; apply step_ok_refl].
    destruct (SetReadDeadline now c) as [c' [e|]]; simplify_eq; ok_same.
  - destruct (stopping st); try discriminate.
    destruct (mwg st =? 0); [|discriminate]. simplify_eq.
    eapply step_ok_trans; [apply Stop_deadlines_ok | ok_same].
  - destruct (stopping st); try discriminate.
    destruct (wg st =? 0); [|discriminate]. simplify_eq.
    unfold Stop_close. destruct (proxyConn st) as [c|]; [|ok_same].
    destruct (Close c) as [c' [e|]]; ok_same.
Qed.

(** An invariant of the transition system holds in every reachable state. *)
Lemma reachable_ind env srv (P : state -> Prop) :
  P init ->
  (forall a st st', P st -> exec env srv a st = Some st' -> P st') ->
  forall st, reachable env srv st -> P st.
Proof.
  intros Hinit Hstep st [acts Hrun].
  revert Hrun. generalize init Hinit. clear Hinit.
  induction acts as [|a acts IH]; intros st0 H0 Hrun; simpl in Hrun.
  - congruence.
  - destruct (exec env srv a st0) as [st1|] eqn:E; [|discriminate].
    apply (IH st1); [eapply Hstep; eassumption | exact Hrun].
Qed.

Lemma sizes_by_family_step srv st st' :
  step_ok srv st st' -> sizes_by_family srv st -> sizes_by_family srv st'.
Proof.
  intros (K & S & T) [Hsz Htab]. split.
  - intros id s' Hs'. destruct (heap st !! id) as [s|] eqn:E.
    + destruct (K id s E) as (s2 & H2 & Hk & Hm).
      assert (s2 = s') as -> by congruence.
      rewrite Hm, Hk. apply (Hsz id s E).
    + apply (S id s' Hs' E).
  - intros k id Hk. destruct (T k id Hk) as [Hold | (_ & s' & Hs' & Hkey)].
    + destruct (Htab k id Hold) as (s & Hs & Hkey).
      destruct (K id s Hs) as (s' & Hs' & Hk' & _).
      exists s'. split; [exact Hs' | congruence].
    + eauto.
Qed.

(** C7. When the ingress loop creates an entry, its max_proxy_packet_size
    is the v4 size for an IPv4 or IPv4-mapped IPv6 client address and the v6
    size otherwise; no later step of any goroutine writes the field, so in
    every reachable state every table entry has the size its client's
    address selects. *)
Theorem maxProxyPacketSize_by_family_and_fixed env srv :
  (forall rd b st st' id mtu,
     lookup_or_create srv rd b st = (st', Created id mtu) ->
     heap st !! id = None
     /\ table st' !! rAddr rd = Some id
     /\ exists s, heap st' !! id = Some s /\ key s = rAddr rd
          /\ maxProxyPacketSize (entry s) =
               (if Is4 (ip (rAddr rd)) || Is4In6 (ip (rAddr rd))
                then maxProxyPacketSizev4 srv else maxProxyPacketSizev6 srv))
  /\ (forall a st st' id s,
        exec env srv a st = Some st' -> heap st !! id = Some s ->
        exists s', heap st' !! id = Some s' /\ key s' = key s
          /\ maxProxyPacketSize (entry s') = maxProxyPacketSize (entry s))
  /\ (forall st k id,
        reachable env srv st -> table st !! k = Some id ->
        exists s, heap st !! id = Some s /\ key s = k
          /\ maxProxyPacketSize (entry s) = size_for srv k).
Proof.
  split; [|split].
  - intros rd b st st' id mtu H.
    unfold lookup_or_create, SetReadDeadline, openConn in H.
    destruct (table st !! rAddr rd); [discriminate|].
    destruct (rListenErr rd); [discriminate|]. simpl in H.
    destruct (Chan.make (sendChannelCapacity srv)) as [ch|]; [|discriminate].
    destruct (Is4 (ip (rAddr rd)) || Is4In6 (ip (rAddr rd))); simplify_eq/=.
    all: split; [apply fresh_id_unused|].
    all: split; [apply lookup_insert_eq|].
    all: eexists; split; [apply lookup_insert_eq|]; split; reflexivity.
  - intros a st st' id s H Hs. apply (exec_ok env srv) in H as (K & _).
    apply (K id s Hs).
  - intros st k id Hr Hk.
    assert (Hinv : sizes_by_family srv st).
    { apply (reachable_ind env srv (sizes_by_family srv)); [| |exact Hr].
      - split; intros ? ? H; unfold init in H; simpl in H;
          rewrite lookup_empty in H; discriminate.
      - intros a s1 s2 Hinv Hex. eapply sizes_by_family_step; [|exact Hinv].
        eapply exec_ok; eassumption. }
    destruct Hinv as [Hsz Htab].
    destruct (Htab k id Hk) as (s & Hs & Hkey).
    exists s. split; [exact Hs|]. split; [exact Hkey|].
    rewrite <- Hkey. apply (Hsz id s Hs).
Qed.

Lemma maxProxyPacketSize_by_family_and_fixed_witness :
  table (lookup_or_create exServer (exRead []) (exBuf 1) init).1 !! exClient
    = Some 0%nat
  /\ exists s,
       heap (lookup_or_create exServer (exRead []) (exBuf 1) init).1 !! 0%nat = Some s
       /\ key s = exClient
       /\ maxProxyPacketSize (entry s) = maxProxyPacketSizev4 exServer.
Proof.
  destruct (maxProxyPacketSize_by_family_and_fixed exEnv exServer) as (Hc & _ & _).
  destruct (Hc (exRead []) (exBuf 1) init
               (lookup_or_create exServer (exRead []) (exBuf 1) init).1 0%nat 1440)
    as (_ & Ht & s & Hs & Hk & Hm).
  - vm_compute. reflexivity.
  - split; [exact Ht|]. exists s. split; [exact Hs|]. split; [exact Hk|].
    exact Hm.
Defined.

(** ** The send queue and the Proxy→Wg worker *)

Lemma sends_app id l1 l2 : sends id (l1 ++ l2) = sends id l1 ++ sends id l2.
Proof. apply flat_map_app. Qed.

Lemma written_app id l1 l2 : written id (l1 ++ l2) = written id l1 ++ written id l2.
Proof. apply flat_map_app. Qed.


Lemma queue_inv_quiet w ch snt wr :
  queue_inv w ch snt wr -> queue_inv w ch (snt ++ []) (wr ++ []).
Proof. rewrite !app_nil_r. auto. Qed.

(** A step that leaves the heap alone and emits nothing about any queue. *)
Lemma queues_ok_frame st st' evs :
  queues_ok st ->
  heap st' = heap st ->
  trace st' = trace st ++ evs ->
  (forall i, quiet_for i evs) ->
  queues_ok st'.
Proof.
  intros Hq Hh Ht Hquiet id. specialize (Hq id).
  rewrite Hh, Ht, sends_app, written_app.
  destruct (Hquiet id) as [-> ->]. rewrite !app_nil_r. exact Hq.
Qed.

(** A step that rewrites the session at [id] and emits events of that
    session only. *)
Lemma queues_ok_update st st' id s s' evs :
  queues_ok st ->
  heap st !! id = Some s ->
  heap st' = <[id := s']> (heap st) ->
  trace st' = trace st ++ evs ->
  (forall i, i <> id -> quiet_for i evs) ->
  (queue_inv (p2w s) (wgConnSendCh (entry s))
     (sends id (trace st)) (written id (trace st)) ->
   queue_inv (p2w s') (wgConnSendCh (entry s'))
     (sends id (trace st) ++ sends id evs) (written id (trace st) ++ written id evs)) ->
  queues_ok st'.
Proof.
  intros Hq Hs Hh Ht Hquiet Hstep i. pose proof (Hq i) as Hi.
  rewrite Hh, Ht, sends_app, written_app.
  destruct (decide (id = i)) as [<-|Hne].
  - rewrite lookup_insert_eq. rewrite Hs in Hi. apply Hstep. exact Hi.
  - rewrite lookup_insert_ne by exact Hne.
    destruct (Hquiet i) as [-> ->]; [congruence|]. rewrite !app_nil_r. exact Hi.
Qed.

(** A step that allocates a session with an empty queue and no worker. *)
Lemma queues_ok_create st st' id s' evs :
  queues_ok st ->
  heap st !! id = None ->
  heap st' = <[id := s']> (heap st) ->
  trace st' = trace st ++ evs ->
  (forall i, quiet_for i evs) ->
  p2w s' = None -> Chan.buf (wgConnSendCh (entry s')) = [] ->
  queues_ok st'.
Proof.
  intros Hq Hs Hh Ht Hquiet Hw Hb i. pose proof (Hq i) as Hi.
  rewrite Hh, Ht, sends_app, written_app.
  destruct (Hquiet i) as [-> ->]. rewrite !app_nil_r.
  destruct (decide (id = i)) as [<-|Hne].
  - rewrite lookup_insert_eq. rewrite Hs in Hi. destruct Hi as [-> ->].
    rewrite Hw. simpl. rewrite Hb. reflexivity.
  - rewrite lookup_insert_ne by exact Hne. exact Hi.
Qed.

Ltac quiet :=
  intros; unfold quiet_for, debug; split; simpl; repeat case_match; reflexivity.
Ltac trace_eq :=
  simpl; rewrite <- ?app_assoc; first [reflexivity | symmetry; apply app_nil_r].
Ltac q_frame H := eapply (queues_ok_frame _ _ _ H); [reflexivity | trace_eq | quiet].

Lemma lookup_or_create_q srv rd b st st' r :
  queues_ok st -> lookup_or_create srv rd b st = (st', r) ->
  queues_ok st'
  /\ match r with
     | Created id _ => exists s, heap st' !! id = Some s /\ p2w s = None
     | _ => True
     end.
Proof.
  unfold lookup_or_create, SetReadDeadline, openConn, putPacketBuf. intros Hq H.
  destruct (table st !! rAddr rd) eqn:Ht; [simplify_eq; auto|].
  destruct (rListenErr rd); [simplify_eq; split; [q_frame Hq | exact I]|].
  simpl in H.
  destruct (Chan.make (sendChannelCapacity srv)) as [ch|] eqn:Hch;
    [|simplify_eq; split; [q_frame Hq | exact I]].
  assert (Hb : Chan.buf ch = []).
  { unfold Chan.make in Hch. destruct (_ <? 0); simplify_eq. reflexivity. }
  destruct (Is4 (ip (rAddr rd)) || Is4In6 (ip (rAddr rd))); simplify_eq/=.
  all: split; [|eexists; split; [apply lookup_insert_eq | reflexivity]].
  all: eapply (queues_ok_create _ _ _ _ _ Hq);
    [apply fresh_id_unused | reflexivity | trace_eq | quiet | reflexivity | exact Hb].
Qed.

Lemma update_pktinfo_q env rd b id s st st' r :
  queues_ok st -> heap st !! id = Some s ->
  update_pktinfo env rd b id s st = (st', r) ->
  queues_ok st'
  /\ (p2w s = None -> exists s', heap st' !! id = Some s' /\ p2w s' = None).
Proof.
  unfold update_pktinfo, putPacketBuf. intros Hq Hs H.
  destruct (bool_decide _); [simplify_eq; eauto|].
  destruct (ParsePktinfoCmsg env (rCmsg rd)); simplify_eq.
  - split; [q_frame Hq | eauto].
  - split; [|intros Hw; eexists; split; [apply lookup_insert_eq | exact Hw]].
    eapply (queues_ok_update _ _ _ _ _ _ Hq Hs); [reflexivity | trace_eq | quiet |].
    simpl. replace (sends id (debug env _)) with (@nil queuedPacket)
      by (unfold debug; case_match; reflexivity).
    replace (written id (debug env _)) with (@nil bytes)
      by (unfold debug; case_match; reflexivity).
    apply queue_inv_quiet.
Qed.

Lemma start_workers_q id mtu p st s :
  queues_ok st -> heap st !! id = Some s -> p2w s = None ->
  queues_ok (start_workers id mtu p st).
Proof.
  intros Hq Hs Hw. unfold start_workers. rewrite Hs.
  eapply (queues_ok_update _ _ _ _ _ _ Hq Hs); [reflexivity | trace_eq | quiet |].
  simpl. rewrite Hw, !app_nil_r. simpl. auto.
Qed.

Lemma sends_send id p : sends id [EvSend id p] = [p].
Proof. unfold sends. simpl. rewrite Nat.eqb_refl. reflexivity. Qed.

Lemma send_quiet_elsewhere id p i : i <> id -> quiet_for i [EvSend id p].
Proof.
  intros Hi. split; [|reflexivity]. unfold sends. simpl.
  destruct (Nat.eqb_spec id i); [congruence | reflexivity].
Qed.

Lemma enqueue_q env id pkt st st' o :
  queues_ok st -> enqueue env id pkt st = (st', o) -> queues_ok st'.
Proof.
  unfold enqueue, panic_ingress, putPacketBuf. intros Hq H.
  destruct (heap st !! id) as [s|] eqn:Hs; [|simplify_eq; q_frame Hq].
  unfold Chan.try_send in H.
  destruct (Chan.closed (wgConnSendCh (entry s))) eqn:Hcl; [simplify_eq; q_frame Hq|].
  destruct (parked s) eqn:Hp.
  - unfold parked in Hp. destruct (p2w s) as [[]|] eqn:Hw; try discriminate.
    simplify_eq.
    eapply (queues_ok_update _ _ _ _ _ _ Hq Hs); [reflexivity | trace_eq | |].
    + intros i Hi. apply send_quiet_elsewhere. exact Hi.
    + rewrite sends_send, Hw. cbn. intros [Hm Hb].
      rewrite Hb, map_app, Hm, app_nil_r. reflexivity.
  - destruct (_ <? _); simplify_eq; [|q_frame Hq].
    eapply (queues_ok_update _ _ _ _ _ _ Hq Hs); [reflexivity | trace_eq | |].
    + intros i Hi. apply send_quiet_elsewhere. exact Hi.
    + rewrite sends_send. cbn. rewrite app_nil_r.
      unfold parked in Hp.
      destruct (p2w s) as [[]|]; cbn; try discriminate; auto.
      * intros Hm. rewrite !map_app, Hm, <- app_assoc. reflexivity.
      * intros Hm. rewrite !map_app, Hm. cbn.
        rewrite <- app_assoc. reflexivity.
      * intros (_ & _ & Hc). congruence.
      * intros (_ & _ & Hc). congruence.
      * intros Hm. rewrite !map_app, Hm, <- app_assoc. reflexivity.
Qed.

Lemma critical_section_q env srv rd pkt st st' o :
  queues_ok st -> critical_section env srv rd pkt st = (st', o) -> queues_ok st'.
Proof.
  unfold critical_section. intros Hq H.
  destruct (lookup_or_create srv rd (qbuf pkt) st) as [st1 r] eqn:E1.
  apply (lookup_or_create_q _ _ _ _ _ _ Hq) in E1 as [Hq1 Hnew].
  destruct r as [i|i mtu|o1]; [| |simplify_eq; exact Hq1].
  - destruct (heap st1 !! i) as [s|] eqn:Hs;
      [|unfold panic_ingress in H; simplify_eq; q_frame Hq1].
    destruct (update_pktinfo env rd (qbuf pkt) i s st1) as [st2 [p|]] eqn:E2;
      apply (update_pktinfo_q _ _ _ _ _ _ _ _ Hq1 Hs) in E2 as [Hq2 _];
      [|simplify_eq; exact Hq2].
    eapply enqueue_q; [exact Hq2 | exact H].
  - destruct Hnew as (s0 & Hs0 & Hw0). rewrite Hs0 in H.
    destruct (update_pktinfo env rd (qbuf pkt) i s0 st1) as [st2 [p|]] eqn:E2;
      apply (update_pktinfo_q _ _ _ _ _ _ _ _ Hq1 Hs0) in E2 as [Hq2 Hkeep];
      [|simplify_eq; exact Hq2].
    destruct (Hkeep Hw0) as (s2 & Hs2 & Hw2).
    eapply enqueue_q; [|exact H].
    eapply start_workers_q; eassumption.
Qed.

Lemma ingress_iter_q env srv rd st st' o :
  queues_ok st -> ingress_iter env srv rd st = (st', o) -> queues_ok st'.
Proof.
  unfold ingress_iter, finish_ingress, putPacketBuf, getPacketBuf. intros Hq H.
  destruct (rErr rd) as [e|].
  { destruct (is_deadline e); simplify_eq; q_frame Hq. }
  destruct (ParseFlagsForError env (rFlags rd)); [simplify_eq; q_frame Hq|].
  destruct (DecryptZeroCopy (handler srv) (rBuf rd) 0 (rN rd)) as [?|[[b s0] l0]];
    [simplify_eq; q_frame Hq|].
  eapply critical_section_q; [|exact H].
  unfold count_received. destruct (ingress _); q_frame Hq.
Qed.

(** The events of the loop body concern its own session only; when the body
    does not panic, it has written the packet once. *)
Lemma relay_packet_events srv id e now p c evs c' ok :
  relay_packet srv id e now p c = (evs, c', ok) ->
  (forall i, i <> id -> quiet_for i evs)
  /\ sends id evs = []
  /\ (ok = true -> written id evs = [wire p]).
Proof.
  unfold relay_packet, slice, SetReadDeadline. intros H.
  assert (Hw : forall i, write_of i (EvWgWrite id (wire p) (wgAddrPort srv))
                         = if Nat.eqb id i then [wire p] else []) by reflexivity.
  repeat case_match; simplify_eq.
  all: fold (wire p).
  all: split; [intros i Hi; split; [reflexivity|]; unfold written; simpl;
               destruct (Nat.eqb_spec id i); [congruence | reflexivity]|].
  all: split; [reflexivity|].
  all: intros Hok; try discriminate.
  all: unfold written; simpl; rewrite Nat.eqb_refl; reflexivity.
Qed.

Lemma p2w_recv_q id st st' : queues_ok st -> p2w_recv id st = Some st' -> queues_ok st'.
Proof.
  unfold p2w_recv, Chan.recv. intros Hq H.
  destruct (heap st !! id) as [s|] eqn:Hs; [|discriminate].
  destruct (p2w s) as [[]|] eqn:Hw; try discriminate.
  destruct (Chan.buf (wgConnSendCh (entry s))) as [|x rest] eqn:Hb;
    [destruct (Chan.closed (wgConnSendCh (entry s))) eqn:Hc|]; simplify_eq.
  all: eapply (queues_ok_update _ _ _ _ _ _ Hq Hs); [reflexivity | trace_eq | quiet |].
  all: rewrite Hw; cbn; rewrite ?app_nil_r, ?Hb; cbn; rewrite ?app_nil_r; auto.
Qed.

Lemma p2w_process_q srv id e now st st' :
  queues_ok st -> p2w_process srv id e now st = Some st' -> queues_ok st'.
Proof.
  unfold p2w_process. intros Hq H.
  destruct (heap st !! id) as [s|] eqn:Hs; [|discriminate].
  destruct (p2w s) as [[]|] eqn:Hw; try discriminate.
  destruct (relay_packet _ _ _ _ _ _) as [[evs c] ok] eqn:E. simplify_eq.
  apply relay_packet_events in E as (Hquiet & Hsend & Hwr).
  eapply (queues_ok_update _ _ _ _ _ _ Hq Hs); [reflexivity | trace_eq | exact Hquiet |].
  rewrite Hw, Hsend. destruct ok; cbn; [|auto].
  rewrite (Hwr eq_refl), app_nil_r. intros Hm. rewrite Hm. cbn.
  rewrite <- app_assoc. reflexivity.
Qed.

Lemma p2w_finish_q id st st' : queues_ok st -> p2w_finish id st = Some st' -> queues_ok st'.
Proof.
  unfold p2w_finish. intros Hq H.
  destruct (heap st !! id) as [s|] eqn:Hs; [|discriminate].
  destruct (p2w s) as [[]|] eqn:Hw; try discriminate.
  destruct (Close _) as [c e]. simplify_eq.
  eapply (queues_ok_update _ _ _ _ _ _ Hq Hs); [reflexivity | trace_eq | quiet |].
  rewrite Hw. cbn. rewrite !app_nil_r. auto.
Qed.

Lemma w2p_start_q srv id st st' :
  queues_ok st -> w2p_start srv id st = Some st' -> queues_ok st'.
Proof.
  unfold w2p_start. intros Hq H.
  destruct (heap st !! id) as [s|] eqn:Hs; [|discriminate].
  destruct (w2p s) as [[]|]; try discriminate. simplify_eq.
  eapply (queues_ok_update _ _ _ _ _ _ Hq Hs); [reflexivity | trace_eq | quiet |].
  cbn. rewrite !app_nil_r. auto.
Qed.

Lemma w2p_iter_q env srv id rd st st' :
  queues_ok st -> w2p_iter env srv id rd st = Some st' -> queues_ok st'.
Proof.
  unfold w2p_iter. intros Hq H.
  destruct (heap st !! id) as [s|] eqn:Hs; [|discriminate].
  destruct (w2p s) as [[]|]; try discriminate.
  repeat case_match; simplify_eq.
  all: eapply (queues_ok_update _ _ _ _ _ _ Hq Hs); [reflexivity | trace_eq | quiet |].
  all: cbn; rewrite !app_nil_r; auto.
Qed.

Lemma w2p_teardown_q id st st' :
  queues_ok st -> w2p_teardown id st = Some st' -> queues_ok st'.
Proof.
  unfold w2p_teardown, Chan.close. intros Hq H.
  destruct (heap st !! id) as [s|] eqn:Hs; [|discriminate].
  destruct (w2p s) as [[]|]; try discriminate.
  destruct (Chan.closed (wgConnSendCh (entry s))) eqn:Hc; simplify_eq.
  all: eapply (queues_ok_update _ _ _ _ _ _ Hq Hs); [reflexivity | trace_eq | quiet |].
  all: cbn; rewrite !app_nil_r; auto.
  unfold parked. destruct (p2w s) as [[]|]; cbn; auto.
  - intros [Hm Hb]. auto.
  - intros (_ & _ & Hcl). congruence.
  - intros (_ & _ & Hcl). congruence.
Qed.

Lemma stop_entry_q now st kv : queues_ok st -> queues_ok (stop_entry now st kv).
Proof.
  intros Hq. unfold stop_entry.
  destruct (heap st !! kv.2) as [s|] eqn:Hs; [|exact Hq].
  destruct (SetReadDeadline now (wgConn (entry s))) as [c [e|]].
  all: eapply (queues_ok_update _ _ _ _ _ _ Hq Hs); [reflexivity | trace_eq | quiet |].
  all: cbn; rewrite !app_nil_r; auto.
Qed.

Lemma Stop_deadlines_q now st : queues_ok st -> queues_ok (Stop_deadlines now st).
Proof.
  unfold Stop_deadlines. generalize (map_to_list (table st)). intros l.
  revert st. induction l as [|kv l IH]; intros st Hq; simpl; [exact Hq|].
  apply IH, stop_entry_q, Hq.
Qed.

Lemma exec_q env srv a st st' :
  queues_ok st -> exec env srv a st = Some st' -> queues_ok st'.
Proof.
  intros Hq. destruct a; simpl; intros H.
  - destruct (ingress st); try discriminate. simplify_eq.
    unfold Start. destruct listenErr; q_frame Hq.
  - destruct (ingress st); try discriminate. simplify_eq.
    destruct (ingress_iter env srv rd st) as [st1 o] eqn:E.
    eapply ingress_iter_q; eassumption.
  - eapply p2w_recv_q; eassumption.
  - eapply p2w_process_q; eassumption.
  - eapply p2w_finish_q; eassumption.
  - eapply w2p_start_q; eassumption.
  - eapply w2p_iter_q; eassumption.
  - eapply w2p_teardown_q; eassumption.
  - destruct (stopping st); try discriminate.
    unfold Stop_begin in H.
    destruct (proxyConn st) as [c|]; [|simplify_eq; exact Hq].
    destruct (SetReadDeadline now c) as [c' [e|]]; simplify_eq; q_frame Hq.
  - destruct (stopping st); try discriminate.
    destruct (mwg st =? 0); [|discriminate]. simplify_eq.
    pose proof (Stop_deadlines_q now st Hq) as Hq'. q_frame Hq'.
  - destruct (stopping st); try discriminate.
    destruct (wg st =? 0); [|discriminate]. simplify_eq.
    unfold Stop_close. destruct (proxyConn st) as [c|]; [|q_frame Hq].
    destruct (Close c) as [c' [e|]]; q_frame Hq.
Qed.

Lemma reachable_queues_ok env srv st : reachable env srv st -> queues_ok st.
Proof.
  apply (reachable_ind env srv queues_ok).
  - intros id. unfold init. simpl. rewrite lookup_empty. split; reflexivity.
  - intros a s1 s2 Hq Hex. eapply exec_q; eassumption.
Qed.

(** *** Draining the queue *)

Lemma run_app env srv l1 l2 st :
  run env srv (l1 ++ l2) st =
    match run env srv l1 st with
    | Some st' => run env srv l2 st'
    | None => None
    end.
Proof.
  revert st. induction l1 as [|a l1 IH]; intros st; simpl; [reflexivity|].
  destruct (exec env srv a st); [apply IH | reflexivity].
Qed.








(** * Further properties of the code *)

(** ** Server construction: validation order and derived sizes *)

Lemma land_mask_16 x : Z.land x (Z.lnot 15) = 16 * (x / 16).
Proof.
  rewrite <- Z.ldiff_land. change 15 with (Z.ones 4).
  rewrite Z.ldiff_ones_r by lia.
  rewrite Z.shiftl_mul_pow2, Z.shiftr_div_pow2 by lia.
  change (2 ^ 4) with 16. lia.
Qed.

Lemma Server_sizes_exact env sc tr s :
  GoInt.in_range (MTU sc) ->
  Server env sc = (tr, inr s) ->
  overheads_ok (handler s) ->
  1280 <= MTU sc
  /\ maxProxyPacketSizev4 s = MTU sc - 28
  /\ maxProxyPacketSizev6 s = MTU sc - 48
  /\ wgTunnelMTUv4 s =
       Z.land (MTU sc - 28 - (FrontOverhead (handler s) + RearOverhead (handler s)) - 32)
              (Z.lnot 15)
  /\ wgTunnelMTUv6 s =
       Z.land (MTU sc - 48 - (FrontOverhead (handler s) + RearOverhead (handler s)) - 32)
              (Z.lnot 15).
Proof.
  intros Hr Hs (Hf & Hb & Hsum).
  apply Server_accepted in Hs as (Hm & perf & a & _ & _ & _ & H4 & H6 & M4 & M6).
  unfold GoInt.in_range, GoInt.minInt, GoInt.maxInt, minimumMTU in *.
  assert (E4 : maxProxyPacketSizev4 s = MTU sc - 28).
  { rewrite H4. unfold IPv4HeaderLength, UDPHeaderLength.
    rewrite (sub_exact (MTU sc)), sub_exact;
      unfold GoInt.in_range, GoInt.minInt, GoInt.maxInt; lia. }
  assert (E6 : maxProxyPacketSizev6 s = MTU sc - 48).
  { rewrite H6. unfold IPv6HeaderLength, UDPHeaderLength.
    rewrite (sub_exact (MTU sc)), sub_exact;
      unfold GoInt.in_range, GoInt.minInt, GoInt.maxInt; lia. }
  split; [exact Hm|]. split; [exact E4|]. split; [exact E6|].
  rewrite M4, M6, E4, E6.
  unfold GoInt.and, WireGuardDataPacketOverhead, WireGuardDataPacketLengthMask.
  rewrite add_exact by (unfold GoInt.in_range, GoInt.minInt, GoInt.maxInt; lia).
  rewrite !sub_exact
    by (rewrite ?sub_exact;
        unfold GoInt.in_range, GoInt.minInt, GoInt.maxInt; lia).
  split; reflexivity.
Qed.

(** X1. [Server] succeeds exactly when the MTU is at least 1280 and the
    three functions it calls all succeed; otherwise it returns the error of
    the first step that fails, and the steps after that one are not run. *)
Theorem Server_first_failure env sc :
  ((exists tr s, Server env sc = (tr, inr s))
   <-> 1280 <= MTU sc
       /\ (exists p, CheckAndApplyDefaults env (Perf sc) = inr p)
       /\ (exists h, getPacketHandlerForProxyMode env (ProxyMode sc) (ProxyPSK sc) = inr h)
       /\ (exists a, ResolveAddrPort env (WgEndpoint sc) = inr a))
  /\ (forall e, 1280 <= MTU sc ->
        CheckAndApplyDefaults env (Perf sc) = inl e ->
        Server env sc = ([CallCheckAndApplyDefaults], inl e))
  /\ (forall p e, 1280 <= MTU sc ->
        CheckAndApplyDefaults env (Perf sc) = inr p ->
        getPacketHandlerForProxyMode env (ProxyMode sc) (ProxyPSK sc) = inl e ->
        Server env sc = ([CallCheckAndApplyDefaults; CallGetPacketHandler], inl e))
  /\ (forall p h e, 1280 <= MTU sc ->
        CheckAndApplyDefaults env (Perf sc) = inr p ->
        getPacketHandlerForProxyMode env (ProxyMode sc) (ProxyPSK sc) = inr h ->
        ResolveAddrPort env (WgEndpoint sc) = inl e ->
        Server env sc =
          ([CallCheckAndApplyDefaults; CallGetPacketHandler; CallResolveAddrPort],
           inl e))
  /\ (forall p h a, 1280 <= MTU sc ->
        CheckAndApplyDefaults env (Perf sc) = inr p ->
        getPacketHandlerForProxyMode env (ProxyMode sc) (ProxyPSK sc) = inr h ->
        ResolveAddrPort env (WgEndpoint sc) = inr a ->
        exists s,
          Server env sc =
            ([CallCheckAndApplyDefaults; CallGetPacketHandler; CallResolveAddrPort;
              CallSetRelayFunc], inr s)
          /\ handler s = h /\ wgAddrPort s = a
          /\ sendChannelCapacity s = SendChannelCapacity p
          /\ relayBatchSize s = RelayBatchSize p
          /\ mainRecvBatchSize s = MainRecvBatchSize p
          /\ name s = Name sc /\ proxyListen s = ProxyListen sc
          /\ proxyFwmark s = ProxyFwmark sc /\ wgFwmark s = WgFwmark sc).
Proof.
  assert (Hge : 1280 <= MTU sc -> (MTU sc <? minimumMTU) = false).
  { intros H. apply Z.ltb_ge. unfold minimumMTU. lia. }
  split; [|split; [|split; [|split]]].
  - split.
    + intros (tr & s & H).
      apply Server_accepted in H as (Hm & p & a & Hh & Hp & Ha & _).
      unfold minimumMTU in Hm. eauto 10.
    + intros (Hm & (p & Hp) & (h & Hh) & (a & Ha)).
      unfold Server. rewrite (Hge Hm), Hp, Hh, Ha. eauto.
  - intros e Hm Hp. unfold Server. rewrite (Hge Hm), Hp. reflexivity.
  - intros p e Hm Hp Hh. unfold Server. rewrite (Hge Hm), Hp, Hh. reflexivity.
  - intros p h e Hm Hp Hh Ha. unfold Server. rewrite (Hge Hm), Hp, Hh, Ha.
    reflexivity.
  - intros p h a Hm Hp Hh Ha. unfold Server. rewrite (Hge Hm), Hp, Hh, Ha.
    eexists. split; [reflexivity|]. simpl. repeat split; reflexivity.
Qed.

Lemma Server_first_failure_witness :
  exists s,
    Server exCollaborators (exConfig 1500) =
      ([CallCheckAndApplyDefaults; CallGetPacketHandler; CallResolveAddrPort;
        CallSetRelayFunc], inr s)
    /\ handler s = passthrough /\ wgAddrPort s = exWgAddr
    /\ sendChannelCapacity s = 2.
Proof.
  destruct (Server_first_failure exCollaborators (exConfig 1500))
    as (_ & _ & _ & _ & Hok).
  destruct (Hok (mkPerfConfig "" 0 0 2) passthrough exWgAddr) as (s & Hs & Hh & Ha & Hc & _).
  - simpl. lia.
  - reflexivity.
  - reflexivity.
  - reflexivity.
  - exists s. repeat split; assumption.
Defined.

(** X2. For an accepted configuration each advertised tunnel MTU is a
    multiple of 16, at most the packet size minus the overheads minus 32 and
    less than 16 below it; the v6 value never exceeds the v4 value; and the
    pool's buffer size (the v4 packet size) is at least 1252 bytes and 20
    bytes above the v6 packet size, so every buffer is non-empty and holds
    any v6 packet. *)
Theorem Server_size_bounds env sc tr s :
  GoInt.in_range (MTU sc) ->
  Server env sc = (tr, inr s) ->
  overheads_ok (handler s) ->
  let o := FrontOverhead (handler s) + RearOverhead (handler s) in
  wgTunnelMTUv4 s mod 16 = 0 /\ wgTunnelMTUv6 s mod 16 = 0
  /\ maxProxyPacketSizev4 s - o - 32 - 15 <= wgTunnelMTUv4 s
       <= maxProxyPacketSizev4 s - o - 32
  /\ maxProxyPacketSizev6 s - o - 32 - 15 <= wgTunnelMTUv6 s
       <= maxProxyPacketSizev6 s - o - 32
  /\ wgTunnelMTUv6 s <= wgTunnelMTUv4 s
  /\ 1252 <= maxProxyPacketSizev4 s
  /\ maxProxyPacketSizev4 s = maxProxyPacketSizev6 s + 20.
Proof.
  intros Hr Hs Ho o.
  destruct (Server_sizes_exact env sc tr s Hr Hs Ho) as (Hm & E4 & E6 & M4 & M6).
  rewrite M4, M6, E4, E6, !land_mask_16. fold o.
  pose proof (Z.mod_pos_bound (MTU sc - 28 - o - 32) 16 ltac:(lia)) as B4.
  pose proof (Z.mod_pos_bound (MTU sc - 48 - o - 32) 16 ltac:(lia)) as B6.
  pose proof (Z.div_mod (MTU sc - 28 - o - 32) 16 ltac:(lia)) as D4.
  pose proof (Z.div_mod (MTU sc - 48 - o - 32) 16 ltac:(lia)) as D6.
  assert (Hmono : (MTU sc - 48 - o - 32) / 16 <= (MTU sc - 28 - o - 32) / 16)
    by (apply Z.div_le_mono; lia).
  repeat split; try lia.
  - rewrite Z.mul_comm. apply Z.mod_mul. lia.
  - rewrite Z.mul_comm. apply Z.mod_mul. lia.
Qed.

Lemma Server_size_bounds_witness :
  wgTunnelMTUv4 exServer mod 16 = 0 /\ wgTunnelMTUv6 exServer mod 16 = 0
  /\ wgTunnelMTUv6 exServer <= wgTunnelMTUv4 exServer
  /\ 1252 <= maxProxyPacketSizev4 exServer.
Proof.
  destruct (Server_size_bounds exCollaborators (exConfig 1500)
              [CallCheckAndApplyDefaults; CallGetPacketHandler; CallResolveAddrPort;
               CallSetRelayFunc] exServer)
    as (H4 & H6 & _ & _ & Hle & Hpool & _).
  - unfold GoInt.in_range, GoInt.minInt, GoInt.maxInt. simpl. lia.
  - reflexivity.
  - unfold overheads_ok, GoInt.maxInt. simpl. lia.
  - repeat split; assumption.
Defined.

(** ** Invariants of the whole server *)

Lemma running_workers_insert h id s :
  h !! id = None -> running_workers (<[id := s]> h) = live s + running_workers h.
Proof.
  intros Hid. unfold running_workers.
  rewrite map_fold_insert_L; [reflexivity | intros; lia | exact Hid].
Qed.

Lemma running_workers_update h id s s' :
  h !! id = Some s ->
  running_workers (<[id := s']> h) = running_workers h + (live s' - live s).
Proof.
  intros Hid.
  rewrite <- (insert_delete_eq h id s').
  rewrite running_workers_insert by apply lookup_delete_eq.
  assert (E : running_workers h = live s + running_workers (delete id h)).
  { unfold running_workers.
    apply (map_fold_delete_L (fun _ x acc => live x + acc) 0 id s h);
      [intros; lia | exact Hid]. }
  lia.
Qed.

Lemma live_nonneg s : 0 <= live s.
Proof.
  unfold live, w2p_live, p2w_live.
  destruct (w2p s) as [[]|], (p2w s) as [[]|]; lia.
Qed.

Lemma running_workers_nonneg h : 0 <= running_workers h.
Proof.
  induction h as [|id s h Hid IH] using map_ind.
  - unfold running_workers. rewrite map_fold_empty. lia.
  - rewrite running_workers_insert by exact Hid. pose proof (live_nonneg s). lia.
Qed.

Lemma running_workers_zero h id s :
  running_workers h = 0 -> h !! id = Some s -> live s = 0.
Proof.
  intros H0 Hs.
  pose proof (running_workers_update h id s s Hs) as Hu.
  rewrite <- (insert_delete_eq h id s) in Hu.
  rewrite running_workers_insert in Hu by apply lookup_delete_eq.
  pose proof (running_workers_nonneg (delete id h)).
  pose proof (live_nonneg s). lia.
Qed.

Lemma published_before_later cpp lp p :
  published_before cpp lp ->
  (forall q, cpp = Some q -> (paddr q < paddr p)%nat) ->
  published_before (Some p) lp.
Proof.
  unfold published_before. destruct lp as [q|]; [|auto].
  intros (p0 & -> & Hle & _) Hlt. specialize (Hlt p0 eq_refl).
  exists p. split; [reflexivity|]. split; lia.
Qed.

Lemma sess_ok_mono n n' s : (n <= n')%nat -> sess_ok n s -> sess_ok n' s.
Proof.
  intros Hn (Hc & Hp & Hl & Hpair & Hq). split; [exact Hc|]. split; [|auto].
  intros p Hp'. specialize (Hp p Hp'). lia.
Qed.

Lemma system_ok_frame st st' :
  system_ok st ->
  heap st' = heap st -> table st' = table st -> wg st' = wg st ->
  nextPtr st' = nextPtr st ->
  system_ok st'.
Proof.
  intros (Ht & Hw & Hh & Hsl) Eh Et Ew En. split; [|split; [|split]].
  - intros k id Hk. rewrite Et in Hk. rewrite Eh. apply Ht, Hk.
  - unfold wg_ok. rewrite Ew, Eh. exact Hw.
  - intros id s Hs. rewrite Eh in Hs. rewrite En. apply (Hh id s Hs).
  - intros id s Hs Hl. rewrite Eh in Hs. rewrite Et. apply (Hsl id s Hs Hl).
Qed.

Lemma system_ok_update st st' id s s' dwg :
  system_ok st ->
  heap st !! id = Some s ->
  heap st' = <[id := s']> (heap st) ->
  table st' = table st ->
  wg st' = wg st + dwg ->
  (nextPtr st <= nextPtr st')%nat ->
  sess_step (nextPtr st) (nextPtr st') (table st !! key s = Some id) s s' dwg ->
  system_ok st'.
Proof.
  intros (Ht & Hw & Hh & Hsl) Hs Eh Et Ew En (Hkey & Hcl & Hex & Hlive & Hok & Hslot).
  split; [|split; [|split]].
  - intros k i Hk. rewrite Et in Hk. destruct (Ht k i Hk) as (s0 & Hs0 & Hk0 & Hc0 & Hw0).
    rewrite Eh. destruct (decide (id = i)) as [<-|Hne].
    + rewrite lookup_insert_eq. assert (s0 = s) as -> by congruence.
      exists s'. split; [reflexivity|]. split; [congruence|].
      split; [congruence|]. intros Hx. apply Hw0, Hex, Hx.
    + rewrite lookup_insert_ne by exact Hne. eauto.
  - unfold wg_ok in *. rewrite Ew, Eh, (running_workers_update _ _ s) by exact Hs.
    lia.
  - intros i si Hi. rewrite Eh in Hi. destruct (decide (id = i)) as [<-|Hne].
    + rewrite lookup_insert_eq in Hi. simplify_eq. apply Hok, (Hh id s Hs).
    + rewrite lookup_insert_ne in Hi by exact Hne.
      eapply sess_ok_mono; [exact En | apply (Hh i si Hi)].
  - intros i si Hi Hl. rewrite Eh in Hi. rewrite Et.
    destruct (decide (id = i)) as [<-|Hne].
    + rewrite lookup_insert_eq in Hi. simplify_eq. rewrite Hkey.
      destruct (Hslot Hl) as [Hl'|HT]; [apply (Hsl id s Hs Hl') | exact HT].
    + rewrite lookup_insert_ne in Hi by exact Hne. apply (Hsl i si Hi Hl).
Qed.

Lemma system_ok_create st st' id s' :
  system_ok st ->
  heap st !! id = None ->
  heap st' = <[id := s']> (heap st) ->
  table st' = <[key s' := id]> (table st) ->
  wg st' = wg st ->
  nextPtr st' = nextPtr st ->
  Chan.closed (wgConnSendCh (entry s')) = false ->
  connClosed (wgConn (entry s')) = false ->
  clientPktinfo (entry s') = None ->
  w2p s' = None -> p2w s' = None ->
  Chan.buf (wgConnSendCh (entry s')) = [] ->
  table st !! key s' = None ->
  system_ok st'.
Proof.
  intros (Ht & Hw & Hh & Hsl) Hs Eh Et Ew En Hcl Hconn Hptr Hw2p Hp2w Hbuf Hfree.
  split; [|split; [|split]].
  - intros k i Hk. rewrite Et in Hk. rewrite Eh.
    destruct (decide (key s' = k)) as [<-|Hne].
    + rewrite lookup_insert_eq in Hk. simplify_eq. rewrite lookup_insert_eq.
      exists s'. split; [reflexivity|]. split; [reflexivity|].
      split; [exact Hcl|]. congruence.
    + rewrite lookup_insert_ne in Hk by exact Hne.
      destruct (Ht k i Hk) as (s0 & Hs0 & Hrest).
      rewrite lookup_insert_ne by congruence. eauto.
  - unfold wg_ok in *. rewrite Ew, Eh, running_workers_insert by exact Hs.
    unfold live. rewrite Hw2p, Hp2w. simpl. lia.
  - intros i si Hi. rewrite Eh in Hi. rewrite En.
    destruct (decide (id = i)) as [<-|Hne].
    + rewrite lookup_insert_eq in Hi. simplify_eq.
      split; [congruence|]. split; [congruence|].
      split; [rewrite Hw2p; exact I|]. split; [left; auto|].
      unfold queue_bounded. rewrite Hbuf. simpl. lia.
    + rewrite lookup_insert_ne in Hi by exact Hne. apply (Hh i si Hi).
  - intros i si Hi Hl. rewrite Eh in Hi. rewrite Et.
    destruct (decide (id = i)) as [<-|Hne].
    + rewrite lookup_insert_eq in Hi. simplify_eq. rewrite Hw2p in Hl.
      discriminate.
    + rewrite lookup_insert_ne in Hi by exact Hne.
      pose proof (Hsl i si Hi Hl) as Hslot.
      rewrite lookup_insert_ne by congruence. exact Hslot.
Qed.

(** The teardown: the session's table slot goes together with its channel. *)
Lemma system_ok_teardown st st' id s s' :
  system_ok st ->
  heap st !! id = Some s ->
  heap st' = <[id := s']> (heap st) ->
  table st' = delete (key s) (table st) ->
  wg st' = wg st + (live s' - live s) ->
  nextPtr st' = nextPtr st ->
  key s' = key s ->
  (sess_ok (nextPtr st) s -> sess_ok (nextPtr st) s') ->
  w2p_live (w2p s) = 1 -> w2p_live (w2p s') = 0 ->
  system_ok st'.
Proof.
  intros (Ht & Hw & Hh & Hsl) Hs Eh Et Ew En Hkey Hok Hl1 Hl0.
  split; [|split; [|split]].
  - intros k i Hk. rewrite Et in Hk. apply lookup_delete_Some in Hk as [Hne Hk].
    destruct (Ht k i Hk) as (s0 & Hs0 & Hk0 & Hrest).
    rewrite Eh. destruct (decide (id = i)) as [<-|Hni].
    + assert (s0 = s) as -> by congruence. congruence.
    + rewrite lookup_insert_ne by exact Hni. eauto.
  - unfold wg_ok in *. rewrite Ew, Eh, (running_workers_update _ _ s) by exact Hs.
    lia.
  - intros i si Hi. rewrite Eh in Hi. rewrite En.
    destruct (decide (id = i)) as [<-|Hne].
    + rewrite lookup_insert_eq in Hi. simplify_eq. apply Hok, (Hh id s Hs).
    + rewrite lookup_insert_ne in Hi by exact Hne. apply (Hh i si Hi).
  - intros i si Hi Hl. rewrite Eh in Hi. rewrite Et.
    destruct (decide (id = i)) as [<-|Hne].
    + rewrite lookup_insert_eq in Hi. simplify_eq. lia.
    + rewrite lookup_insert_ne in Hi by exact Hne.
      pose proof (Hsl i si Hi Hl) as Hslot.
      pose proof (Hsl id s Hs Hl1) as Hown.
      rewrite lookup_delete_ne by congruence. exact Hslot.
Qed.

Ltac sys_frame H := eapply (system_ok_frame _ _ H); reflexivity.

Lemma lookup_or_create_sys srv rd b st st' r :
  system_ok st -> lookup_or_create srv rd b st = (st', r) ->
  system_ok st'
  /\ nextPtr st' = nextPtr st
  /\ match r with
     | Found id => table st !! rAddr rd = Some id /\ st' = st
     | Created id _ =>
         table st' !! rAddr rd = Some id
         /\ exists s, heap st' !! id = Some s /\ key s = rAddr rd
                      /\ w2p s = None /\ p2w s = None
                      /\ clientPktinfo (entry s) = None
                      /\ Chan.closed (wgConnSendCh (entry s)) = false
     | NoEntry o => o <> ItPanic \/ sendChannelCapacity srv < 0
     end.
Proof.
  unfold lookup_or_create, SetReadDeadline, openConn, putPacketBuf. intros Hq H.
  destruct (table st !! rAddr rd) eqn:Ht; [simplify_eq; auto|].
  destruct (rListenErr rd);
    [simplify_eq; split; [sys_frame Hq | split; [reflexivity | left; discriminate]]|].
  simpl in H.
  destruct (Chan.make (sendChannelCapacity srv)) as [ch|] eqn:Hch.
  2:{ simplify_eq. split; [sys_frame Hq|]. split; [reflexivity|]. right.
      unfold Chan.make in Hch. destruct (_ <? 0) eqn:E; [|discriminate].
      apply Z.ltb_lt in E. exact E. }
  assert (Hb : Chan.closed ch = false).
  { unfold Chan.make in Hch. destruct (_ <? 0); simplify_eq. reflexivity. }
  assert (Hbuf : Chan.buf ch = []).
  { unfold Chan.make in Hch. destruct (_ <? 0); simplify_eq. reflexivity. }
  destruct (Is4 (ip (rAddr rd)) || Is4In6 (ip (rAddr rd))); simplify_eq/=.
  all: split;
    [|split; [reflexivity|split; [apply lookup_insert_eq|];
              eexists; split; [apply lookup_insert_eq|];
              repeat split; try reflexivity; exact Hb]].
  all: eapply (system_ok_create _ _ _ _ Hq);
    [apply fresh_id_unused | reflexivity | reflexivity | reflexivity | reflexivity
    | exact Hb | reflexivity | reflexivity | reflexivity | reflexivity | exact Hbuf
    | exact Ht].
Qed.

(** A step of the Proxy→Wg worker, or of a sender on its queue. *)
Lemma sess_step_p2w n T s s' dwg :
  key s' = key s ->
  Chan.closed (wgConnSendCh (entry s')) = Chan.closed (wgConnSendCh (entry s)) ->
  w2p s' = w2p s ->
  clientPktinfo (entry s') = clientPktinfo (entry s) ->
  p2w_live (p2w s') = p2w_live (p2w s) + dwg ->
  (is_Some (p2w s) -> is_Some (p2w s')) ->
  (p2w s = None -> p2w s' = None) ->
  (connClosed (wgConn (entry s')) = true -> p2w s' = Some P2WExited) ->
  (queue_bounded s -> queue_bounded s') ->
  sess_step n n T s s' dwg.
Proof.
  intros Hk Hc Hw Hp Hl Hsome Hnone Hconn Hbound.
  split; [exact Hk|]. split; [exact Hc|]. split; [congruence|].
  split; [unfold live; rewrite Hw; lia|].
  split; [|rewrite Hw; auto].
  intros (_ & Hptr & Hloc & Hpair & Hq).
  split; [exact Hconn|]. split; [rewrite Hp; exact Hptr|].
  split; [rewrite Hp, Hw; exact Hloc|]. split; [|auto].
  unfold paired in *. rewrite Hw.
  destruct Hpair as [[H1 H2]|[H1 H2]]; [left | right]; auto.
Qed.

(** A step of the Wg→Proxy worker inside its function. *)
Lemma sess_step_w2p n T s w w' :
  w2p s = Some w -> w <> W2PExited -> w' <> W2PExited ->
  (locals_ok (clientPktinfo (entry s)) (Some w) ->
   locals_ok (clientPktinfo (entry s)) (Some w')) ->
  sess_step n n T s (set_w2p (Some w') s) 0.
Proof.
  intros Hw Hne Hne' Hloc.
  split; [reflexivity|]. split; [reflexivity|].
  split; [simpl; congruence|].
  split; [unfold live; simpl; rewrite Hw; destruct w, w'; simpl; congruence || lia|].
  split; [|intros _; left; rewrite Hw; destruct w; simpl; congruence].
  intros (Hc & Hptr & Hl & Hpair & Hq). split; [exact Hc|]. split; [exact Hptr|].
  split; [simpl; apply Hloc; rewrite <- Hw; exact Hl|]. split; [|exact Hq].
  unfold paired in *. simpl.
  destruct Hpair as [[H1 H2]|[H1 H2]]; [congruence | right; eauto].
Qed.

(** The ingress loop publishes a new pktinfo snapshot. *)
Lemma sess_step_publish n T s cmsg :
  sess_step n (S n) T s
    (with_entry (set_clientPktinfo (Some (mkPtr n cmsg)) cmsg) s) 0.
Proof.
  split; [reflexivity|]. split; [reflexivity|]. split; [auto|].
  split; [unfold live; simpl; lia|].
  split; [|simpl; auto].
  intros (Hc & Hptr & Hl & Hpair & Hq). split; [exact Hc|]. split; [|split].
  - simpl. intros p Hp. simplify_eq. simpl. lia.
  - simpl. unfold locals_ok in *.
    destruct (w2p s) as [[lp|l| | |]|]; auto.
    + eapply published_before_later; [exact Hl | exact Hptr].
    + destruct Hl as [Hl1 Hl2]. split; [|exact Hl2].
      eapply published_before_later; [exact Hl1 | exact Hptr].
  - split; [exact Hpair | exact Hq].
Qed.

Lemma published_before_refl cpp : published_before cpp cpp.
Proof. destruct cpp as [p|]; simpl; eauto. Qed.

(** The ingress loop starts the two workers of a new session. *)
Lemma sess_step_spawn n (T : Prop) s cpp :
  w2p s = None -> p2w s = None ->
  published_before (clientPktinfo (entry s)) cpp ->
  T ->
  sess_step n n T s
    (set_p2w (Some (P2WAtRecv 0 0)) (set_w2p (Some (W2PStarting cpp)) s)) 2.
Proof.
  intros Hw Hp Hpub HT.
  split; [reflexivity|]. split; [reflexivity|]. split; [simpl; discriminate|].
  split; [unfold live; simpl; rewrite Hw, Hp; reflexivity|].
  split; [|auto].
  intros (Hc & Hptr & Hl & Hpair & Hq). split; [|split; [exact Hptr|split]].
  - simpl. intros Hcl. specialize (Hc Hcl). congruence.
  - exact Hpub.
  - split; [right; simpl; eauto | exact Hq].
Qed.

Lemma update_pktinfo_sys env rd b id s st st' r :
  system_ok st -> heap st !! id = Some s ->
  update_pktinfo env rd b id s st = (st', r) ->
  system_ok st'
  /\ table st' = table st
  /\ exists s', heap st' !! id = Some s' /\ key s' = key s
       /\ w2p s' = w2p s /\ p2w s' = p2w s
       /\ Chan.closed (wgConnSendCh (entry s')) = Chan.closed (wgConnSendCh (entry s))
       /\ match r with
          | Some cpp =>
              cpp = clientPktinfo (entry s')
              \/ (cpp = None /\ clientPktinfo (entry s') = clientPktinfo (entry s))
          | None => True
          end.
Proof.
  unfold update_pktinfo, putPacketBuf. intros Hq Hs H.
  destruct (bool_decide _);
    [simplify_eq; split; [exact Hq|]; split; [reflexivity|]; eauto 10|].
  destruct (ParsePktinfoCmsg env (rCmsg rd)); simplify_eq.
  - split; [sys_frame Hq|]. split; [reflexivity|]. eauto 10.
  - split; [|split; [reflexivity|]].
    + eapply (system_ok_update _ _ _ _ _ 0 Hq Hs);
        [reflexivity | reflexivity | simpl; lia | simpl; lia|].
      apply sess_step_publish.
    + eexists. split; [apply lookup_insert_eq|]. simpl. auto 10.
Qed.

Lemma start_workers_sys id mtu cpp st s :
  system_ok st -> heap st !! id = Some s ->
  w2p s = None -> p2w s = None ->
  published_before (clientPktinfo (entry s)) cpp ->
  table st !! key s = Some id ->
  system_ok (start_workers id mtu cpp st)
  /\ exists s', heap (start_workers id mtu cpp st) !! id = Some s'
       /\ Chan.closed (wgConnSendCh (entry s')) = Chan.closed (wgConnSendCh (entry s)).
Proof.
  intros Hq Hs Hw Hp Hpub Hslot. unfold start_workers. rewrite Hs. split.
  - eapply (system_ok_update _ _ _ _ _ 2 Hq Hs);
      [reflexivity | reflexivity | reflexivity | simpl; lia|].
    apply sess_step_spawn; assumption.
  - eexists. split; [apply lookup_insert_eq | reflexivity].
Qed.

Lemma enqueue_sys env id pkt st st' o :
  system_ok st -> enqueue env id pkt st = (st', o) ->
  system_ok st'
  /\ (forall s, heap st !! id = Some s ->
        Chan.closed (wgConnSendCh (entry s)) = false -> o <> ItPanic).
Proof.
  unfold enqueue, panic_ingress, putPacketBuf. intros Hq H.
  destruct (heap st !! id) as [s|] eqn:Hs;
    [|simplify_eq; split; [sys_frame Hq | intros; discriminate]].
  assert (Hconn : connClosed (wgConn (entry s)) = true -> p2w s = Some P2WExited).
  { destruct Hq as (_ & _ & Hh & _). apply (Hh id s Hs). }
  unfold Chan.try_send in H.
  destruct (Chan.closed (wgConnSendCh (entry s))) eqn:Hcl;
    [simplify_eq; split; [sys_frame Hq | intros; congruence]|].
  destruct (parked s) eqn:Hp.
  - unfold parked in Hp. destruct (p2w s) as [[]|] eqn:Hw; try discriminate.
    simplify_eq. split; [|intros; discriminate].
    eapply (system_ok_update _ _ _ _ _ 0 Hq Hs);
      [reflexivity | reflexivity | simpl; lia | simpl; lia|].
    apply sess_step_p2w; simpl; try reflexivity; auto.
    + rewrite Hw. reflexivity.
    + congruence.
    + intros Hc. specialize (Hconn Hc). discriminate.
  - destruct (_ <? _) eqn:Hlt; simplify_eq;
      [|split; [sys_frame Hq | intros; discriminate]].
    split; [|intros; discriminate].
    eapply (system_ok_update _ _ _ _ _ 0 Hq Hs);
      [reflexivity | reflexivity | simpl; lia | simpl; lia|].
    apply sess_step_p2w; simpl; try reflexivity; auto; try lia.
    intros _. unfold queue_bounded. simpl. rewrite length_app. simpl.
    apply Z.ltb_lt in Hlt. lia.
Qed.

Lemma critical_section_sys env srv rd pkt st st' o :
  system_ok st -> critical_section env srv rd pkt st = (st', o) ->
  system_ok st' /\ (0 <= sendChannelCapacity srv -> o <> ItPanic).
Proof.
  unfold critical_section. intros Hq H.
  destruct (lookup_or_create srv rd (qbuf pkt) st) as [st1 r] eqn:E1.
  apply (lookup_or_create_sys _ _ _ _ _ _ Hq) in E1 as (Hq1 & Hn1 & Hr).
  destruct r as [i|i mtu|o1].
  - destruct Hr as [Hti ->]. destruct (Hq) as (Htab & _).
    destruct (Htab _ _ Hti) as (s & Hs & _ & Hcl & _). rewrite Hs in H.
    destruct (update_pktinfo env rd (qbuf pkt) i s st) as [st2 [p|]] eqn:E2;
      apply (update_pktinfo_sys _ _ _ _ _ _ _ _ Hq Hs) in E2
        as (Hq2 & _ & s2 & Hs2 & _ & _ & _ & Hcl2 & _);
      [|simplify_eq; split; [exact Hq2 | intros; discriminate]].
    apply (enqueue_sys _ _ _ _ _ _ Hq2) in H as [Hq3 Hnp].
    split; [exact Hq3|]. intros _. apply (Hnp s2 Hs2). congruence.
  - destruct Hr as (Hslot & s & Hs & Hkey & Hw & Hp & Hptr & Hcl). rewrite Hs in H.
    destruct (update_pktinfo env rd (qbuf pkt) i s st1) as [st2 [p|]] eqn:E2;
      apply (update_pktinfo_sys _ _ _ _ _ _ _ _ Hq1 Hs) in E2
        as (Hq2 & Htab2 & s2 & Hs2 & Hkey2 & Hw2 & Hp2 & Hcl2 & Hcpp);
      [|simplify_eq; split; [exact Hq2 | intros; discriminate]].
    assert (Hpub : published_before (clientPktinfo (entry s2)) p).
    { destruct Hcpp as [-> | [-> _]]; [apply published_before_refl | exact I]. }
    destruct (start_workers_sys i mtu p st2 s2 Hq2 Hs2) as (Hq3 & s3 & Hs3 & Hcl3);
      [congruence | congruence | exact Hpub | rewrite Htab2, Hkey2, Hkey; exact Hslot|].
    apply (enqueue_sys _ _ _ _ _ _ Hq3) in H as [Hq4 Hnp].
    split; [exact Hq4|]. intros _. apply (Hnp s3 Hs3). congruence.
  - simplify_eq. split; [exact Hq1|]. intros Hcap. destruct Hr; [assumption | lia].
Qed.

Lemma ingress_iter_sys env srv rd st st' o :
  system_ok st -> ingress_iter env srv rd st = (st', o) ->
  system_ok st' /\ (0 <= sendChannelCapacity srv -> o <> ItPanic).
Proof.
  unfold ingress_iter, finish_ingress, putPacketBuf, getPacketBuf. intros Hq H.
  destruct (rErr rd) as [e|].
  { destruct (is_deadline e); simplify_eq;
      (split; [sys_frame Hq | intros; discriminate]). }
  destruct (ParseFlagsForError env (rFlags rd));
    [simplify_eq; split; [sys_frame Hq | intros; discriminate]|].
  destruct (DecryptZeroCopy (handler srv) (rBuf rd) 0 (rN rd)) as [?|[[b s0] l0]];
    [simplify_eq; split; [sys_frame Hq | intros; discriminate]|].
  eapply critical_section_sys; [|exact H].
  unfold count_received. destruct (ingress _); sys_frame Hq.
Qed.

Lemma SetReadDeadline_closed t c :
  connClosed (SetReadDeadline t c).1 = connClosed c.
Proof. unfold SetReadDeadline. destruct (connClosed c) eqn:E; simpl; auto. Qed.

Lemma relay_packet_conn srv id e now p c evs c' ok :
  relay_packet srv id e now p c = (evs, c', ok) -> connClosed c' = connClosed c.
Proof.
  unfold relay_packet. intros H.
  pose proof (SetReadDeadline_closed (now + RejectAfterTime) c) as Hd.
  repeat case_match; simplify_eq/=; auto.
Qed.

Ltac sys_update H Hs d :=
  eapply (system_ok_update _ _ _ _ _ d H Hs);
  [reflexivity | reflexivity | simpl; lia | simpl; lia|].

Lemma conn_open_of_running st id s :
  system_ok st -> heap st !! id = Some s -> p2w s <> Some P2WExited ->
  connClosed (wgConn (entry s)) = false.
Proof.
  intros (_ & _ & Hh & _) Hs Hne. destruct (Hh id s Hs) as (Hc & _).
  destruct (connClosed (wgConn (entry s))); [specialize (Hc eq_refl); congruence|].
  reflexivity.
Qed.

Lemma p2w_recv_sys id st st' : system_ok st -> p2w_recv id st = Some st' -> system_ok st'.
Proof.
  unfold p2w_recv, Chan.recv. intros Hq H.
  destruct (heap st !! id) as [s|] eqn:Hs; [|discriminate].
  destruct (p2w s) as [[]|] eqn:Hw; try discriminate.
  assert (Hopen : connClosed (wgConn (entry s)) = false)
    by (eapply conn_open_of_running; eauto; congruence).
  destruct (Chan.buf (wgConnSendCh (entry s))) as [|x rest] eqn:Hb;
    [destruct (Chan.closed (wgConnSendCh (entry s)))|]; simplify_eq;
    sys_update Hq Hs 0.
  all: apply sess_step_p2w; simpl; try reflexivity; try rewrite Hw; simpl;
    eauto; try congruence.
  unfold queue_bounded. simpl. rewrite Hb. simpl. lia.
Qed.

Lemma p2w_process_sys srv id e now st st' :
  system_ok st -> p2w_process srv id e now st = Some st' -> system_ok st'.
Proof.
  unfold p2w_process. intros Hq H.
  destruct (heap st !! id) as [s|] eqn:Hs; [|discriminate].
  destruct (p2w s) as [[]|] eqn:Hw; try discriminate.
  assert (Hopen : connClosed (wgConn (entry s)) = false)
    by (eapply conn_open_of_running; eauto; congruence).
  destruct (relay_packet _ _ _ _ _ _) as [[evs c] ok] eqn:E. simplify_eq.
  apply relay_packet_conn in E.
  sys_update Hq Hs 0.
  apply sess_step_p2w; simpl; try reflexivity; try rewrite Hw; simpl; eauto.
  - destruct ok; reflexivity.
  - congruence.
  - congruence.
Qed.

Lemma p2w_finish_sys id st st' : system_ok st -> p2w_finish id st = Some st' -> system_ok st'.
Proof.
  unfold p2w_finish, Close. intros Hq H.
  destruct (heap st !! id) as [s|] eqn:Hs; [|discriminate].
  destruct (p2w s) as [[]|] eqn:Hw; try discriminate.
  destruct (connClosed (wgConn (entry s))); simplify_eq.
  all: eapply (system_ok_update _ _ _ _ _ (-1) Hq Hs);
    [reflexivity | reflexivity | simpl; lia | simpl; lia|].
  all: apply sess_step_p2w; simpl; try reflexivity; try rewrite Hw; simpl;
    eauto; congruence.
Qed.

Lemma load_pktinfo_ok e l cpi cpp' :
  locals_ok (clientPktinfo e) (Some (W2PLoop l)) ->
  load_pktinfo e l = Some (cpi, cpp') ->
  published_before (clientPktinfo e) cpp' /\ cpi = deref cpp'.
Proof.
  unfold load_pktinfo. intros [Hpub Hbytes] H.
  destruct (ptr_eqb (clientPktinfo e) (lClientPktinfop l)); [simplify_eq; auto|].
  destruct (clientPktinfo e) as [p|]; simplify_eq.
  split; [apply published_before_refl | reflexivity].
Qed.

Lemma w2p_start_sys srv id st st' :
  system_ok st -> w2p_start srv id st = Some st' -> system_ok st'.
Proof.
  unfold w2p_start. intros Hq H.
  destruct (heap st !! id) as [s|] eqn:Hs; [|discriminate].
  destruct (w2p s) as [[lp| | | |]|] eqn:Hw; try discriminate. simplify_eq.
  sys_update Hq Hs 0.
  eapply sess_step_w2p; [exact Hw | discriminate | repeat case_match; discriminate|].
  simpl. intros Hl.
  destruct (maxProxyPacketSize (entry s) <? 0); [exact I|].
  destruct (slice _ _ _); [|exact I].
  simpl. split; [exact Hl | destruct lp; reflexivity].
Qed.

Lemma w2p_iter_sys env srv id rd st st' :
  system_ok st -> w2p_iter env srv id rd st = Some st' -> system_ok st'.
Proof.
  unfold w2p_iter. intros Hq H.
  destruct (heap st !! id) as [s|] eqn:Hs; [|discriminate].
  destruct (w2p s) as [[|l| | |]|] eqn:Hw; try discriminate.
  repeat case_match; simplify_eq; sys_update Hq Hs 0.
  all: eapply sess_step_w2p; [exact Hw | discriminate | discriminate|].
  all: try (simpl; auto; fail).
  all: intros Hl; simpl;
    match goal with
    | Hload : load_pktinfo _ _ = Some _ |- _ =>
        apply (load_pktinfo_ok _ _ _ _ Hl) in Hload as [Hp Hb]
    end;
    split; assumption.
Qed.

Lemma w2p_teardown_sys id st st' :
  system_ok st -> w2p_teardown id st = Some st' -> system_ok st'.
Proof.
  unfold w2p_teardown, Chan.close. intros Hq H.
  destruct (heap st !! id) as [s|] eqn:Hs; [|discriminate].
  destruct (w2p s) as [[]|] eqn:Hw; try discriminate.
  destruct (Chan.closed (wgConnSendCh (entry s))) eqn:Hc; simplify_eq.
  { sys_update Hq Hs 0.
    eapply sess_step_w2p; [exact Hw | discriminate | discriminate | auto]. }
  eapply (system_ok_teardown _ _ _ _ _ Hq Hs);
    [reflexivity | reflexivity | | reflexivity | reflexivity |
    | rewrite Hw; reflexivity | reflexivity].
  - simpl. unfold live, parked. simpl. rewrite Hw. simpl.
    destruct (p2w s) as [[]|]; simpl; lia.
  - intros (Hconn & Hptr & Hl & Hpair & Hbound). unfold parked.
    split; [|split; [exact Hptr | split; [exact I|split; [|exact Hbound]]]].
    + simpl. intros Hcl. specialize (Hconn Hcl). rewrite Hconn. reflexivity.
    + unfold paired in *. simpl. right. split; [eauto|].
      destruct Hpair as [[H1 _]|[_ [w H2]]]; [congruence|].
      rewrite H2. destruct w; eauto.
Qed.

Lemma stop_entry_sys now st kv : system_ok st -> system_ok (stop_entry now st kv).
Proof.
  intros Hq. unfold stop_entry.
  destruct (heap st !! kv.2) as [s|] eqn:Hs; [|exact Hq].
  pose proof (SetReadDeadline_closed now (wgConn (entry s))) as Hd.
  assert (Hconn : connClosed (wgConn (entry s)) = true -> p2w s = Some P2WExited).
  { destruct Hq as (_ & _ & Hh & _). apply (Hh _ _ Hs). }
  destruct (SetReadDeadline now (wgConn (entry s))) as [c [e|]]; simpl in Hd.
  all: sys_update Hq Hs 0.
  all: apply sess_step_p2w; simpl; try reflexivity; auto; try lia.
  all: rewrite Hd; exact Hconn.
Qed.

Lemma Stop_deadlines_sys now st : system_ok st -> system_ok (Stop_deadlines now st).
Proof.
  unfold Stop_deadlines. generalize (map_to_list (table st)). intros l.
  revert st. induction l as [|kv l IH]; intros st Hq; simpl; [exact Hq|].
  apply IH, stop_entry_sys, Hq.
Qed.

Lemma exec_sys env srv a st st' :
  system_ok st -> exec env srv a st = Some st' -> system_ok st'.
Proof.
  intros Hq. destruct a; simpl; intros H.
  - destruct (ingress st); try discriminate. simplify_eq.
    unfold Start. destruct listenErr; sys_frame Hq.
  - destruct (ingress st); try discriminate. simplify_eq.
    destruct (ingress_iter env srv rd st) as [st1 o] eqn:E.
    eapply ingress_iter_sys; eassumption.
  - eapply p2w_recv_sys; eassumption.
  - eapply p2w_process_sys; eassumption.
  - eapply p2w_finish_sys; eassumption.
  - eapply w2p_start_sys; eassumption.
  - eapply w2p_iter_sys; eassumption.
  - eapply w2p_teardown_sys; eassumption.
  - destruct (stopping st); try discriminate.
    unfold Stop_begin in H.
    destruct (proxyConn st) as [c|]; [|simplify_eq; exact Hq].
    destruct (SetReadDeadline now c) as [c' [e|]]; simplify_eq; sys_frame Hq.
  - destruct (stopping st); try discriminate.
    destruct (mwg st =? 0); [|discriminate]. simplify_eq.
    pose proof (Stop_deadlines_sys now st Hq) as Hq'. sys_frame Hq'.
  - destruct (stopping st); try discriminate.
    destruct (wg st =? 0); [|discriminate]. simplify_eq.
    unfold Stop_close. destruct (proxyConn st) as [c|]; [|sys_frame Hq].
    destruct (Close c) as [c' [e|]]; sys_frame Hq.
Qed.

Lemma reachable_system_ok env srv st : reachable env srv st -> system_ok st.
Proof.
  apply (reachable_ind env srv system_ok).
  - split; [|split; [|split]].
    + intros k id H. unfold init in H. simpl in H. rewrite lookup_empty in H.
      discriminate.
    + unfold wg_ok, init, running_workers. simpl. rewrite map_fold_empty. reflexivity.
    + intros id s H. unfold init in H. simpl in H. rewrite lookup_empty in H.
      discriminate.
    + intros id s H. unfold init in H. simpl in H. rewrite lookup_empty in H.
      discriminate.
  - intros a s1 s2 Hq Hex. eapply exec_sys; eassumption.
Qed.

Lemma exAfterFirst_reachable cmsg : reachable exEnv exServer (exAfterFirst cmsg).
Proof. exists [AStart None; AIngress (exRead cmsg)]. reflexivity. Qed.

(** X3. In every reachable state a table slot points to an allocated session
    that was created for that client, whose send channel and upstream socket
    are open, whose workers have not returned, and whose two workers were
    started together or not at all. *)
Theorem table_entries_usable env srv st k id :
  reachable env srv st -> table st !! k = Some id ->
  exists s, heap st !! id = Some s /\ key s = k
            /\ Chan.closed (wgConnSendCh (entry s)) = false
            /\ connClosed (wgConn (entry s)) = false
            /\ w2p s <> Some W2PExited /\ p2w s <> Some P2WExited
            /\ p2w s <> Some P2WLoopDone
            /\ paired s.
Proof.
  intros Hr Hk. pose proof (reachable_queues_ok _ _ _ Hr) as Hq.
  pose proof (reachable_system_ok _ _ _ Hr) as Hsys.
  destruct (Hsys) as (Ht & _ & Hh & _).
  destruct (Ht k id Hk) as (s & Hs & Hkey & Hcl & Hw).
  destruct (Hh id s Hs) as (_ & _ & _ & Hpair & _).
  specialize (Hq id). rewrite Hs in Hq.
  assert (Hp1 : p2w s <> Some P2WExited).
  { intros E. rewrite E in Hq. destruct Hq as (_ & _ & Hc). congruence. }
  assert (Hp2 : p2w s <> Some P2WLoopDone).
  { intros E. rewrite E in Hq. destruct Hq as (_ & _ & Hc). congruence. }
  exists s. split; [exact Hs|]. split; [exact Hkey|]. split; [exact Hcl|].
  split; [eapply conn_open_of_running; eauto|]. auto.
Qed.

Lemma table_entries_usable_witness :
  exists s, heap (exAfterFirst []) !! 0%nat = Some s /\ key s = exClient
            /\ Chan.closed (wgConnSendCh (entry s)) = false
            /\ connClosed (wgConn (entry s)) = false
            /\ w2p s <> Some W2PExited /\ p2w s <> Some P2WExited
            /\ p2w s <> Some P2WLoopDone
            /\ paired s.
Proof.
  apply (table_entries_usable exEnv exServer (exAfterFirst []) exClient 0%nat).
  - apply exAfterFirst_reachable.
  - vm_compute. reflexivity.
Defined.

(** X4. In every reachable state an iteration of the ingress loop does not
    panic, whatever it reads, when the configured channel capacity is not
    negative: the entry the table gives is allocated and the channel it
    sends on is open. *)
Theorem ingress_never_panics env srv st rd :
  reachable env srv st -> 0 <= sendChannelCapacity srv ->
  (ingress_iter env srv rd st).2 <> ItPanic.
Proof.
  intros Hr Hcap. pose proof (reachable_system_ok _ _ _ Hr) as Hsys.
  destruct (ingress_iter env srv rd st) as [st' o] eqn:E. simpl.
  destruct (ingress_iter_sys _ _ _ _ _ _ Hsys E) as [_ Hnp].
  exact (Hnp Hcap).
Qed.

Lemma ingress_never_panics_witness :
  (ingress_iter exEnv exServer (exRead [1]) (exAfterFirst [])).2 <> ItPanic.
Proof.
  apply (ingress_never_panics exEnv exServer (exAfterFirst []) (exRead [1])).
  - apply exAfterFirst_reachable.
  - simpl. lia.
Defined.

Lemma live_zero_gone s : live s = 0 -> w2p_gone (w2p s) /\ p2w_gone (p2w s).
Proof.
  unfold live, w2p_live, p2w_live, w2p_gone, p2w_gone.
  destruct (w2p s) as [[]|], (p2w s) as [[]|]; intros H; try lia; auto.
Qed.

(** X5. In every reachable state the wait group counter [wg] is the number
    of relay goroutines that were started and have not returned; it is never
    negative, and when [Stop] gets past [s.wg.Wait()] to close the proxy
    socket, every worker of every session has returned. *)
Theorem wait_group_counts_workers env srv st :
  reachable env srv st ->
  wg st = running_workers (heap st)
  /\ 0 <= wg st
  /\ (forall st' id s,
        exec env srv AStopClose st = Some st' -> heap st !! id = Some s ->
        w2p_gone (w2p s) /\ p2w_gone (p2w s)).
Proof.
  intros Hr. destruct (reachable_system_ok _ _ _ Hr) as (_ & Hwg & _).
  unfold wg_ok in Hwg. split; [exact Hwg|].
  split; [rewrite Hwg; apply running_workers_nonneg|].
  intros st' id s Hex Hs. simpl in Hex.
  destruct (stopping st); try discriminate.
  destruct (wg st =? 0) eqn:E; [|discriminate]. apply Z.eqb_eq in E.
  apply live_zero_gone. eapply running_workers_zero; [|exact Hs]. congruence.
Qed.

Lemma wait_group_counts_workers_witness :
  wg (exAfterFirst []) = running_workers (heap (exAfterFirst []))
  /\ wg (exAfterFirst []) = 2.
Proof.
  destruct (wait_group_counts_workers exEnv exServer (exAfterFirst []))
    as (Hwg & _ & _).
  - apply exAfterFirst_reachable.
  - split; [exact Hwg | reflexivity].
Defined.

(** X6. In every reachable state the upstream socket of a session whose
    Proxy→Wg worker has not returned is open.  So the worker's loop body on
    a held packet of at least one byte always runs to its end: it emits the
    write, the deadline refresh for a handshake packet and the release of
    the buffer, counts the packet and its length, and is back at the
    receive with the socket open. *)
Theorem p2w_process_in_reachable env srv st id s a b p we now b0 :
  reachable env srv st ->
  heap st !! id = Some s ->
  p2w s = Some (P2WHolding a b p) ->
  in_bounds p -> 1 <= qlength p ->
  qbuf p !! Z.to_nat (qstart p) = Some b0 ->
  connClosed (wgConn (entry s)) = false
  /\ exec env srv (AP2WProcess id we now) st =
       Some (emit (packet_events srv id p (we, now))
               (put_session id
                  (set_p2w (Some (P2WAtRecv (u64 (a + 1)) (u64 (b + u64 (qlength p)))))
                     (with_entry
                        (set_wgConn
                           (if is_handshake b0
                            then mkConn false (Some (now + RejectAfterTime))
                            else wgConn (entry s)))
                        s))
                  st)).
Proof.
  intros Hr Hs Hw Hb Hlen Hfirst.
  pose proof (reachable_system_ok _ _ _ Hr) as Hsys.
  assert (Hopen : connClosed (wgConn (entry s)) = false)
    by (eapply conn_open_of_running; eauto; congruence).
  split; [exact Hopen|].
  simpl. unfold p2w_process. rewrite Hs, Hw.
  unfold packet_events. simpl.
  rewrite (relay_packet_eq srv id we now p _ b0 Hb Hlen Hopen Hfirst).
  rewrite (relay_packet_eq srv id we now p openConn b0 Hb Hlen eq_refl Hfirst).
  reflexivity.
Qed.

(** X7. In every reachable state, what was sent on a session's queue is, in
    order, what its worker has written followed by what the worker holds and
    what is buffered: packets are written in the order they were sent, none
    twice, none skipped; and the queue holds no more packets than its
    capacity.  Before a session is allocated nothing is sent or written
    under its number. *)
Theorem send_queue_fifo env srv st id :
  reachable env srv st ->
  match heap st !! id with
  | Some s =>
      (p2w s <> Some P2WPanicked ->
       map wire (sends id (trace st)) = written id (trace st) ++ map wire (pending s))
      /\ Z.of_nat (length (Chan.buf (wgConnSendCh (entry s))))
         <= Z.max 0 (Chan.cap (wgConnSendCh (entry s)))
  | None => sends id (trace st) = [] /\ written id (trace st) = []
  end.
Proof.
  intros Hr. pose proof (reachable_queues_ok _ _ _ Hr id) as Hq.
  destruct (reachable_system_ok _ _ _ Hr) as (_ & _ & Hh & _).
  destruct (heap st !! id) as [s|] eqn:Hs; [|exact Hq].
  split; [|apply (Hh id s Hs)].
  intros Hnp. unfold pending, queue_inv in *.
  destruct (p2w s) as [[]|]; try exact Hq; try congruence.
  - destruct Hq as [-> ->]. rewrite app_nil_r. reflexivity.
  - destruct Hq as (-> & -> & _). rewrite app_nil_r. reflexivity.
  - destruct Hq as (-> & -> & _). rewrite app_nil_r. reflexivity.
Qed.

Lemma send_queue_fifo_witness :
  match heap (exAfterFirst []) !! 0%nat with
  | Some s =>
      (p2w s <> Some P2WPanicked ->
       map wire (sends 0%nat (trace (exAfterFirst []))) =
         written 0%nat (trace (exAfterFirst [])) ++ map wire (pending s))
      /\ Z.of_nat (length (Chan.buf (wgConnSendCh (entry s))))
         <= Z.max 0 (Chan.cap (wgConnSendCh (entry s)))
  | None => sends 0%nat (trace (exAfterFirst [])) = []
            /\ written 0%nat (trace (exAfterFirst [])) = []
  end.
Proof.
  apply (send_queue_fifo exEnv exServer (exAfterFirst []) 0%nat).
  apply exAfterFirst_reachable.
Defined.

Lemma p2w_process_in_reachable_witness :
  exists st st',
    run exEnv exServer exHoldingRun init = Some st
    /\ exec exEnv exServer (AP2WProcess 0%nat None 7) st = Some st'
    /\ trace st' =
         trace st ++ packet_events exServer 0%nat (mkQueued (exBuf 1) 0 4) (None, 7).
Proof.
  assert (H : exists st s,
             run exEnv exServer exHoldingRun init = Some st
             /\ heap st !! 0%nat = Some s
             /\ p2w s = Some (P2WHolding 0 0 (mkQueued (exBuf 1) 0 4))).
  { do 2 eexists. split; [vm_compute; reflexivity|].
    split; [vm_compute; reflexivity | reflexivity]. }
  destruct H as (st & s & Hrun & Hs & Hw).
  destruct (p2w_process_in_reachable exEnv exServer st 0%nat s 0 0
              (mkQueued (exBuf 1) 0 4) None 7 1) as [_ Hex].
  - exists exHoldingRun. exact Hrun.
  - exact Hs.
  - exact Hw.
  - apply exPacket_in_bounds. lia.
  - simpl. lia.
  - reflexivity.
  - exists st. eexists. split; [exact Hrun|]. split; [exact Hex|]. reflexivity.
Defined.

Lemma load_pktinfo_latest e l :
  locals_ok (clientPktinfo e) (Some (W2PLoop l)) ->
  load_pktinfo e l = Some (deref (clientPktinfo e), clientPktinfo e).
Proof.
  unfold load_pktinfo, ptr_eqb. simpl. intros [Hpub Hbytes].
  destruct (clientPktinfo e) as [p|], (lClientPktinfop l) as [q|]; simpl in *.
  - destruct Hpub as (p' & Hp' & _ & Heq). simplify_eq.
    destruct (Nat.eqb_spec (paddr p') (paddr q)) as [E|]; [|reflexivity].
    rewrite (Heq (eq_sym E)) in *. rewrite Hbytes. reflexivity.
  - reflexivity.
  - destruct Hpub as (p' & Hp' & _). discriminate.
  - rewrite Hbytes. reflexivity.
Qed.

(** X8. In every reachable state the Wg→Proxy worker's reply carries the
    pktinfo bytes the ingress loop published last for the session (none
    before the first publication) and goes to the client the session was
    created for; the worker never follows a nil pointer, and afterwards it
    holds the published pointer. *)
Theorem w2p_reply_uses_published_pktinfo env srv st id s l rd buf' start len pkt :
  reachable env srv st ->
  heap st !! id = Some s ->
  w2p s = Some (W2PLoop l) ->
  wErr rd = None ->
  ParseFlagsForError env (wFlags rd) = None ->
  AddrPortMappedEqual (wSrc rd) (wgAddrPort srv) = true ->
  EncryptZeroCopy (handler srv) (lPacketBuf (after_read srv s rd l))
    (FrontOverhead (handler srv)) (wN rd) = inr (buf', start, len) ->
  slice buf' start (GoInt.add start len) = Some pkt ->
  exists st' l',
    w2p_iter env srv id rd st = Some st'
    /\ trace st' =
         trace st ++ [EvEncrypt id (FrontOverhead (handler srv)) (wN rd);
                      EvProxyWrite pkt (deref (clientPktinfo (entry s))) (key s)]
                  ++ match wWriteErr rd with
                     | Some _ => [EvLog Warn "Failed to write swgpPacket to proxyConn"]
                     | None => []
                     end
    /\ heap st' !! id = Some (set_w2p (Some (W2PLoop l')) s)
    /\ lClientPktinfop l' = clientPktinfo (entry s)
    /\ lClientPktinfo l' = deref (clientPktinfo (entry s))
    /\ lPacketsSent l' = u64 (lPacketsSent l + 1)
    /\ lWgBytesSent l' = u64 (lWgBytesSent l + u64 (wN rd)).
Proof.
  intros Hr Hs Hw He Hf Hsrc Henc Hsl.
  destruct (reachable_system_ok _ _ _ Hr) as (_ & _ & Hh & _).
  destruct (Hh id s Hs) as (_ & _ & Hloc & _). rewrite Hw in Hloc.
  pose proof (load_pktinfo_latest (entry s) l Hloc) as Hload.
  unfold after_read in Henc. simpl in Henc.
  unfold w2p_iter. rewrite Hs, Hw, He, Hf, Hsrc. simpl.
  rewrite Henc, Hsl, Hload.
  do 2 eexists. split; [reflexivity|]. simpl.
  split; [reflexivity|].
  split; [apply lookup_insert_eq|]. simpl. repeat split; reflexivity.
Qed.

Lemma w2p_reply_uses_published_pktinfo_witness :
  exists st st',
    run exEnv exServer exPktinfoRun init = Some st
    /\ w2p_iter exEnv exServer 0%nat exWgRead st = Some st'
    /\ trace st' =
         trace st ++ [EvEncrypt 0%nat 0 4; EvProxyWrite [2; 0; 0; 0] exCmsgB exClient].
Proof.
  assert (H : exists st s l,
             run exEnv exServer exPktinfoRun init = Some st
             /\ heap st !! 0%nat = Some s
             /\ w2p s = Some (W2PLoop l)
             /\ deref (clientPktinfo (entry s)) = exCmsgB
             /\ key s = exClient
             /\ lPacketBuf (after_read exServer s exWgRead l)
                = [2; 0; 0; 0] ++ replicate 1468 0).
  { do 3 eexists. split; [vm_compute; reflexivity|].
    split; [vm_compute; reflexivity|]. split; [reflexivity|].
    split; [reflexivity|]. split; [reflexivity|]. vm_compute. reflexivity. }
  destruct H as (st & s & l & Hrun & Hs & Hw & Hcpp & Hkey & Hbuf).
  destruct (w2p_reply_uses_published_pktinfo exEnv exServer st 0%nat s l exWgRead
              ([2; 0; 0; 0] ++ replicate 1468 0) 0 4 [2; 0; 0; 0])
    as (st' & l' & Hit & Htr & _).
  - exists exPktinfoRun. exact Hrun.
  - exact Hs.
  - exact Hw.
  - reflexivity.
  - reflexivity.
  - reflexivity.
  - rewrite Hbuf. reflexivity.
  - reflexivity.
  - exists st, st'. split; [exact Hrun|]. split; [exact Hit|].
    rewrite Htr, Hcpp, Hkey. reflexivity.
Defined.

(** ** Stop: the deadlines of the sessions *)

Lemma stopped_idem now s : stopped now (stopped now s) = stopped now s.
Proof.
  unfold stopped, SetReadDeadline. destruct s as [k [p c [cl dl] ch m] w1 w2].
  simpl. destruct cl; reflexivity.
Qed.

Lemma stop_entry_heap now st kv i :
  heap (stop_entry now st kv) !! i =
    if decide (i = kv.2) then stopped now <$> heap st !! i else heap st !! i.
Proof.
  unfold stop_entry. destruct (decide (i = kv.2)) as [->|Hne].
  - destruct (heap st !! kv.2) as [s|] eqn:Hs; [|rewrite Hs; reflexivity].
    unfold stopped. cbn [fmap option_fmap option_map].
    destruct (SetReadDeadline now (wgConn (entry s))) as [c [e|]]; simpl;
      rewrite lookup_insert_eq; reflexivity.
  - destruct (heap st !! kv.2) as [s|]; [|reflexivity].
    destruct (SetReadDeadline now (wgConn (entry s))) as [c [e|]]; simpl;
      rewrite lookup_insert_ne by congruence; reflexivity.
Qed.

Lemma stop_entry_control now st kv : same_control st (stop_entry now st kv).
Proof.
  unfold stop_entry, same_control. destruct (heap st !! kv.2) as [s|]; [|auto 10].
  destruct (SetReadDeadline now (wgConn (entry s))) as [c [e|]]; simpl; auto 10.
Qed.

Lemma stop_fold_heap now : forall l st i,
  heap (foldl (stop_entry now) st l) !! i =
    if decide (i ∈ l.*2) then stopped now <$> heap st !! i else heap st !! i.
Proof.
  induction l as [|kv l IH]; intros st i; simpl.
  - destruct (decide (i ∈ [])) as [H|]; [inversion H | reflexivity].
  - rewrite IH, stop_entry_heap.
    destruct (decide (i ∈ l.*2)) as [Hin|Hnin], (decide (i = kv.2)) as [->|Hne].
    + rewrite decide_True by (apply list_elem_of_here).
      destruct (heap st !! kv.2); simpl; [rewrite stopped_idem|]; reflexivity.
    + rewrite decide_True by (apply list_elem_of_further; exact Hin). reflexivity.
    + rewrite decide_True by (apply list_elem_of_here). reflexivity.
    + rewrite decide_False; [reflexivity|].
      intros H. apply elem_of_cons in H as [?|?]; contradiction.
Qed.

Lemma stop_fold_control now : forall l st,
  same_control st (foldl (stop_entry now) st l).
Proof.
  induction l as [|kv l IH]; intros st; simpl.
  - unfold same_control. auto 10.
  - destruct (IH (stop_entry now st kv)) as (H1 & H2 & H3 & H4 & H5 & H6 & H7).
    destruct (stop_entry_control now st kv) as (G1 & G2 & G3 & G4 & G5 & G6 & G7).
    unfold same_control. repeat split; congruence.
Qed.

(** X9. The loop of [Stop] over the table sets the read deadline of the
    upstream socket of every session the table points to (an open socket
    gets the deadline [now]), and changes nothing else: sessions outside
    the table, the table itself, the channels, the workers and the counters
    are as before.  In a reachable state every such socket is open, so
    every session of the table gets the deadline. *)
Theorem Stop_deadlines_reach_every_session env srv now st :
  (forall k i s, table st !! k = Some i -> heap st !! i = Some s ->
     heap (Stop_deadlines now st) !! i = Some (stopped now s)
     /\ key (stopped now s) = key s /\ w2p (stopped now s) = w2p s
     /\ p2w (stopped now s) = p2w s
     /\ wgConnSendCh (entry (stopped now s)) = wgConnSendCh (entry s)
     /\ (connClosed (wgConn (entry s)) = false ->
         wgConn (entry (stopped now s)) = mkConn false (Some now)))
  /\ (forall i, (forall k, table st !! k <> Some i) ->
        heap (Stop_deadlines now st) !! i = heap st !! i)
  /\ same_control st (Stop_deadlines now st)
  /\ (reachable env srv st ->
      forall k i, table st !! k = Some i ->
      exists s', heap (Stop_deadlines now st) !! i = Some s'
                 /\ readDeadline (wgConn (entry s')) = Some now).
Proof.
  assert (Hin : forall i, i ∈ (map_to_list (table st)).*2
                          <-> exists k, table st !! k = Some i).
  { intros i. rewrite list_elem_of_fmap. split.
    - intros ([k j] & -> & Hkj). apply elem_of_map_to_list in Hkj. eauto.
    - intros [k Hk]. exists (k, i). split; [reflexivity|].
      apply elem_of_map_to_list. exact Hk. }
  assert (Hset : forall k i s, table st !! k = Some i -> heap st !! i = Some s ->
                 heap (Stop_deadlines now st) !! i = Some (stopped now s)).
  { intros k i s Hk Hs. unfold Stop_deadlines. rewrite stop_fold_heap.
    rewrite decide_True by (apply Hin; eauto). rewrite Hs. reflexivity. }
  split; [|split; [|split]].
  - intros k i s Hk Hs. split; [eapply Hset; eauto|].
    unfold stopped, SetReadDeadline. simpl. repeat split; try reflexivity.
    intros ->. reflexivity.
  - intros i Hno. unfold Stop_deadlines. rewrite stop_fold_heap.
    rewrite decide_False; [reflexivity|].
    intros H. apply Hin in H as [k Hk]. exact (Hno k Hk).
  - apply stop_fold_control.
  - intros Hr k i Hk.
    pose proof (reachable_queues_ok _ _ _ Hr i) as Hq.
    pose proof (reachable_system_ok _ _ _ Hr) as Hsys.
    destruct (Hsys) as (Ht & _ & _).
    destruct (Ht k i Hk) as (s & Hs & _ & Hcl & _). rewrite Hs in Hq.
    assert (Hopen : connClosed (wgConn (entry s)) = false).
    { eapply conn_open_of_running; eauto. intros E. rewrite E in Hq.
      destruct Hq as (_ & _ & Hc). congruence. }
    exists (stopped now s). split; [eapply Hset; eauto|].
    unfold stopped, SetReadDeadline. rewrite Hopen. reflexivity.
Qed.

Lemma Stop_deadlines_reach_every_session_witness :
  exists s', heap (Stop_deadlines 9 (exAfterFirst [])) !! 0%nat = Some s'
             /\ readDeadline (wgConn (entry s')) = Some 9.
Proof.
  destruct (Stop_deadlines_reach_every_session exEnv exServer 9 (exAfterFirst []))
    as (_ & _ & _ & Hreach).
  apply (Hreach (exAfterFirst_reachable []) exClient 0%nat).
  vm_compute. reflexivity.
Defined.

(** ** Buffers: who gives them back *)

Lemma relay_packet_released srv id e now p c :
  released (relay_packet srv id e now p c).1.1 =
    (if (relay_packet srv id e now p c).2 then [qbuf p] else [])
  /\ outstanding (relay_packet srv id e now p c).1.1 =
       (if (relay_packet srv id e now p c).2 then -1 else 0).
Proof.
  unfold relay_packet, SetReadDeadline.
  repeat case_match; simplify_eq/=; split; reflexivity.
Qed.

(** X10. A buffer taken from the pool by an iteration of the ingress loop is
    given back within that iteration on every path except the one that puts
    it on a send queue (and a panic); a queued buffer is given back exactly
    once by the loop body of the Proxy→Wg worker that takes it, whether or
    not the write succeeded, unless that body panics. *)
Theorem buffers_are_returned env srv :
  (forall rd st,
     outstanding (trace (ingress_iter env srv rd st).1) =
       outstanding (trace st)
       + match (ingress_iter env srv rd st).2 with
         | ItEnqueued | ItPanic => 1
         | _ => 0
         end)
  /\ (forall id e now p c,
        released (relay_packet srv id e now p c).1.1 =
          (if (relay_packet srv id e now p c).2 then [qbuf p] else [])
        /\ outstanding (relay_packet srv id e now p c).1.1 =
             (if (relay_packet srv id e now p c).2 then -1 else 0)).
Proof.
  split.
  - intros rd st. destruct (ingress_iter env srv rd st) as [st' o] eqn:E.
    apply ingress_iter_pool in E. exact E.
  - intros. apply relay_packet_released.
Qed.

(** ** The first datagram of a client *)

(** X11. The first datagram of a client that is not in the table, when it
    reads, validates and decrypts, the socket can be opened, the control
    message is empty or parses, and the channel capacity is at least one:
    the iteration ends with the table pointing to a newly allocated session
    for that client, holding an open socket with read deadline
    now + RejectAfterTime, the packet size of the client's address family,
    the control message published and cached, both workers started, the
    wait group raised by two, and the packet alone in the queue. *)
Theorem first_datagram_creates_session env srv rd st b s0 l0 :
  rErr rd = None ->
  ParseFlagsForError env (rFlags rd) = None ->
  DecryptZeroCopy (handler srv) (rBuf rd) 0 (rN rd) = inr (b, s0, l0) ->
  table st !! rAddr rd = None ->
  rListenErr rd = None ->
  1 <= sendChannelCapacity srv ->
  (rCmsg rd = [] \/ exists r, ParsePktinfoCmsg env (rCmsg rd) = inr r) ->
  let id := fresh (dom (heap st)) in
  let cpp := if bool_decide (rCmsg rd = []) then None
             else Some (mkPtr (nextPtr st) (rCmsg rd)) in
  (ingress_iter env srv rd st).2 = ItEnqueued
  /\ heap st !! id = None
  /\ table (ingress_iter env srv rd st).1 = <[rAddr rd := id]> (table st)
  /\ heap (ingress_iter env srv rd st).1 =
       <[id := mkSession (rAddr rd)
                 (mkEntry cpp (rCmsg rd)
                    (mkConn false (Some (rNow rd + RejectAfterTime)))
                    (Chan.mk [mkQueued b s0 l0] (sendChannelCapacity srv) false)
                    (size_for srv (rAddr rd)))
                 (Some (W2PStarting cpp)) (Some (P2WAtRecv 0 0))]> (heap st)
  /\ wg (ingress_iter env srv rd st).1 = wg st + 2.
Proof.
  intros Herr Hflags Hdec Hnew Hlisten Hcap Hcmsg id cpp.
  assert (Hc : Chan.make (A := queuedPacket) (sendChannelCapacity srv)
               = Some (Chan.mk [] (sendChannelCapacity srv) false)).
  { unfold Chan.make. destruct (sendChannelCapacity srv <? 0) eqn:E;
      [apply Z.ltb_lt in E; lia | reflexivity]. }
  assert (Hlt : (0 <? sendChannelCapacity srv) = true) by (apply Z.ltb_lt; lia).
  set (st0 := count_received l0 (getPacketBuf st)).
  assert (H0 : table st0 = table st /\ heap st0 = heap st /\ wg st0 = wg st
               /\ nextPtr st0 = nextPtr st).
  { unfold st0, count_received, getPacketBuf. simpl.
    destruct (ingress st); simpl; auto. }
  destruct H0 as (Htab & Hh & Hwg & Hnp).
  unfold ingress_iter. rewrite Herr, Hflags, Hdec. fold st0.
  unfold critical_section, lookup_or_create.
  rewrite Htab, Hnew, Hlisten. cbn [SetReadDeadline openConn connClosed].
  rewrite Hc, Hh. fold id.
  unfold size_for, cpp.
  destruct (Is4 (ip (rAddr rd)) || Is4In6 (ip (rAddr rd)));
    cbn [heap set_table put_session set_heap]; rewrite lookup_insert_eq;
    unfold update_pktinfo; cbn [entry clientPktinfoCache qbuf];
    (destruct (decide (rCmsg rd = [])) as [Hnil|Hne];
     [rewrite !bool_decide_eq_true_2 by congruence
     |destruct Hcmsg as [Hnil | [r Hparse]]; [contradiction|];
      rewrite !bool_decide_eq_false_2 by congruence; rewrite Hparse]);
    unfold start_workers; cbn -[Z.ltb]; rewrite lookup_insert_eq;
    unfold enqueue; cbn -[Z.ltb]; rewrite lookup_insert_eq; cbn -[Z.ltb];
    change (Z.of_nat 0) with 0; rewrite Hlt; cbn;
    rewrite ?Htab, ?Hwg, ?Hh, ?Hnp, ?insert_insert_eq, ?Hnil;
    (split; [reflexivity|]); (split; [apply fresh_id_unused|]);
    (split; [reflexivity|]); (split; reflexivity).
Qed.

Lemma first_datagram_creates_session_witness :
  (ingress_iter exEnv exServer (exRead exCmsgA) (Start None init).1).2 = ItEnqueued
  /\ wg (ingress_iter exEnv exServer (exRead exCmsgA) (Start None init).1).1 = 0 + 2.
Proof.
  destruct (first_datagram_creates_session exEnv exServer (exRead exCmsgA)
              (Start None init).1 (exBuf 1) 0 4)
    as (Ho & _ & _ & _ & Hwg).
  - reflexivity.
  - reflexivity.
  - reflexivity.
  - reflexivity.
  - reflexivity.
  - simpl. lia.
  - right. eexists. reflexivity.
  - split; [exact Ho | exact Hwg].
Defined.

(** ** The table: who adds, who removes *)

(** X12. In every reachable state a session whose Wg→Proxy worker has left
    its loop is still in the table under its client's address with its send
    channel open, so the teardown never closes a closed channel: it closes
    the channel, deletes exactly that slot, wakes a parked Proxy→Wg worker,
    and lowers the wait group by one. *)
Theorem teardown_removes_own_slot env srv st id s :
  reachable env srv st ->
  heap st !! id = Some s ->
  w2p s = Some W2PLoopDone ->
  table st !! key s = Some id
  /\ Chan.closed (wgConnSendCh (entry s)) = false
  /\ exists st' s',
       w2p_teardown id st = Some st'
       /\ table st' = delete (key s) (table st)
       /\ heap st' = <[id := s']> (heap st)
       /\ w2p s' = Some W2PExited
       /\ p2w s' = (if parked s then Some P2WLoopDone else p2w s)
       /\ wgConnSendCh (entry s') =
            Chan.mk (Chan.buf (wgConnSendCh (entry s)))
                    (Chan.cap (wgConnSendCh (entry s))) true
       /\ wg st' = wg st - 1.
Proof.
  intros Hr Hs Hw.
  destruct (reachable_system_ok _ _ _ Hr) as (Ht & _ & _ & Hsl).
  assert (Hslot : table st !! key s = Some id).
  { apply (Hsl id s Hs). rewrite Hw. reflexivity. }
  destruct (Ht _ _ Hslot) as (s0 & Hs0 & _ & Hcl & _).
  assert (s0 = s) as -> by congruence.
  split; [exact Hslot|]. split; [exact Hcl|].
  unfold w2p_teardown, Chan.close. rewrite Hs, Hw, Hcl.
  do 2 eexists. split; [reflexivity|]. simpl. repeat split; reflexivity.
Qed.

Lemma teardown_removes_own_slot_witness :
  exists st st',
    run exEnv exServer exTeardownRun init = Some st
    /\ table st !! exClient = Some 0%nat
    /\ w2p_teardown 0%nat st = Some st'
    /\ table st' = delete exClient (table st)
    /\ wg st' = wg st - 1.
Proof.
  assert (H : exists st s,
             run exEnv exServer exTeardownRun init = Some st
             /\ heap st !! 0%nat = Some s
             /\ w2p s = Some W2PLoopDone /\ key s = exClient).
  { do 2 eexists. split; [vm_compute; reflexivity|].
    split; [vm_compute; reflexivity|]. split; reflexivity. }
  destruct H as (st & s & Hrun & Hs & Hw & Hkey).
  destruct (teardown_removes_own_slot exEnv exServer st 0%nat s)
    as (Hslot & _ & st' & s' & Htd & Htab & _ & _ & _ & _ & Hwg).
  - exists exTeardownRun. exact Hrun.
  - exact Hs.
  - exact Hw.
  - exists st, st'. rewrite Hkey in *. auto.
Defined.

Lemma touches_same k st st' :
  heap st' = heap st -> table st' = table st ->
  proxyConn st' = proxyConn st -> stopping st' = stopping st ->
  mwg st' = mwg st ->
  (ingress st' = ingress st \/ ingress st' = IngressPanicked) ->
  touches k st st'.
Proof.
  intros Hh Ht Hp Hs Hm Hi. unfold touches. rewrite Hh, Ht.
  repeat split; auto.
Qed.

Lemma touches_trans k st1 st2 st3 :
  touches k st1 st2 -> touches k st2 st3 -> touches k st1 st3.
Proof.
  intros (A1 & B1 & C1 & D1 & E1 & F1 & G1) (A2 & B2 & C2 & D2 & E2 & F2 & G2).
  unfold touches. repeat split.
  - intros k' Hk'. rewrite A2, A1 by exact Hk'. reflexivity.
  - intros j Hj. apply B2, B1, Hj.
  - intros i Hi. rewrite C2 by exact Hi. apply C1.
    intros Hc. apply Hi, B2, Hc.
  - congruence.
  - congruence.
  - congruence.
  - destruct G2 as [G2|G2]; [rewrite G2; exact G1 | right; exact G2].
Qed.

Lemma touches_update k st st' id s' :
  table st !! k = Some id ->
  heap st' = <[id := s']> (heap st) -> table st' = table st ->
  proxyConn st' = proxyConn st -> stopping st' = stopping st ->
  mwg st' = mwg st -> ingress st' = ingress st ->
  touches k st st'.
Proof.
  intros Hk Hh Ht Hp Hs Hm Hi. unfold touches. rewrite Hh, Ht.
  repeat split; auto.
  intros i Hne. apply lookup_insert_ne. congruence.
Qed.

Ltac t_same :=
  apply touches_same;
  [reflexivity | reflexivity | reflexivity | reflexivity | reflexivity
  | first [left; reflexivity | right; reflexivity]].

Lemma lookup_or_create_touches srv rd b st st' r :
  lookup_or_create srv rd b st = (st', r) ->
  touches (rAddr rd) st st'
  /\ match r with
     | Found id | Created id _ => table st' !! rAddr rd = Some id
     | NoEntry _ => True
     end.
Proof.
  unfold lookup_or_create, SetReadDeadline, openConn, putPacketBuf. intros H.
  destruct (table st !! rAddr rd) eqn:Ht; [simplify_eq; split; [t_same | exact Ht]|].
  destruct (rListenErr rd); [simplify_eq; split; [t_same | exact I]|].
  simpl in H.
  destruct (Chan.make (sendChannelCapacity srv)) as [ch|];
    [|simplify_eq; split; [t_same | exact I]].
  destruct (Is4 (ip (rAddr rd)) || Is4In6 (ip (rAddr rd))); simplify_eq/=.
  all: split; [|apply lookup_insert_eq].
  all: unfold touches; simpl; repeat split; auto.
  all: try (intros k' Hk'; apply lookup_insert_ne; congruence).
  all: try (intros j Hj; congruence).
  all: intros i Hi; rewrite lookup_insert_eq in Hi;
    apply lookup_insert_ne; congruence.
Qed.

Lemma update_pktinfo_touches env rd b id s st st' r :
  table st !! rAddr rd = Some id ->
  update_pktinfo env rd b id s st = (st', r) -> touches (rAddr rd) st st'.
Proof.
  unfold update_pktinfo, putPacketBuf. intros Hk H.
  destruct (bool_decide _); [simplify_eq; t_same|].
  destruct (ParsePktinfoCmsg env (rCmsg rd)); simplify_eq; [t_same|].
  eapply touches_update; [exact Hk | reflexivity..].
Qed.

Lemma start_workers_touches k id mtu p st :
  table st !! k = Some id -> touches k st (start_workers id mtu p st).
Proof.
  intros Hk. unfold start_workers. destruct (heap st !! id); [|t_same].
  eapply touches_update; [exact Hk | reflexivity..].
Qed.

Lemma enqueue_touches k env id pkt st st' o :
  table st !! k = Some id -> enqueue env id pkt st = (st', o) -> touches k st st'.
Proof.
  unfold enqueue, panic_ingress, putPacketBuf. intros Hk H.
  destruct (heap st !! id) as [s|]; [|simplify_eq; t_same].
  destruct (Chan.try_send _ _ _); simplify_eq; try t_same.
  - destruct (p2w s) as [[]|]; simplify_eq; try t_same.
    eapply touches_update; [exact Hk | reflexivity..].
  - eapply touches_update; [exact Hk | reflexivity..].
Qed.

Lemma critical_section_touches env srv rd pkt st st' o :
  critical_section env srv rd pkt st = (st', o) -> touches (rAddr rd) st st'.
Proof.
  unfold critical_section. intros H.
  destruct (lookup_or_create srv rd (qbuf pkt) st) as [st1 r] eqn:E1.
  apply lookup_or_create_touches in E1 as [T1 Hslot].
  assert (Hrest : forall i f,
            table st1 !! rAddr rd = Some i ->
            (forall p st2, table st2 !! rAddr rd = Some i ->
                           touches (rAddr rd) st2 (f p st2)) ->
            match heap st1 !! i with
            | Some s =>
                match update_pktinfo env rd (qbuf pkt) i s st1 with
                | (st2, Some p) => enqueue env i pkt (f p st2)
                | (st2, None) => (st2, ItPktinfoErr)
                end
            | None => panic_ingress st1
            end = (st', o) ->
            touches (rAddr rd) st st').
  { intros i f Hi Hf Hm.
    destruct (heap st1 !! i) as [s|];
      [|unfold panic_ingress in Hm; simplify_eq;
        eapply touches_trans; [exact T1 | t_same]].
    destruct (update_pktinfo env rd (qbuf pkt) i s st1) as [st2 [p|]] eqn:E2;
      apply (update_pktinfo_touches _ _ _ _ _ _ _ _ Hi) in E2;
      [|simplify_eq; eapply touches_trans; eassumption].
    assert (Hi2 : table st2 !! rAddr rd = Some i)
      by (destruct E2 as (_ & B & _); apply B, Hi).
    pose proof (Hf p st2 Hi2) as T3.
    assert (Hi3 : table (f p st2) !! rAddr rd = Some i)
      by (destruct T3 as (_ & B & _); apply B, Hi2).
    apply (enqueue_touches _ _ _ _ _ _ _ Hi3) in Hm.
    eapply touches_trans; [exact T1|].
    eapply touches_trans; [exact E2|].
    eapply touches_trans; [exact T3 | exact Hm]. }
  destruct r as [i|i mtu|o1]; [| |simplify_eq; exact T1].
  - apply (Hrest i (fun _ st2 => st2)); [exact Hslot | | exact H].
    intros. t_same.
  - apply (Hrest i (fun p st2 => start_workers i mtu p st2)); [exact Hslot | | exact H].
    intros. apply start_workers_touches. assumption.
Qed.

Lemma ingress_iter_touches env srv rd st n b :
  ingress st = IngressRunning n b ->
  (forall k', k' <> rAddr rd ->
     table (ingress_iter env srv rd st).1 !! k' = table st !! k')
  /\ (forall j, table st !! rAddr rd = Some j ->
        table (ingress_iter env srv rd st).1 !! rAddr rd = Some j)
  /\ (forall i, table (ingress_iter env srv rd st).1 !! rAddr rd <> Some i ->
        heap (ingress_iter env srv rd st).1 !! i = heap st !! i)
  /\ proxyConn (ingress_iter env srv rd st).1 = proxyConn st
  /\ stopping (ingress_iter env srv rd st).1 = stopping st
  /\ (ingress (ingress_iter env srv rd st).1 = IngressExited
      /\ mwg (ingress_iter env srv rd st).1 = mwg st - 1
      /\ table (ingress_iter env srv rd st).1 = table st
      /\ heap (ingress_iter env srv rd st).1 = heap st
      \/ mwg (ingress_iter env srv rd st).1 = mwg st
         /\ ((exists n' b', ingress (ingress_iter env srv rd st).1
                            = IngressRunning n' b')
             \/ ingress (ingress_iter env srv rd st).1 = IngressPanicked)).
Proof.
  intros Hi.
  unfold ingress_iter, finish_ingress, putPacketBuf, getPacketBuf.
  destruct (rErr rd) as [e|].
  { destruct (is_deadline e); simpl; repeat (split; [solve [auto]|]).
    - left. auto.
    - right. rewrite Hi. eauto. }
  destruct (ParseFlagsForError env (rFlags rd)).
  { simpl; repeat (split; [solve [auto]|]). right. rewrite Hi. eauto. }
  destruct (DecryptZeroCopy (handler srv) (rBuf rd) 0 (rN rd)) as [?|[[pb s0] l0]].
  { simpl; repeat (split; [solve [auto]|]). right. rewrite Hi. eauto. }
  set (st0 := count_received l0 (emit [EvGetBuf] st)).
  assert (H0 : table st0 = table st /\ heap st0 = heap st
               /\ proxyConn st0 = proxyConn st /\ stopping st0 = stopping st
               /\ mwg st0 = mwg st
               /\ exists n' b', ingress st0 = IngressRunning n' b').
  { unfold st0, count_received. simpl. rewrite Hi. simpl. eauto 10. }
  destruct H0 as (Ht0 & Hh0 & Hp0 & Hs0 & Hm0 & n' & b' & Hi0).
  destruct (critical_section env srv rd (mkQueued pb s0 l0) st0) as [st' o] eqn:E.
  apply critical_section_touches in E as (A & B & C & D & F & G & I).
  simpl. rewrite <- Ht0, <- Hh0, <- Hp0, <- Hs0, <- Hm0.
  split; [exact A|]. split; [exact B|]. split; [exact C|].
  split; [exact D|]. split; [exact F|]. right.
  split; [exact G|].
  destruct I as [I|I]; [left; rewrite I; eauto | right; exact I].
Qed.

(** A worker's step: its own session, and for the teardown its table slot. *)
Lemma worker_step_effect env srv a id st st' :
  worker_of a = Some id -> exec env srv a st = Some st' ->
  (forall i, i <> id -> heap st' !! i = heap st !! i)
  /\ (table st' = table st
      \/ a = AW2PTeardown id
         /\ exists s, heap st !! id = Some s /\ table st' = delete (key s) (table st))
  /\ proxyConn st' = proxyConn st /\ stopping st' = stopping st
  /\ mwg st' = mwg st /\ ingress st' = ingress st /\ nextPtr st' = nextPtr st.
Proof.
  intros Ha H.
  assert (Hne : forall (h : gmap nat session) s i, i <> id -> <[id := s]> h !! i = h !! i)
    by (intros; apply lookup_insert_ne; congruence).
  destruct a; simpl in Ha; simplify_eq; simpl in H.
  - unfold p2w_recv in H. repeat case_match; simplify_eq; simpl; auto 10.
  - unfold p2w_process in H. repeat case_match; simplify_eq; simpl; auto 10.
  - unfold p2w_finish in H. repeat case_match; simplify_eq; simpl; auto 10.
  - unfold w2p_start in H. repeat case_match; simplify_eq; simpl; auto 10.
  - unfold w2p_iter in H.
    destruct (heap st !! id) as [s|]; [|discriminate].
    destruct (w2p s) as [[]|]; try discriminate.
    repeat case_match; simplify_eq; simpl; auto 10.
  - unfold w2p_teardown in H.
    destruct (heap st !! id) as [s|] eqn:Hs; [|discriminate].
    destruct (w2p s) as [[]|]; try discriminate.
    destruct (Chan.close _); simplify_eq; simpl; [|auto 10].
    split; [auto|]. split; [right; eauto|]. auto.
Qed.

Lemma exec_control env srv a st st' :
  control_ok st -> exec env srv a st = Some st' -> control_ok st'.
Proof.
  intros (Hm & Hp & Hs) H.
  destruct (worker_of a) as [id|] eqn:Ha.
  { destruct (worker_step_effect _ _ _ _ _ _ Ha H) as (_ & _ & E1 & E2 & E3 & E4 & _).
    unfold control_ok. rewrite E1, E2, E3, E4. auto. }
  destruct a; simpl in Ha; try discriminate; simpl in H.
  - destruct (ingress st) eqn:Hi; try discriminate. simplify_eq.
    unfold Start. destruct listenErr; simpl; unfold control_ok; simpl.
    + rewrite Hi. split; [exact Hm|]. split; [congruence|].
      intros Hst. specialize (Hs Hst). specialize (Hp Hs). congruence.
    + split; [lia|]. split; discriminate.
  - destruct (ingress st) as [|n b| |] eqn:Hi; try discriminate. simplify_eq.
    destruct (ingress_iter_touches env srv rd st n b Hi)
      as (_ & _ & _ & E1 & E2 & [(E3 & E4 & _)|(E3 & E4)]).
    + unfold control_ok. rewrite E1, E2, E3, E4. split; [lia|].
      split; [discriminate | exact Hs].
    + unfold control_ok. rewrite E1, E2, E3.
      destruct E4 as [(n' & b' & ->)| ->]; (split; [exact Hm|]);
        (split; [discriminate | exact Hs]).
  - destruct (stopping st) eqn:Hst; try discriminate.
    unfold Stop_begin in H.
    destruct (proxyConn st) as [c|] eqn:Hc.
    + destruct (SetReadDeadline now c) as [c' [e|]]; simplify_eq;
        unfold control_ok; simpl; rewrite ?Hst.
      * split; [exact Hm|]. split; [intros _; apply Hp; congruence | congruence].
      * split; [exact Hm|]. split; [intros _; apply Hp; congruence | discriminate].
    + simplify_eq. unfold control_ok. rewrite Hc, Hst. auto.
  - destruct (stopping st) as [|t|] eqn:Hst; try discriminate.
    destruct (mwg st =? 0); [|discriminate]. simplify_eq.
    destruct (stop_fold_control t (map_to_list (table st)) st)
      as (_ & _ & E1 & E2 & E3 & _).
    unfold control_ok, Stop_deadlines. simpl. rewrite E1, E2, E3.
    split; [exact Hm|]. split; [exact Hp|]. intros _. apply Hs. discriminate.
  - destruct (stopping st) eqn:Hst; try discriminate.
    destruct (wg st =? 0); [|discriminate]. simplify_eq.
    unfold Stop_close, Close.
    destruct (proxyConn st) as [c|] eqn:Hc; simpl.
    + destruct (connClosed c); unfold control_ok; simpl;
        (split; [exact Hm|]); (split; [intros _; apply Hp; congruence | congruence]).
    + unfold control_ok. simpl. rewrite Hc. auto.
Qed.

Lemma reachable_control_ok env srv st : reachable env srv st -> control_ok st.
Proof.
  apply (reachable_ind env srv control_ok).
  - unfold control_ok, init. simpl. auto.
  - intros a s1 s2 Hq Hex. eapply exec_control; eassumption.
Qed.

(** X13. Sessions do not interfere.  An iteration of the ingress loop
    leaves every table slot of another client as it was, never removes or
    redirects the slot of the datagram's client, and changes no session
    other than the one that slot gives afterwards.  A step of a session's
    worker changes no other session, and leaves the table alone except for
    the teardown, which deletes the slot of its own client. *)
Theorem session_isolation env srv :
  (forall rd st n b,
     ingress st = IngressRunning n b ->
     (forall k', k' <> rAddr rd ->
        table (ingress_iter env srv rd st).1 !! k' = table st !! k')
     /\ (forall j, table st !! rAddr rd = Some j ->
           table (ingress_iter env srv rd st).1 !! rAddr rd = Some j)
     /\ (forall i, table (ingress_iter env srv rd st).1 !! rAddr rd <> Some i ->
           heap (ingress_iter env srv rd st).1 !! i = heap st !! i))
  /\ (forall a id st st',
        worker_of a = Some id -> exec env srv a st = Some st' ->
        (forall i, i <> id -> heap st' !! i = heap st !! i)
        /\ (table st' = table st
            \/ a = AW2PTeardown id
               /\ exists s, heap st !! id = Some s
                            /\ table st' = delete (key s) (table st))).
Proof.
  split.
  - intros rd st n b Hi.
    destruct (ingress_iter_touches env srv rd st n b Hi) as (A & B & C & _).
    auto.
  - intros a id st st' Ha H.
    destruct (worker_step_effect _ _ _ _ _ _ Ha H) as (A & B & _). auto.
Qed.

Lemma session_isolation_witness :
  heap (ingress_iter exEnv exServer exRead2 (exAfterFirst [])).1 !! 0%nat
    = heap (exAfterFirst []) !! 0%nat
  /\ table (ingress_iter exEnv exServer exRead2 (exAfterFirst [])).1 !! exClient
     = Some 0%nat.
Proof.
  destruct (session_isolation exEnv exServer) as [Hing _].
  destruct (Hing exRead2 (exAfterFirst []) 1 4) as (_ & Hkeep & Hheap).
  - reflexivity.
  - split.
    + apply Hheap. vm_compute. discriminate.
    + destruct (session_isolation exEnv exServer) as [Hing' _].
      destruct (Hing' exRead2 (exAfterFirst []) 1 4 eq_refl) as (Hother & _ & _).
      rewrite Hother by discriminate. vm_compute. reflexivity.
Defined.

(** X14. In every reachable state [mwg] is one exactly while the ingress
    goroutine has been started and has not returned.  So when [Stop] gets
    past [s.mwg.Wait()] the ingress loop has exited, and from then on no
    step adds a table entry: the table only shrinks. *)
Theorem no_sessions_after_ingress_exit env srv st :
  reachable env srv st ->
  (mwg st = 0 <-> ingress st = IngressNotStarted \/ ingress st = IngressExited)
  /\ (forall st', exec env srv AStopDeadlines st = Some st' ->
        ingress st = IngressExited)
  /\ (ingress st = IngressExited ->
      forall a st', exec env srv a st = Some st' ->
      ingress st' = IngressExited
      /\ forall k id, table st' !! k = Some id -> table st !! k = Some id).
Proof.
  intros Hr. destruct (reachable_control_ok _ _ _ Hr) as (Hm & Hp & Hs).
  split; [|split].
  - rewrite Hm. destruct (ingress st); split; intros H; auto; try lia;
      destruct H; discriminate.
  - intros st' H. simpl in H.
    destruct (stopping st) eqn:Hst; try discriminate.
    destruct (mwg st =? 0) eqn:E; [|discriminate]. apply Z.eqb_eq in E.
    assert (Hc : proxyConn st <> None) by (apply Hs; congruence).
    specialize (Hp Hc). rewrite E in Hm.
    destruct (ingress st); try lia; congruence.
  - intros Hi a st' H.
    destruct (worker_of a) as [id|] eqn:Ha.
    { destruct (worker_step_effect _ _ _ _ _ _ Ha H)
        as (_ & Ht & _ & _ & _ & Hi' & _).
      split; [congruence|]. intros k i Hk.
      destruct Ht as [Ht | (_ & s & _ & Ht)]; rewrite Ht in Hk; [exact Hk|].
      apply lookup_delete_Some in Hk. tauto. }
    destruct a; simpl in Ha; try discriminate; simpl in H.
    + rewrite Hi in H. discriminate.
    + rewrite Hi in H. discriminate.
    + destruct (stopping st); try discriminate. unfold Stop_begin in H.
      destruct (proxyConn st) as [c|]; [|simplify_eq; auto].
      destruct (SetReadDeadline now c) as [c' [e|]]; simplify_eq; simpl; auto.
    + destruct (stopping st) as [|t|]; try discriminate.
      destruct (mwg st =? 0); [|discriminate]. simplify_eq.
      destruct (stop_fold_control t (map_to_list (table st)) st)
        as (E1 & _ & _ & E2 & _).
      unfold Stop_deadlines. simpl. rewrite E1, E2. auto.
    + destruct (stopping st); try discriminate.
      destruct (wg st =? 0); [|discriminate]. simplify_eq.
      unfold Stop_close. destruct (proxyConn st) as [c|]; simpl; [|auto].
      destruct (Close c) as [c' [e|]]; simpl; auto.
Qed.

Lemma no_sessions_after_ingress_exit_witness :
  exists st st',
    run exEnv exServer exIngressGoneRun init = Some st
    /\ ingress st = IngressExited /\ mwg st = 0
    /\ exec exEnv exServer AStopDeadlines st = Some st'
    /\ ingress st' = IngressExited
    /\ forall k id, table st' !! k = Some id -> table st !! k = Some id.
Proof.
  assert (H : exists st st',
             run exEnv exServer exIngressGoneRun init = Some st
             /\ ingress st = IngressExited /\ mwg st = 0
             /\ exec exEnv exServer AStopDeadlines st = Some st').
  { do 2 eexists. split; [vm_compute; reflexivity|].
    split; [reflexivity|]. split; [reflexivity|]. vm_compute. reflexivity. }
  destruct H as (st & st' & Hrun & Hi & Hm & Hex).
  destruct (no_sessions_after_ingress_exit exEnv exServer st) as (_ & _ & Hafter).
  - exists exIngressGoneRun. exact Hrun.
  - destruct (Hafter Hi AStopDeadlines st' Hex) as [Hi' Htab].
    exists st, st'. auto 10.
Defined.

(** ** A datagram of a known client *)

Lemma kept_refl s : kept s s.
Proof. unfold kept. auto 10. Qed.

Lemma kept_trans s1 s2 s3 : kept s1 s2 -> kept s2 s3 -> kept s1 s3.
Proof.
  intros (A1 & B1 & C1 & D1 & E1 & F1 & G1) (A2 & B2 & C2 & D2 & E2 & F2 & G2).
  unfold kept. repeat split; try congruence.
  destruct G1 as [G1|(a & b & p & G1 & G1')], G2 as [G2|(a' & b' & p' & G2 & G2')].
  - left. congruence.
  - right. exists a', b', p'. split; congruence.
  - right. exists a, b, p. split; congruence.
  - congruence.
Qed.

Lemma keeps_same id st st' :
  heap st' = heap st -> table st' = table st -> wg st' = wg st -> keeps id st st'.
Proof.
  intros Hh Ht Hw. unfold keeps. rewrite Hh. repeat split; auto.
  intros s Hs. exists s. split; [exact Hs | apply kept_refl].
Qed.

Lemma keeps_update id st st' s s' :
  heap st !! id = Some s -> kept s s' ->
  heap st' = <[id := s']> (heap st) -> table st' = table st -> wg st' = wg st ->
  keeps id st st'.
Proof.
  intros Hs Hk Hh Ht Hw. unfold keeps. rewrite Hh. repeat split; auto.
  - intros i Hi. apply lookup_insert_ne. congruence.
  - intros s0 Hs0. assert (s0 = s) as -> by congruence.
    exists s'. split; [apply lookup_insert_eq | exact Hk].
Qed.

Lemma keeps_trans id st1 st2 st3 :
  keeps id st1 st2 -> keeps id st2 st3 -> keeps id st1 st3.
Proof.
  intros (A1 & B1 & C1 & D1) (A2 & B2 & C2 & D2). unfold keeps.
  repeat split; try congruence.
  - intros i Hi. rewrite C2, C1 by exact Hi. reflexivity.
  - intros s Hs. destruct (D1 s Hs) as (s2 & Hs2 & K1).
    destruct (D2 s2 Hs2) as (s3 & Hs3 & K2).
    exists s3. split; [exact Hs3 | eapply kept_trans; eassumption].
Qed.

Lemma update_pktinfo_keeps env rd b id s st st' r :
  heap st !! id = Some s ->
  update_pktinfo env rd b id s st = (st', r) -> keeps id st st'.
Proof.
  unfold update_pktinfo, putPacketBuf. intros Hs H.
  destruct (bool_decide _); [simplify_eq; apply keeps_same; reflexivity|].
  destruct (ParsePktinfoCmsg env (rCmsg rd)); simplify_eq;
    [apply keeps_same; reflexivity|].
  eapply (keeps_update _ _ _ s); [exact Hs | | reflexivity..].
  unfold kept. simpl. auto 10.
Qed.

Lemma enqueue_keeps env id pkt st st' o :
  enqueue env id pkt st = (st', o) ->
  keeps id st st' /\ o <> ItBreak /\ o <> ItReadErr /\ o <> ItFlagsErr
  /\ o <> ItDecryptErr /\ o <> ItListenErr /\ o <> ItDeadlineErr.
Proof.
  unfold enqueue, panic_ingress, putPacketBuf. intros H.
  destruct (heap st !! id) as [s|] eqn:Hs;
    [|simplify_eq; split; [apply keeps_same; reflexivity | repeat split; discriminate]].
  destruct (Chan.try_send _ _ _) eqn:Hts; simplify_eq;
    try (split; [apply keeps_same; reflexivity | repeat split; discriminate]).
  - destruct (p2w s) as [[]|] eqn:Hw; simplify_eq;
      try (split; [apply keeps_same; reflexivity | repeat split; discriminate]).
    split; [|repeat split; discriminate].
    eapply (keeps_update _ _ _ s); [exact Hs | | reflexivity..].
    unfold kept. simpl. repeat split; auto. right. eauto.
  - split; [|repeat split; discriminate].
    eapply (keeps_update _ _ _ s); [exact Hs | | reflexivity..].
    unfold Chan.try_send in Hts. repeat case_match; simplify_eq.
    unfold kept. simpl. auto 10.
Qed.

Lemma critical_section_keeps env srv rd pkt st st' o id s :
  table st !! rAddr rd = Some id ->
  heap st !! id = Some s ->
  critical_section env srv rd pkt st = (st', o) ->
  keeps id st st'
  /\ (o = ItEnqueued \/ o = ItDropped \/ o = ItPktinfoErr \/ o = ItPanic).
Proof.
  intros Hk Hs. unfold critical_section, lookup_or_create. rewrite Hk, Hs. simpl.
  destruct (update_pktinfo env rd (qbuf pkt) id s st) as [st2 [p|]] eqn:E2;
    pose proof (update_pktinfo_keeps _ _ _ _ _ _ _ _ Hs E2) as K2.
  - intros E3. destruct (enqueue_keeps _ _ _ _ _ _ E3) as (K3 & Ho).
    split; [eapply keeps_trans; eassumption|].
    destruct o; auto; exfalso; intuition congruence.
  - intros E3. simplify_eq. auto.
Qed.

Lemma count_received_keeps id l st : keeps id st (count_received l (getPacketBuf st)).
Proof.
  apply keeps_same; unfold count_received, getPacketBuf; simpl;
    destruct (ingress st); reflexivity.
Qed.

(** Whatever the read gave, an iteration for a client that is in the table
    keeps the client's session. *)
Lemma ingress_iter_keeps env srv rd st id s :
  table st !! rAddr rd = Some id ->
  heap st !! id = Some s ->
  keeps id st (ingress_iter env srv rd st).1.
Proof.
  intros Hk Hs. unfold ingress_iter, finish_ingress, putPacketBuf.
  destruct (rErr rd) as [e|].
  { destruct (is_deadline e); apply keeps_same; reflexivity. }
  destruct (ParseFlagsForError env (rFlags rd)); [apply keeps_same; reflexivity|].
  destruct (DecryptZeroCopy _ _ _ _) as [e|[[b s0] l0]];
    [apply keeps_same; reflexivity|].
  pose proof (count_received_keeps id l0 st) as H0.
  destruct (critical_section _ _ _ _ _) as [st' o] eqn:E.
  eapply keeps_trans; [exact H0|].
  eapply (critical_section_keeps _ _ _ _ _ _ _ id s); [| |exact E].
  - destruct H0 as (-> & _). exact Hk.
  - unfold count_received, getPacketBuf. simpl. destruct (ingress st); exact Hs.
Qed.

(** X15. A datagram of a client that is in the table never starts a worker
    and never touches the table, the wait group or another session: the
    iteration ends with the packet queued, dropped on a
    full queue, or dropped on a control message that fails to parse, and the
    client's session keeps its socket with its read deadline, its packet
    size and its workers, a parked Proxy→Wg worker being handed the packet.
    In particular a session whose workers were never started stays so. *)
Theorem known_client_keeps_session env srv rd st id s b s0 l0 :
  rErr rd = None ->
  ParseFlagsForError env (rFlags rd) = None ->
  DecryptZeroCopy (handler srv) (rBuf rd) 0 (rN rd) = inr (b, s0, l0) ->
  table st !! rAddr rd = Some id ->
  heap st !! id = Some s ->
  table (ingress_iter env srv rd st).1 = table st
  /\ wg (ingress_iter env srv rd st).1 = wg st
  /\ (forall i, i <> id -> heap (ingress_iter env srv rd st).1 !! i = heap st !! i)
  /\ (exists s', heap (ingress_iter env srv rd st).1 !! id = Some s' /\ kept s s'
                 /\ (w2p s = None -> p2w s = None -> w2p s' = None /\ p2w s' = None))
  /\ ((ingress_iter env srv rd st).2 = ItEnqueued
      \/ (ingress_iter env srv rd st).2 = ItDropped
      \/ (ingress_iter env srv rd st).2 = ItPktinfoErr
      \/ (ingress_iter env srv rd st).2 = ItPanic).
Proof.
  intros Herr Hflags Hdec Hk Hs.
  pose proof (ingress_iter_keeps env srv rd st id s Hk Hs) as (A & B & C & D).
  split; [exact A|]. split; [exact B|]. split; [exact C|]. split.
  - destruct (D s Hs) as (s' & Hs' & Kept). exists s'.
    split; [exact Hs'|]. split; [exact Kept|].
    intros Hw Hp. destruct Kept as (_ & _ & _ & _ & _ & Hw' & Hp').
    split; [congruence|].
    destruct Hp' as [Hp'|(a & c & p & Hp' & _)]; congruence.
  - pose proof (count_received_keeps id l0 st) as (H0 & _ & _ & H1).
    destruct (H1 s Hs) as (s1 & Hs1 & _).
    unfold ingress_iter. rewrite Herr, Hflags, Hdec.
    destruct (critical_section _ _ _ _ _) as [st' o] eqn:E. simpl.
    eapply (critical_section_keeps _ _ _ _ _ _ _ id s1); [| |exact E].
    + rewrite H0. exact Hk.
    + exact Hs1.
Qed.

Lemma known_client_keeps_session_witness :
  table (ingress_iter exEnv exServer (exRead []) exOrphaned).1 = table exOrphaned
  /\ exists s', heap (ingress_iter exEnv exServer (exRead []) exOrphaned).1 !! 0%nat
                = Some s'
                /\ w2p s' = None /\ p2w s' = None.
Proof.
  assert (Hs : exists s, heap exOrphaned !! 0%nat = Some s
                         /\ w2p s = None /\ p2w s = None).
  { eexists. split; [vm_compute; reflexivity|]. split; reflexivity. }
  destruct Hs as (s & Hs & Hw & Hp).
  destruct (known_client_keeps_session exEnv exServer (exRead []) exOrphaned
              0%nat s (exBuf 1) 0 4)
    as (Ht & _ & _ & (s' & Hs' & _ & Horph) & _).
  - reflexivity.
  - reflexivity.
  - reflexivity.
  - vm_compute. reflexivity.
  - exact Hs.
  - split; [exact Ht|]. exists s'. split; [exact Hs' | apply Horph; assumption].
Defined.

(** ** Sessions without workers *)

Lemma reachable_exec env srv a st st' :
  reachable env srv st -> exec env srv a st = Some st' -> reachable env srv st'.
Proof.
  intros [acts Hr] H. exists (acts ++ [a]).
  rewrite run_app, Hr. simpl. rewrite H. reflexivity.
Qed.

Lemma reachable_run env srv acts st st' :
  reachable env srv st -> run env srv acts st = Some st' -> reachable env srv st'.
Proof.
  intros [acts0 Hr] H. exists (acts0 ++ acts). rewrite run_app, Hr. exact H.
Qed.

Lemma worker_needs_state env srv a id st s :
  worker_of a = Some id -> heap st !! id = Some s ->
  w2p s = None -> p2w s = None -> exec env srv a st = None.
Proof.
  intros Ha Hs Hw Hp.
  destruct a; simpl in Ha; simplify_eq; simpl.
  - unfold p2w_recv. rewrite Hs, Hp. reflexivity.
  - unfold p2w_process. rewrite Hs, Hp. reflexivity.
  - unfold p2w_finish. rewrite Hs, Hp. reflexivity.
  - unfold w2p_start. rewrite Hs, Hw. reflexivity.
  - unfold w2p_iter. rewrite Hs, Hw. reflexivity.
  - unfold w2p_teardown. rewrite Hs, Hw. reflexivity.
Qed.

Lemma orphan_step env srv a st st' k :
  reachable env srv st -> orphan k st -> exec env srv a st = Some st' ->
  orphan k st'.
Proof.
  intros Hr (id & s & Hk & Hs & Hw & Hp) H.
  pose proof (reachable_system_ok _ _ _ Hr) as (Ht & _ & _ & _).
  pose proof (reachable_system_ok _ _ _ (reachable_exec _ _ _ _ _ Hr H))
    as (Ht' & _ & _ & _).
  destruct (worker_of a) as [j|] eqn:Ha.
  { destruct (decide (j = id)) as [->|Hne].
    { rewrite (worker_needs_state env srv a id st s Ha Hs Hw Hp) in H. discriminate. }
    destruct (worker_step_effect _ _ _ _ _ _ Ha H) as (Hheap & Htab & _).
    exists id, s. split; [|split; [rewrite Hheap by congruence; exact Hs | auto]].
    destruct Htab as [-> | (-> & sj & Hsj & ->)]; [exact Hk|].
    rewrite lookup_delete_ne; [exact Hk|].
    intros Heq. subst k.
    pose proof (reachable_system_ok _ _ _ Hr) as (_ & _ & _ & Hsl).
    simpl in H. unfold w2p_teardown in H. rewrite Hsj in H.
    destruct (w2p sj) as [[]|] eqn:Hwj; try discriminate.
    assert (Hslot : table st !! key sj = Some j)
      by (apply (Hsl j sj Hsj); rewrite Hwj; reflexivity).
    congruence. }
  destruct a; simpl in Ha; try discriminate; simpl in H.
  - destruct (ingress st); try discriminate. simplify_eq.
    exists id, s. unfold Start. destruct listenErr; simpl; auto.
  - destruct (ingress st) as [|n b| |] eqn:Hi; try discriminate. simplify_eq.
    destruct (decide (rAddr rd = k)) as [<-|Hne].
    + destruct (ingress_iter_keeps env srv rd st id s Hk Hs) as (A & _ & _ & D).
      destruct (D s Hs) as (s' & Hs' & (_ & _ & _ & _ & _ & Hw' & Hp')).
      exists id, s'. split; [rewrite A; exact Hk|]. split; [exact Hs'|].
      split; [congruence|].
      destruct Hp' as [Hp'|(x & y & p & Hp' & _)]; congruence.
    + destruct (ingress_iter_touches env srv rd st n b Hi) as (A & _ & C & _).
      assert (Hk' : table (ingress_iter env srv rd st).1 !! k = Some id)
        by (rewrite A by congruence; exact Hk).
      exists id, s. split; [exact Hk'|]. split; [|auto].
      rewrite C; [exact Hs|].
      intros Hslot.
      destruct (Ht' _ _ Hk') as (s1 & Hs1 & Hkey1 & _).
      destruct (Ht' _ _ Hslot) as (s2 & Hs2 & Hkey2 & _).
      congruence.
  - destruct (stopping st); try discriminate.
    unfold Stop_begin in H.
    destruct (proxyConn st) as [c|]; [|simplify_eq; exists id, s; auto].
    destruct (SetReadDeadline now c) as [c' [e|]]; simplify_eq;
      exists id, s; simpl; auto.
  - destruct (stopping st) as [|now|]; try discriminate.
    destruct (mwg st =? 0); [|discriminate]. simplify_eq.
    destruct (stop_fold_control now (map_to_list (table st)) st) as (Htab & _).
    exists id, (stopped now s). simpl. fold (Stop_deadlines now st).
    split; [unfold Stop_deadlines; rewrite Htab; exact Hk|].
    split; [|split; [exact Hw | exact Hp]].
    unfold Stop_deadlines. rewrite stop_fold_heap, Hs.
    rewrite decide_True; [reflexivity|].
    apply list_elem_of_fmap. exists (k, id). split; [reflexivity|].
    apply elem_of_map_to_list. exact Hk.
  - destruct (stopping st); try discriminate.
    destruct (wg st =? 0); [|discriminate]. simplify_eq.
    unfold Stop_close. destruct (proxyConn st) as [c|]; [|exists id, s; auto].
    destruct (Close c) as [c' [e|]]; exists id, s; simpl; auto.
Qed.

(** X16. A session without workers is permanent.  Once a reachable state
    holds a table slot whose session has neither worker (what a first
    datagram with an unparsable control message leaves behind), every later
    run keeps it: no datagram of any client, no step of any worker and no
    phase of Stop starts its workers or removes the slot, and no worker
    step is enabled for that session, so its socket is never read and never
    closed. *)
Theorem orphan_is_permanent env srv st k :
  reachable env srv st -> orphan k st ->
  (forall acts st', run env srv acts st = Some st' -> orphan k st')
  /\ (forall id, table st !! k = Some id ->
      forall a, worker_of a = Some id -> exec env srv a st = None).
Proof.
  intros Hr Ho. split.
  - intros acts. revert st Hr Ho.
    induction acts as [|a acts IH]; intros st Hr Ho st' H; simpl in H.
    + simplify_eq. exact Ho.
    + destruct (exec env srv a st) as [st1|] eqn:E; [|discriminate].
      apply (IH st1); [eapply reachable_exec | eapply orphan_step | ]; eassumption.
  - intros id Hk a Ha. destruct Ho as (id' & s & Hk' & Hs & Hw & Hp).
    assert (id' = id) as -> by congruence.
    eapply worker_needs_state; eassumption.
Qed.

Lemma orphan_is_permanent_witness :
  orphan exClient exOrphaned
  /\ (forall acts st', run exEnv exServer acts exOrphaned = Some st' ->
      orphan exClient st').
Proof.
  assert (Ho : orphan exClient exOrphaned).
  { exists 0%nat. eexists. split; [vm_compute; reflexivity|].
    split; [vm_compute; reflexivity|]. split; reflexivity. }
  split; [exact Ho|].
  apply (orphan_is_permanent exEnv exServer exOrphaned exClient
           (exAfterFirst_reachable [1]) Ho).
Defined.

(** ** When the Wg→Proxy worker leaves its loop, and when it writes *)

(** X17. One iteration of the Wg→Proxy loop, whatever the read gave: it
    never touches the table, the wait group, the session's entry or the
    other worker; the loop is left exactly when the read failed with the
    deadline error; at most one datagram is written to the proxy socket,
    and only for a read without error, with clean flags, from the
    configured endpoint, that the handler encrypted; and the two counters
    advance exactly when that write was attempted, otherwise they stay. *)
Theorem w2p_loop_exit_and_output env srv id rd st s l :
  heap st !! id = Some s ->
  w2p s = Some (W2PLoop l) ->
  exists st' s',
    w2p_iter env srv id rd st = Some st'
    /\ heap st' !! id = Some s'
    /\ key s' = key s /\ entry s' = entry s /\ p2w s' = p2w s
    /\ table st' = table st /\ wg st' = wg st
    /\ (w2p s' = Some W2PLoopDone <->
        exists e, wErr rd = Some e /\ is_deadline e = true)
    /\ (length (proxy_writes (drop (length (trace st)) (trace st'))) <= 1)%nat
    /\ (proxy_writes (drop (length (trace st)) (trace st')) <> [] ->
        wErr rd = None
        /\ ParseFlagsForError env (wFlags rd) = None
        /\ AddrPortMappedEqual (wSrc rd) (wgAddrPort srv) = true
        /\ exists b s0 n,
             EncryptZeroCopy (handler srv) (lPacketBuf (after_read srv s rd l))
               (FrontOverhead (handler srv)) (wN rd) = inr (b, s0, n))
    /\ (forall l', w2p s' = Some (W2PLoop l') ->
        (lPacketsSent l', lWgBytesSent l') =
          if bool_decide (proxy_writes (drop (length (trace st)) (trace st')) = [])
          then (lPacketsSent l, lWgBytesSent l)
          else (u64 (lPacketsSent l + 1), u64 (lWgBytesSent l + u64 (wN rd)))).
Proof.
  intros Hs Hw. unfold w2p_iter. rewrite Hs, Hw. unfold after_read. simpl.
  destruct (wErr rd) as [e|] eqn:He.
  { destruct (is_deadline e) eqn:Hd; do 2 eexists;
      (split; [reflexivity|]); simpl; rewrite lookup_insert_eq, drop_app_length;
      (split; [reflexivity|]); simpl; repeat (split; [reflexivity|]).
    - split; [split; eauto|]. split; [lia|]. split; [congruence|]. discriminate.
    - split; [split; [discriminate | intros (e' & ? & ?); congruence]|].
      split; [lia|]. split; [congruence|]. intros l' ?. simplify_eq. reflexivity. }
  destruct (ParseFlagsForError env (wFlags rd)) as [e|] eqn:Hf.
  { do 2 eexists. split; [reflexivity|]. simpl.
    rewrite lookup_insert_eq, drop_app_length.
    split; [reflexivity|]. simpl. repeat (split; [reflexivity|]).
    split; [split; [discriminate | intros (e' & ? & ?); congruence]|].
    split; [lia|]. split; [congruence|]. intros l' ?. simplify_eq. reflexivity. }
  destruct (AddrPortMappedEqual (wSrc rd) (wgAddrPort srv)) eqn:Hsrc; simpl.
  2: { do 2 eexists. split; [reflexivity|]. simpl.
       rewrite lookup_insert_eq, drop_app_length.
       split; [reflexivity|]. simpl. repeat (split; [reflexivity|]).
       split; [split; [discriminate | intros (e' & ? & ?); congruence]|].
       split; [lia|]. split; [congruence|]. intros l' ?. simplify_eq. reflexivity. }
  destruct (EncryptZeroCopy _ _ _ _) as [e|[[b s0] n]] eqn:Henc.
  { do 2 eexists. split; [reflexivity|]. simpl.
    rewrite lookup_insert_eq, drop_app_length.
    split; [reflexivity|]. simpl. repeat (split; [reflexivity|]).
    split; [split; [discriminate | intros (e' & ? & ?); congruence]|].
    split; [lia|]. split; [congruence|]. intros l' ?. simplify_eq. reflexivity. }
  destruct (slice b s0 (GoInt.add s0 n)) as [pkt|].
  2: { do 2 eexists. split; [reflexivity|]. simpl.
       rewrite lookup_insert_eq, drop_app_length.
       split; [reflexivity|]. simpl. repeat (split; [reflexivity|]).
       split; [split; [discriminate | intros (e' & ? & ?); congruence]|].
       split; [lia|]. split; [congruence|]. discriminate. }
  destruct (load_pktinfo (entry s) l) as [[cpi cpp]|].
  2: { do 2 eexists. split; [reflexivity|]. simpl.
       rewrite lookup_insert_eq, drop_app_length.
       split; [reflexivity|]. simpl. repeat (split; [reflexivity|]).
       split; [split; [discriminate | intros (e' & ? & ?); congruence]|].
       split; [lia|]. split; [congruence|]. discriminate. }
  do 2 eexists. split; [reflexivity|]. simpl.
  rewrite lookup_insert_eq, drop_app_length.
  split; [reflexivity|]. simpl. repeat (split; [reflexivity|]).
  split; [split; [discriminate | intros (e' & ? & ?); congruence]|].
  destruct (wWriteErr rd); simpl.
  all: split; [lia|]; split;
    [intros _; repeat (split; [reflexivity|]); eauto
    | intros l' ?; simplify_eq; reflexivity].
Qed.

Lemma w2p_loop_exit_and_output_witness :
  exists st' s',
    w2p_iter exEnv exServer 0%nat exWgDeadline exLive = Some st'
    /\ heap st' !! 0%nat = Some s'
    /\ w2p s' = Some W2PLoopDone.
Proof.
  destruct (w2p_loop_exit_and_output exEnv exServer 0%nat exWgDeadline exLive
              exSession exLocals)
    as (st' & s' & H & Hs' & _ & _ & _ & _ & _ & Hexit & _).
  - reflexivity.
  - reflexivity.
  - exists st', s'. split; [exact H|]. split; [exact Hs'|].
    apply Hexit. exists ErrDeadlineExceeded. split; reflexivity.
Defined.

(** ** The scratch buffer of the Wg→Proxy worker *)

Lemma reachable_sizes env srv st id s :
  reachable env srv st -> heap st !! id = Some s ->
  maxProxyPacketSize (entry s) = size_for srv (key s).
Proof.
  intros Hr. revert id s.
  apply (reachable_ind env srv
           (fun st => forall id s, heap st !! id = Some s ->
                      maxProxyPacketSize (entry s) = size_for srv (key s)));
    [| |exact Hr].
  - intros id s H. unfold init in H. simpl in H. rewrite lookup_empty in H.
    discriminate.
  - intros a s1 s2 Hinv Hex id s' Hs'.
    destruct (exec_ok env srv a s1 s2 Hex) as (K & S & _).
    destruct (heap s1 !! id) as [s|] eqn:E.
    + destruct (K id s E) as (s3 & H3 & Hk & Hm).
      assert (s3 = s') as -> by congruence.
      rewrite Hm, Hk. apply (Hinv id s E).
    + apply (S id s' Hs' E).
Qed.

(** X18. The start of the Wg→Proxy worker in a reachable state.  Its
    scratch buffer has the packet size that the client's address family
    selects, zero-filled, and its counters start at zero; its pktinfo is
    what the pointer it was started with holds.  The worker enters its loop
    exactly when the handler's front and rear overheads fit in that size;
    otherwise slicing the plaintext region panics.  Nothing else changes. *)
Theorem w2p_start_scratch_buffer env srv st id s cpp :
  reachable env srv st ->
  heap st !! id = Some s ->
  w2p s = Some (W2PStarting cpp) ->
  0 <= FrontOverhead (handler srv) ->
  0 <= RearOverhead (handler srv) <= GoInt.maxInt ->
  0 <= size_for srv (key s) <= GoInt.maxInt ->
  exists st',
    w2p_start srv id st = Some st'
    /\ heap st' =
         <[id := set_w2p
                   (Some (if FrontOverhead (handler srv) + RearOverhead (handler srv)
                             <=? size_for srv (key s)
                          then W2PLoop (mkW2P (deref cpp) cpp
                                          (replicate (Z.to_nat (size_for srv (key s))) 0)
                                          0 0)
                          else W2PPanicked)) s]> (heap st)
    /\ table st' = table st /\ wg st' = wg st /\ trace st' = trace st
    /\ nextPtr st' = nextPtr st.
Proof.
  intros Hr Hs Hw Hf Hrear Hsz.
  pose proof (reachable_sizes env srv st id s Hr Hs) as Hsize.
  unfold w2p_start. rewrite Hs, Hw, Hsize.
  set (size := size_for srv (key s)) in *.
  eexists. split; [reflexivity|]. simpl.
  split; [|repeat split; reflexivity].
  f_equal. f_equal. f_equal.
  assert (Hlt : (size <? 0) = false) by (apply Z.ltb_ge; lia).
  rewrite Hlt.
  rewrite sub_exact
    by (unfold GoInt.in_range, GoInt.minInt, GoInt.maxInt in *; lia).
  unfold slice. rewrite length_replicate, Z2Nat.id by lia.
  assert (H0 : (0 <=? FrontOverhead (handler srv)) = true) by (apply Z.leb_le; lia).
  assert (H2 : (size - RearOverhead (handler srv) <=? size) = true)
    by (apply Z.leb_le; lia).
  rewrite H0, H2. simpl. rewrite andb_true_r.
  destruct (Z.leb_spec (FrontOverhead (handler srv))
              (size - RearOverhead (handler srv)));
    destruct (Z.leb_spec (FrontOverhead (handler srv) + RearOverhead (handler srv))
                size); try lia; reflexivity.
Qed.

Lemma w2p_start_scratch_buffer_witness :
  exists st',
    w2p_start exServer 0%nat (exAfterFirst []) = Some st'
    /\ exists s', heap st' !! 0%nat = Some s'
                  /\ exists l, w2p s' = Some (W2PLoop l)
                               /\ length (lPacketBuf l) = 1472%nat.
Proof.
  assert (Hs : exists s, heap (exAfterFirst []) !! 0%nat = Some s
                         /\ key s = exClient /\ w2p s = Some (W2PStarting None)).
  { eexists. split; [vm_compute; reflexivity|]. split; reflexivity. }
  destruct Hs as (s & Hs & Hkey & Hw).
  destruct (w2p_start_scratch_buffer exEnv exServer (exAfterFirst []) 0%nat s None
              (exAfterFirst_reachable []) Hs Hw)
    as (st' & H & Hheap & _).
  - vm_compute. discriminate.
  - vm_compute. split; discriminate.
  - rewrite Hkey. vm_compute. split; discriminate.
  - exists st'. split; [exact H|]. rewrite Hheap, lookup_insert_eq, Hkey.
    eexists. split; [reflexivity|]. eexists. split; [vm_compute; reflexivity|].
    vm_compute. reflexivity.
Defined.

(** ** The end of Stop *)

Lemma exec_stop_conn env srv a st st' :
  control_ok st -> stop_conn_ok st -> exec env srv a st = Some st' ->
  stop_conn_ok st'.
Proof.
  intros (_ & Hp & Hs) Hq H.
  destruct (worker_of a) as [id|] eqn:Ha.
  { destruct (worker_step_effect _ _ _ _ _ _ Ha H) as (_ & _ & E1 & E2 & _).
    unfold stop_conn_ok. rewrite E1, E2. exact Hq. }
  destruct a; simpl in Ha; try discriminate; simpl in H.
  - destruct (ingress st) eqn:Hi; try discriminate. simplify_eq.
    assert (Hidle : stopping st = StopIdle).
    { destruct (stopping st) eqn:Hst; [reflexivity| |];
        exfalso; apply Hp; [apply Hs; discriminate | reflexivity
                           |apply Hs; discriminate | reflexivity]. }
    unfold Start, stop_conn_ok. destruct listenErr; simpl; rewrite Hidle; congruence.
  - destruct (ingress st) as [|n b| |] eqn:Hi; try discriminate. simplify_eq.
    destruct (ingress_iter_touches env srv rd st n b Hi) as (_ & _ & _ & E1 & E2 & _).
    unfold stop_conn_ok. rewrite E1, E2. exact Hq.
  - destruct (stopping st) eqn:Hst; try discriminate.
    unfold Stop_begin, SetReadDeadline in H.
    destruct (proxyConn st) as [c|] eqn:Hc;
      [|simplify_eq; unfold stop_conn_ok; rewrite Hst; congruence].
    destruct (connClosed c) eqn:Hcl; simplify_eq; unfold stop_conn_ok; simpl.
    + rewrite Hst. congruence.
    + intros _. eexists. split; reflexivity.
  - destruct (stopping st) as [|t|] eqn:Hst; try discriminate.
    destruct (mwg st =? 0); [|discriminate]. simplify_eq.
    destruct (stop_fold_control t (map_to_list (table st)) st) as (_ & _ & E1 & _).
    unfold stop_conn_ok, Stop_deadlines. simpl. rewrite E1.
    intros _. apply Hq. rewrite Hst. discriminate.
  - destruct (stopping st) eqn:Hst; try discriminate.
    destruct (wg st =? 0); [|discriminate]. simplify_eq.
    unfold stop_conn_ok. simpl. congruence.
Qed.

Lemma reachable_stop_conn env srv st : reachable env srv st -> stop_conn_ok st.
Proof.
  intros Hr.
  assert (H : control_ok st /\ stop_conn_ok st); [|apply H].
  revert st Hr. apply (reachable_ind env srv (fun st => control_ok st /\ stop_conn_ok st)).
  - split; [unfold control_ok, init; simpl; auto|].
    unfold stop_conn_ok, init. simpl. congruence.
  - intros a s1 s2 (Hc & Hq) Hex.
    split; [eapply exec_control | eapply exec_stop_conn]; eassumption.
Qed.

(** X19. A call of [Stop] that got past its first lines ends well.  In every
    reachable state in which [Stop] is waiting, the proxy socket is open;
    so once the wait group of the workers is zero, the final [Close]
    succeeds: [Stop] returns nil, the proxy socket is closed, and every
    worker of every session has returned. *)
Theorem Stop_closes_and_returns_nil env srv st :
  reachable env srv st ->
  stopping st <> StopIdle ->
  (exists c, proxyConn st = Some c /\ connClosed c = false)
  /\ (stopping st = StopWaitWorkers -> wg st = 0 ->
      (Stop_close st).2 = None
      /\ exec env srv AStopClose st = Some (set_stopping StopIdle (Stop_close st).1)
      /\ (exists c', proxyConn (Stop_close st).1 = Some c' /\ connClosed c' = true)
      /\ trace (Stop_close st).1 = trace st ++ [EvProxyClose]
      /\ heap (Stop_close st).1 = heap st /\ table (Stop_close st).1 = table st
      /\ forall id s, heap st !! id = Some s ->
           w2p_gone (w2p s) /\ p2w_gone (p2w s)).
Proof.
  intros Hr Hst.
  destruct (reachable_stop_conn _ _ _ Hr Hst) as (c & Hc & Hopen).
  split; [eauto|].
  intros Hw Hwg.
  assert (Hsc : Stop_close st =
                (emit [EvProxyClose]
                   (set_proxyConn (Some (mkConn true (readDeadline c))) st), None)).
  { unfold Stop_close, Close. rewrite Hc, Hopen. reflexivity. }
  simpl. rewrite Hw, Hwg, Hsc. simpl.
  split; [reflexivity|]. split; [reflexivity|]. split; [eauto|].
  split; [reflexivity|]. split; [reflexivity|]. split; [reflexivity|].
  intros id s Hs.
  destruct (reachable_system_ok _ _ _ Hr) as (_ & Hwgok & _).
  unfold wg_ok in Hwgok. rewrite Hwg in Hwgok.
  pose proof (running_workers_zero (heap st) id s (eq_sym Hwgok) Hs) as Hl.
  unfold live in Hl. unfold w2p_gone, p2w_gone.
  destruct (w2p s) as [[]|], (p2w s) as [[]|]; simpl in Hl; try lia; auto.
Qed.

Lemma Stop_closes_and_returns_nil_witness :
  exists st, run exEnv exServer exFullStopRun init = Some st
             /\ (Stop_close st).2 = None.
Proof.
  eexists. split; [vm_compute; reflexivity|].
  refine (proj1 (proj2 (Stop_closes_and_returns_nil exEnv exServer _ _ _) _ _)).
  - exists exFullStopRun. vm_compute. reflexivity.
  - vm_compute. discriminate.
  - vm_compute. reflexivity.
  - vm_compute. reflexivity.
Defined.

(** ** Closing the upstream socket *)


